(** * go-jwksclient: the JWKS cache and refresh engine

    A shallow embedding of [client.go], [headers.go], [config.go] and
    [errors.go] of package [jwksclient], and proofs of the properties of
    the cache that its specification states.

    Conventions of the embedding:
    - [time.Time] is a point on one time line, counted in nanoseconds from
      Go's zero time ([time.Time{}]); [time.Duration] is a signed 64-bit
      count of nanoseconds, and a subtraction of durations wraps around.
    - An [error] is a tagged union with one constructor per place the
      package builds one; the nil error is [None].
    - [time.Now()] and [httpClient.Get] are the two effects of the package:
      they read from a [World] that is threaded through every method, and
      that counts the readings of the clock and the requests.
    - What the package calls in its libraries and cannot be read off this
      repository ([jwk.Set] and its decoder, [strings.TrimSpace],
      [time.ParseDuration], [time.Parse]) is the interface [Externals];
      [TestDouble] implements it for the closed examples.
    - The mutex [Client.m] serialises the methods: one call is one
      transition.  Logging does not touch the cache and is left out.
    - A loop that waits in a [select] ([Refresher], [Watcher.Watch]) takes
      the sequence of signals it receives as an argument, and reports
      that it is still waiting when the sequence is used up.

    The second part embeds package [keyfiles] (the directory listing, its
    hash and the watcher) and package [private] (the loader of a directory
    of private keys) in the same way. *)

From Stdlib Require Import ZArith String Ascii List Bool Lia.
From stdpp Require Import base option gmap strings.

Local Open Scope string_scope.
Local Open Scope Z_scope.

(** ** Errors *)

Inductive error : Type :=
| ErrKeysNotFetched                                     (* &ErrKeysNotFetched{} *)
| ErrExternal (msg : string)                            (* raised by a library *)
| ErrNew (msg : string)                                 (* errors.New(msg) *)
| ErrWrap (context : string) (cause : error)            (* fmt.Errorf("context: %w", cause) *)
| ErrUnexpectedStatus (code : Z)                        (* "unexpected HTTP status code: %d" *)
| ErrNegativeAge (maxAge age totalAge : Z).             (* "negative age: %s-%s=%s" *)

(** A Go call that returns [(value, error)] and whose value is only used
    when the error is nil. *)
Inductive result (A : Type) : Type :=
| Ok (a : A)
| Err (e : error).
Arguments Ok {A} a.
Arguments Err {A} e.

(** ** package time *)

Module GoTime.

Definition Time : Type := Z.
Definition Duration : Type := Z.

Definition MinInt64 : Z := - 2 ^ 63.
Definition MaxInt64 : Z := 2 ^ 63 - 1.

Definition Nanosecond : Duration := 1.
Definition Second : Duration := 1000000000.
Definition Minute : Duration := 60 * Second.
Definition Hour : Duration := 60 * Minute.

(** [time.Time{}] *)
Definition zero : Time := 0.

Definition IsZero (t : Time) : bool := t =? 0.
Definition Add (t : Time) (d : Duration) : Time := t + d.
Definition Before (t u : Time) : bool := t <? u.
Definition After (t u : Time) : bool := u <? t.

(** Signed 64-bit wrap-around, the arithmetic of [Duration]. *)
Definition wrap64 (z : Z) : Z := (z + 2 ^ 63) mod 2 ^ 64 - 2 ^ 63.

Definition DurationSub (a b : Duration) : Duration := wrap64 (a - b).

End GoTime.
Import GoTime.

(** ** package strings *)

Module GoStrings.

(** [strings.Split(s, sep)] for a separator of one byte. *)
Fixpoint Split (s : string) (sep : ascii) : list string :=
  match s with
  | EmptyString => [EmptyString]
  | String ch rest =>
      if Ascii.eqb ch sep then EmptyString :: Split rest sep
      else match Split rest sep with
           | part :: parts => String ch part :: parts
           | [] => [String ch EmptyString]
           end
  end.

Definition HasPrefix (s prefix : string) : bool := String.prefix prefix s.

Fixpoint dropBytes (n : nat) (s : string) : string :=
  match n, s with
  | O, _ => s
  | S n', String _ rest => dropBytes n' rest
  | S _, EmptyString => EmptyString
  end.

Definition TrimPrefix (s prefix : string) : string :=
  if HasPrefix s prefix then dropBytes (String.length prefix) s else s.

End GoStrings.
Import GoStrings.

(** ** net/http headers *)

(** [http.Header] is [map[string][]string]; a nil header is the empty map. *)
Abbreviation Header := (gmap string (list string)).

(** [Header.Get(key)] for a key already in canonical form: the first value
    stored under the key, or the empty string. *)
Definition Get (h : Header) (key : string) : string :=
  match h !! key with
  | Some (v :: _) => v
  | _ => EmptyString
  end.

(** ** What the package takes from its libraries *)

Class Externals : Type := {
  (** the non-nil values of interface [jwk.Set] *)
  JWKSet : Type;
  (** [json.Unmarshal(body, kSet)] on a fresh [jwk.NewSet()] *)
  Unmarshal : list Byte.byte -> result JWKSet;
  (** [strings.TrimSpace] *)
  TrimSpace : string -> string;
  (** [time.ParseDuration] *)
  ParseDuration : string -> result Duration;
  (** [time.Parse(layout, value)] *)
  ParseTime : string -> string -> result Time
}.

(** What the package may rely on: a [Duration] is an int64. *)
Class ExternalsLaws `{Ext : Externals} : Prop := {
  ParseDuration_int64 :
    forall s d, ParseDuration s = Ok d -> MinInt64 <= d <= MaxInt64
}.

Definition RFC1123 : string := "Mon, 02 Jan 2006 15:04:05 MST".

(** ** headers.go *)

Definition headerNameCacheControl : string := "Cache-Control".
Definition headerNameAge : string := "Age".
Definition headerNameExpires : string := "Expires".

Definition cacheControlFieldMaxAge : string := "max-age".
Definition cacheControlFieldSMaxAge : string := "s-maxage".

Section Headers.
Context `{Ext : Externals}.

(** The [for _, part := range parts] loop of [parseMaxAge]; [maxAgeStr]
    is the value of the variable on entry, the result its value on exit. *)
Fixpoint scanParts (parts : list string) (maxAgeStr : string) : string :=
  match parts with
  | [] => maxAgeStr
  | part :: parts' =>
      let part := TrimSpace part in
      if HasPrefix part (cacheControlFieldMaxAge +:+ "=") then
        TrimPrefix part (cacheControlFieldMaxAge +:+ "=")     (* break *)
      else if HasPrefix part (cacheControlFieldSMaxAge +:+ "=") then
        scanParts parts' (TrimPrefix part (cacheControlFieldSMaxAge +:+ "="))
      else scanParts parts' maxAgeStr
  end.

Definition parseMaxAge (header : Header) : Duration * bool * option error :=
  let cch := Get header "Cache-Control" in
  if String.eqb cch EmptyString then (0, false, None)
  else
    let parts := Split cch "," in
    let maxAgeStr := scanParts parts EmptyString in
    if String.eqb maxAgeStr EmptyString then (0, false, None)
    else match ParseDuration (maxAgeStr +:+ "s") with
         | Err err => (0, false, Some err)
         | Ok maxAge => (maxAge, true, None)
         end.

Definition parseAge (header : Header) : Duration * bool * option error :=
  let ageStr := Get header headerNameAge in
  if String.eqb ageStr EmptyString then (0, false, None)
  else match ParseDuration (ageStr +:+ "s") with
       | Err err => (0, false, Some err)
       | Ok age => (age, true, None)
       end.

Definition parseExpires (header : Header) : Time * bool * option error :=
  let expiresStr := Get header headerNameExpires in
  if String.eqb expiresStr EmptyString then (zero, false, None)
  else match ParseTime RFC1123 expiresStr with
       | Err err => (zero, false, Some err)
       | Ok expires => (expires, true, None)
       end.

Definition expiresAfter (now : Time) (headers : Header) : Time * option error :=
  match parseMaxAge headers with
  | (_, _, Some err) => (zero, Some (ErrWrap "parsing max-age" err))
  | (maxAge, true, None) =>
      let totalAge := maxAge in
      match parseAge headers with
      | (_, _, Some err) => (zero, Some (ErrWrap "parsing age" err))
      | (age, true, None) =>
          let totalAge := DurationSub totalAge age in
          if totalAge <? 0 then (zero, Some (ErrNegativeAge maxAge age totalAge))
          else (Add now totalAge, None)
      | (_, false, None) => (Add now totalAge, None)
      end
  | (_, false, None) =>
      (* no max-age, try Expires *)
      match parseExpires headers with
      | (_, _, Some err) => (zero, Some (ErrWrap "parsing expires" err))
      | (_, false, None) => (zero, Some (ErrNew "cache headers not present"))
      | (expires, true, None) => (expires, None)
      end
  end.

End Headers.

(** ** config.go *)

Record Config : Type := {
  (* URL of the JWKS endpoint *)
  URL : string;
  (* cache successful requests at least for this duration regardles of
     cache headers *)
  CacheMin : Duration;
  (* cache successful requests at most for this duration regardles of
     cache headers, 0 means caching is disabled *)
  CacheMax : Duration;
  (* cache failed responses (connection and HTTP errors) for this duration,
     0 means no caching for errors *)
  CacheErrors : Duration;
  (* ExitOnError will cause the Refresher() method to return an error if
     the JWKS can't be fetched *)
  ExitOnError : bool;
  (* keep the old keys for this duration after an error, 0 means no caching
     of stale keys *)
  KeepStaleKeys : Duration
}.

(** NewConfig creates a new Config with default values *)
Definition NewConfig : Config :=
  {| URL := EmptyString;
     CacheMin := Minute;
     CacheMax := Hour;
     CacheErrors := 30 * Second;
     ExitOnError := false;
     KeepStaleKeys := 5 * Minute |}.

Definition Validate (c : Config) : option error :=
  if String.eqb (URL c) EmptyString then Some (ErrNew "URL is required") else None.

(** ** The world outside the client *)

(** What [io.ReadAll(resp.Body)] will give. *)
Record Response : Type := {
  StatusCode : Z;
  RespHeader : Header;
  Body : result (list Byte.byte)
}.

Definition StatusOK : Z := 200.

(** The system clock and the endpoint: [clock k] is what the [k]-th call
    of [time.Now()] returns, [roundTrip k url] what the [k]-th call of
    [httpClient.Get(url)] returns; [reads] and [requests] count the calls
    made so far. *)
Record World : Type := {
  clock : nat -> Time;
  reads : nat;
  roundTrip : nat -> string -> result Response;
  requests : nat
}.

Definition IO (A : Type) : Type := World -> A * World.

#[global] Instance IO_ret : MRet IO := fun A (a : A) w => (a, w).
#[global] Instance IO_bind : MBind IO :=
  fun A B (f : A -> IO B) (m : IO A) w => let (a, w') := m w in f a w'.

(** The world after one more reading of the clock, after one more request. *)
Definition tick (w : World) : World :=
  {| clock := clock w; reads := S (reads w);
     roundTrip := roundTrip w; requests := requests w |}.

Definition sent (w : World) : World :=
  {| clock := clock w; reads := reads w;
     roundTrip := roundTrip w; requests := S (requests w) |}.

(** [time.Now()] *)
Definition timeNow : IO Time := fun w => (clock w (reads w), tick w).

(** [c.httpClient.Get(url)] *)
Definition httpClientGet (url : string) : IO (result Response) :=
  fun w => (roundTrip w (requests w) url, sent w).

(** ** client.go *)

Section ClientDef.
Context `{Ext : Externals}.

Record Client : Type := {
  config : Config;
  (* cached data *)
  cacheExpiresAfter : Time;
  cachedResponse : list Byte.byte;
  cachedHeaders : Header;
  cachedJWKSet : option JWKSet;
  cachedError : option error;
  keysStaleSince : Time
}.

(** Field assignments [c.f = v]. *)
Definition set_cacheExpiresAfter (v : Time) (c : Client) : Client :=
  {| config := config c; cacheExpiresAfter := v;
     cachedResponse := cachedResponse c; cachedHeaders := cachedHeaders c;
     cachedJWKSet := cachedJWKSet c; cachedError := cachedError c;
     keysStaleSince := keysStaleSince c |}.
Definition set_cachedResponse (v : list Byte.byte) (c : Client) : Client :=
  {| config := config c; cacheExpiresAfter := cacheExpiresAfter c;
     cachedResponse := v; cachedHeaders := cachedHeaders c;
     cachedJWKSet := cachedJWKSet c; cachedError := cachedError c;
     keysStaleSince := keysStaleSince c |}.
Definition set_cachedHeaders (v : Header) (c : Client) : Client :=
  {| config := config c; cacheExpiresAfter := cacheExpiresAfter c;
     cachedResponse := cachedResponse c; cachedHeaders := v;
     cachedJWKSet := cachedJWKSet c; cachedError := cachedError c;
     keysStaleSince := keysStaleSince c |}.
Definition set_cachedJWKSet (v : option JWKSet) (c : Client) : Client :=
  {| config := config c; cacheExpiresAfter := cacheExpiresAfter c;
     cachedResponse := cachedResponse c; cachedHeaders := cachedHeaders c;
     cachedJWKSet := v; cachedError := cachedError c;
     keysStaleSince := keysStaleSince c |}.
Definition set_cachedError (v : option error) (c : Client) : Client :=
  {| config := config c; cacheExpiresAfter := cacheExpiresAfter c;
     cachedResponse := cachedResponse c; cachedHeaders := cachedHeaders c;
     cachedJWKSet := cachedJWKSet c; cachedError := v;
     keysStaleSince := keysStaleSince c |}.
Definition set_keysStaleSince (v : Time) (c : Client) : Client :=
  {| config := config c; cacheExpiresAfter := cacheExpiresAfter c;
     cachedResponse := cachedResponse c; cachedHeaders := cachedHeaders c;
     cachedJWKSet := cachedJWKSet c; cachedError := cachedError c;
     keysStaleSince := v |}.

(** New creates a new JWKS client *)
Definition New (config : Config) : result Client :=
  match Validate config with
  | Some err => Err (ErrWrap "validating config" err)
  | None =>
      Ok {| config := config; cacheExpiresAfter := zero;
            cachedResponse := []; cachedHeaders := ∅;
            cachedJWKSet := None; cachedError := None;
            keysStaleSince := zero |}
  end.

(** GetKeySet returns the loaded key set.  The operand of [&&] that
    reads the clock is evaluated only when [cachedError] is not nil. *)
Definition GetKeySet (c : Client) : IO (option JWKSet * option error) :=
  cond ← (if bool_decide (cachedError c ≠ None) then
            now ← timeNow;
            mret (Before (Add (keysStaleSince c) (KeepStaleKeys (config c))) now
                  || bool_decide (cachedJWKSet c = None))
          else mret false);
  if cond : bool then mret (None, cachedError c)
  else if bool_decide (cachedJWKSet c = None) then mret (None, Some ErrKeysNotFetched)
  else mret (cachedJWKSet c, None).

(** returns all loaded data, useful for debugging *)
Definition GetAll (c : Client)
  : option JWKSet * Header * list Byte.byte * option error :=
  (cachedJWKSet c, cachedHeaders c, cachedResponse c, cachedError c).

(** get performs a GET request and returns the raw body, headers and the
    JWK set *)
Definition get (c : Client)
  : IO (option JWKSet * list Byte.byte * Header * option error) :=
  r ← httpClientGet (URL (config c));
  match r with
  | Err err => mret (None, [], ∅, Some (ErrWrap "performing request" err))
  | Ok resp =>
      match Body resp with
      | Err err =>
          mret (None, [], RespHeader resp, Some (ErrWrap "reading response body" err))
      | Ok body =>
          if negb (StatusCode resp =? StatusOK) then
            mret (None, body, RespHeader resp,
                  Some (ErrUnexpectedStatus (StatusCode resp)))
          else
            match Unmarshal body with
            | Err err =>
                mret (None, body, RespHeader resp,
                      Some (ErrWrap "unmarshalling JSON" err))
            | Ok kSet => mret (Some kSet, body, RespHeader resp, None)
            end
      end
  end.

Definition updateExpiresAfter (headers : Header) (err : option error)
    (c : Client) : IO Client :=
  now ← timeNow;
  match err with
  | Some _ =>
      if 0 <? CacheErrors (config c) then
        mret (set_cacheExpiresAfter (Add now (CacheErrors (config c))) c)
      else mret c
  | None =>
      let '(headersExpiresAfter, err) := expiresAfter now headers in
      let expiresAfter := headersExpiresAfter in
      let expiresAfter :=
        match err with
        | Some _ => Add now (CacheMin (config c))
        | None =>
            let expiresAfter :=
              if Before (Add now (CacheMax (config c))) expiresAfter
              then Add now (CacheMax (config c)) else expiresAfter in
            let expiresAfter :=
              if Before expiresAfter (Add now (CacheMin (config c)))
              then Add now (CacheMin (config c)) else expiresAfter in
            expiresAfter
        end in
      mret (set_cacheExpiresAfter expiresAfter c)
  end.

(** Refresh fetches the JWKS from the endpoint and updates the cache.
    [refreshAttempt] is the body of [Refresh] below its freshness guard
    (from the call of [get] to the return); [time.Now()] in the guard is
    read only when [force] is false. *)
Definition refreshAttempt (c : Client) : IO (Client * (bool * option error)) :=
  '(ks, resp, headers, err) ← get c;
  c ← (if bool_decide (err ≠ None) && IsZero (keysStaleSince c) then
         (* update stale keys timestamp on the first error *)
         now ← timeNow;
         mret (set_keysStaleSince now c)
       else mret c);
  let c := set_cachedHeaders headers c in
  let c := set_cachedResponse resp c in
  let c := set_cachedError err c in
  let c := if bool_decide (err = None)
           then set_cachedJWKSet ks (set_keysStaleSince zero c)
           else c in
  c ← updateExpiresAfter headers err c;
  mret (c, (true, err)).

Definition Refresh (force : bool) (c : Client)
  : IO (Client * (bool * option error)) :=
  valid ← (if negb force then
             now ← timeNow;
             mret (negb (After now (cacheExpiresAfter c)))
           else mret false);
  if valid : bool then
    (* cache is still valid *)
    mret (c, (false, None))
  else refreshAttempt c.

End ClientDef.

(** ** A test double for the libraries

    An instance of [Externals] on which the package can be run: a JWKS
    document is accepted when it opens with a brace, durations are signed
    decimal integers followed by one unit (with the overflow bound of an
    int64), and dates are RFC 1123 dates in GMT.  Closed examples are
    evaluated on it. *)

Module TestDouble.

Definition isSpace (ch : ascii) : bool :=
  let n := nat_of_ascii ch in
  ((9 <=? n) && (n <=? 13) || (n =? 32))%nat.

Fixpoint trimLeft (s : string) : string :=
  match s with
  | String ch rest => if isSpace ch then trimLeft rest else s
  | EmptyString => EmptyString
  end.

Fixpoint trimRight (s : string) : string :=
  match s with
  | String ch rest =>
      let rest' := trimRight rest in
      if isSpace ch && String.eqb rest' EmptyString then EmptyString else String ch rest'
  | EmptyString => EmptyString
  end.

Definition trimSpace (s : string) : string := trimRight (trimLeft s).

Definition digit (ch : ascii) : option Z :=
  let n := nat_of_ascii ch in
  if ((48 <=? n) && (n <=? 57))%nat then Some (Z.of_nat n - 48) else None.

(** The leading decimal digits of [s] read into [x], and what follows
    them; [None] when the number leaves the range of an int64. *)
Fixpoint leadingInt (s : string) (x : Z) : option (Z * string) :=
  match s with
  | String ch rest =>
      match digit ch with
      | Some d =>
          if 2 ^ 63 / 10 <? x then None
          else let x := x * 10 + d in
               if 2 ^ 63 <? x then None else leadingInt rest x
      | None => Some (x, s)
      end
  | EmptyString => Some (x, s)
  end.

Definition unitMap (u : string) : option Z :=
  if String.eqb u "ns" then Some 1
  else if String.eqb u "us" then Some 1000
  else if String.eqb u "ms" then Some 1000000
  else if String.eqb u "s" then Some Second
  else if String.eqb u "m" then Some Minute
  else if String.eqb u "h" then Some Hour
  else None.

Definition invalidDuration : error := ErrExternal "time: invalid duration".

Definition parseDuration (s : string) : result Duration :=
  let '(neg, s) :=
    match s with
    | String "-" rest => (true, rest)
    | String "+" rest => (false, rest)
    | _ => (false, s)
    end in
  if String.eqb s "0" then Ok 0
  else
  match s with
  | EmptyString => Err invalidDuration
  | String ch _ =>
      match digit ch, leadingInt s 0 with
      | Some _, Some (v, u) =>
          match unitMap u with
          | Some unit =>
              if 2 ^ 63 / unit <? v then Err invalidDuration
              else
                let d := v * unit in
                if neg then Ok (- d)
                else if MaxInt64 <? d then Err invalidDuration else Ok d
          | None => Err (ErrExternal "time: unknown unit in duration")
          end
      | _, _ => Err invalidDuration
      end
  end.

(** RFC 1123 dates in GMT: ["Mon, 02 Jan 2006 15:04:05 GMT"]. *)

Definition twoDigits (a b : ascii) : option Z :=
  match digit a, digit b with
  | Some x, Some y => Some (10 * x + y)
  | _, _ => None
  end.

Definition monthOf (s : string) : option Z :=
  (fix find (l : list string) (i : Z) : option Z :=
     match l with
     | [] => None
     | m :: l' => if String.eqb m s then Some i else find l' (i + 1)
     end)
    ["Jan"; "Feb"; "Mar"; "Apr"; "May"; "Jun";
     "Jul"; "Aug"; "Sep"; "Oct"; "Nov"; "Dec"] 1.

Definition isWeekday (s : string) : bool :=
  existsb (String.eqb s) ["Mon"; "Tue"; "Wed"; "Thu"; "Fri"; "Sat"; "Sun"].

Definition isLeap (y : Z) : bool :=
  (y mod 4 =? 0) && (negb (y mod 100 =? 0) || (y mod 400 =? 0)).

Definition daysIn (y m : Z) : Z :=
  if m =? 2 then (if isLeap y then 29 else 28)
  else if (m =? 4) || (m =? 6) || (m =? 9) || (m =? 11) then 30 else 31.

Fixpoint daysBefore (y : Z) (m : nat) : Z :=
  match m with
  | O => 0
  | S m' => daysBefore y m' + daysIn y (Z.of_nat m)
  end.

(** Nanoseconds from 0001-01-01 00:00:00 UTC. *)
Definition date (y m d hh mm ss : Z) : Time :=
  let y' := y - 1 in
  let days := 365 * y' + y' / 4 - y' / 100 + y' / 400
              + daysBefore y (Z.to_nat (m - 1)) + (d - 1) in
  (((days * 24 + hh) * 60 + mm) * 60 + ss) * Second.

Definition parseTime (layout value : string) : result Time :=
  let bad := Err (ErrExternal "parsing time: cannot parse") in
  if negb (String.eqb layout RFC1123) then bad
  else
    match value with
    | String w1 (String w2 (String w3 (String "," (String " "
      (String d1 (String d2 (String " "
      (String m1 (String m2 (String m3 (String " "
      (String y1 (String y2 (String y3 (String y4 (String " "
      (String h1 (String h2 (String ":"
      (String n1 (String n2 (String ":"
      (String s1 (String s2 (String " "
      (String "G" (String "M" (String "T" EmptyString))))))))))))))))))))))))))))
      =>
        match twoDigits d1 d2, monthOf (String m1 (String m2 (String m3 EmptyString))),
              twoDigits y1 y2, twoDigits y3 y4,
              twoDigits h1 h2, twoDigits n1 n2, twoDigits s1 s2 with
        | Some d, Some m, Some yh, Some yl, Some hh, Some mm, Some ss =>
            let y := 100 * yh + yl in
            if isWeekday (String w1 (String w2 (String w3 EmptyString)))
               && (1 <=? d) && (d <=? daysIn y m)
               && (hh <? 24) && (mm <? 60) && (ss <? 60)
            then Ok (date y m d hh mm ss) else bad
        | _, _, _, _, _, _, _ => bad
        end
    | _ => bad
    end.

Definition unmarshal (body : list Byte.byte) : result (list Byte.byte) :=
  match body with
  | Byte.x7b :: _ => Ok body
  | _ => Err (ErrExternal "invalid character looking for beginning of value")
  end.

#[export] Instance externals : Externals := {|
  JWKSet := list Byte.byte;
  Unmarshal := unmarshal;
  TrimSpace := trimSpace;
  ParseDuration := parseDuration;
  ParseTime := parseTime
|}.

End TestDouble.

(** ** Vocabulary of the specification *)

(** What the next call of [time.Now()] returns. *)
Definition currentTime (w : World) : Time := clock w (reads w).

(** The world when the freshness guard of [Refresh] has been evaluated. *)
Definition afterGuard (force : bool) (w : World) : World :=
  if force then w else tick w.

(** The clamp of the specification: the ceiling is applied first (a
    candidate above [hi] becomes [hi]), the floor second (a candidate below
    [lo] becomes [lo]). *)
Definition spec_clamp (E lo hi : Time) : Time :=
  let candidate := if hi <? E then hi else E in
  if candidate <? lo then lo else candidate.

Section Vocabulary.
Context `{Ext : Externals}.

(** A refresh attempt actually runs: it is forced, or the cache had
    expired when the guard read the clock. *)
Definition runs (force : bool) (c : Client) (w : World) : bool :=
  force || After (currentTime w) (cacheExpiresAfter c).

(** What [get] returns to the attempt that [Refresh force] makes. *)
Definition fetchOf (force : bool) (c : Client) (w : World)
  : option JWKSet * list Byte.byte * Header * option error :=
  fst (get c (afterGuard force w)).

(** The clock reading an attempt takes first after [get] has returned: the
    time of the attempt. *)
Definition attemptTime (force : bool) (w : World) : Time :=
  currentTime (afterGuard force w).

(** The client, the returned pair and the world that a call of [Refresh]
    leaves. *)
Definition clientAfter (force : bool) (c : Client) (w : World) : Client :=
  fst (fst (Refresh force c w)).
Definition returned (force : bool) (c : Client) (w : World) : bool * option error :=
  snd (fst (Refresh force c w)).
Definition worldAfter (force : bool) (c : Client) (w : World) : World :=
  snd (Refresh force c w).

(** The reading of [time.Now()] that [updateExpiresAfter] takes in the
    attempt that [Refresh force] makes: the one after the reading that
    stamps [keysStaleSince], when the attempt stamps it. *)
Definition updateTime (force : bool) (c : Client) (w : World) : Time :=
  if bool_decide (snd (fetchOf force c w) ≠ None) && IsZero (keysStaleSince c)
  then currentTime (tick (afterGuard force w))
  else currentTime (afterGuard force w).

(** One entry of the history of refresh attempts. *)
Inductive Attempt : Type :=
| Fetched (ks : option JWKSet)
| Failed (at_ : Time) (err : error).

Definition attemptOf (force : bool) (c : Client) (w : World) : option Attempt :=
  if runs force c w then
    let '(ks, _, _, err) := fetchOf force c w in
    Some (match err with
          | None => Fetched ks
          | Some e => Failed (attemptTime force w) e
          end)
  else None.

(** A sequence of calls of [Refresh], one [force] flag per call; the
    history lists the attempts that ran, the most recent first. *)
Fixpoint refreshes (calls : list bool) (c : Client) (w : World)
    (hist : list Attempt) : Client * World * list Attempt :=
  match calls with
  | [] => (c, w, hist)
  | force :: calls' =>
      refreshes calls' (clientAfter force c w) (worldAfter force c w)
        (match attemptOf force c w with
         | Some a => a :: hist
         | None => hist
         end)
  end.

(** The time of the first failure of the run of consecutive failures that
    ends the history; the zero time when the history does not end with a
    failure. *)
Fixpoint firstFailureOfRun (hist : list Attempt) : Time :=
  match hist with
  | [] => zero
  | Fetched _ :: _ => zero
  | Failed t _ :: earlier =>
      match earlier with
      | Failed _ _ :: _ => firstFailureOfRun earlier
      | _ => t
      end
  end.

(** The key set of the most recent successful attempt. *)
Fixpoint lastGood (hist : list Attempt) : option JWKSet :=
  match hist with
  | [] => None
  | Fetched ks :: _ => ks
  | Failed _ _ :: earlier => lastGood earlier
  end.

(** The error of the most recent attempt. *)
Definition lastError (hist : list Attempt) : option error :=
  match hist with
  | Failed _ e :: _ => Some e
  | _ => None
  end.

(** The cache agrees with the history of the attempts. *)
Definition agrees (c : Client) (hist : list Attempt) : Prop :=
  keysStaleSince c = firstFailureOfRun hist /\
  cachedJWKSet c = lastGood hist /\
  cachedError c = lastError hist /\
  (cachedError c <> None -> keysStaleSince c <> zero).

(** The cache states a client can be in: the one [New] builds, and those
    [Refresh] leaves. *)
Inductive Reachable : Client -> Prop :=
| Reachable_New cfg c : New cfg = Ok c -> Reachable c
| Reachable_Refresh force c w :
    Reachable c -> Reachable (clientAfter force c w).

End Vocabulary.

(** ** Example worlds *)

Module Examples.
Import TestDouble.

Definition bytesOf (s : string) : list Byte.byte :=
  map byte_of_ascii (list_ascii_of_string s).

Definition headers (l : list (string * string)) : Header :=
  list_to_map (map (fun p => (fst p, [snd p])) l).

Definition jwks : list Byte.byte := bytesOf "{}".

Definition okResponse (h : Header) : result Response :=
  Ok {| StatusCode := 200; RespHeader := h; Body := Ok jwks |}.

Definition refused : result Response := Err (ErrExternal "connection refused").

(** A world whose clock starts at [t0] and advances by [step] at every
    reading, and whose endpoint answers the [k]-th request with the [k]-th
    entry of [script] (and refuses the connection afterwards). *)
Definition world (t0 step : Time) (script : list (result Response)) : World :=
  {| clock := fun k => t0 + step * Z.of_nat k;
     reads := 0;
     roundTrip := fun k _ => nth k script refused;
     requests := 0 |}.

Definition cfg : Config :=
  {| URL := "https://example.org/jwks.json";
     CacheMin := Minute; CacheMax := Hour;
     CacheErrors := 30 * Second; ExitOnError := false;
     KeepStaleKeys := 5 * Minute |}.

Definition withCacheMax (d : Duration) (c : Config) : Config :=
  {| URL := URL c; CacheMin := CacheMin c; CacheMax := d;
     CacheErrors := CacheErrors c; ExitOnError := ExitOnError c;
     KeepStaleKeys := KeepStaleKeys c |}.

Definition withCacheErrors (d : Duration) (c : Config) : Config :=
  {| URL := URL c; CacheMin := CacheMin c; CacheMax := CacheMax c;
     CacheErrors := d; ExitOnError := ExitOnError c;
     KeepStaleKeys := KeepStaleKeys c |}.

(** The client [New] builds (the zero client when the configuration is
    refused). *)
Definition client (config : Config) : Client :=
  match New config with
  | Ok c => c
  | Err _ =>
      {| config := config; cacheExpiresAfter := zero; cachedResponse := [];
         cachedHeaders := ∅; cachedJWKSet := None; cachedError := None;
         keysStaleSince := zero |}
  end.

(** 2024-01-01 00:00:00 UTC *)
Definition t2024 : Time := date 2024 1 1 0 0 0.

Definition maxAge120 : Header := headers [("Cache-Control", "public, max-age=120")].

Definition errRefused : error :=
  ErrWrap "performing request" (ErrExternal "connection refused").

(** One good fetch, then a failing endpoint; the clock advances by one
    second at every reading. *)
Definition outage : World := world t2024 Second [okResponse maxAge120].

(** The cache after a forced refresh that succeeds and a forced refresh
    that fails. *)
Definition staleClient : Client :=
  fst (fst (refreshes [true; true] (client cfg) outage [])).

(** A client with [cacheMax = 0]. *)
Definition noCeiling : Client := client (withCacheMax 0 cfg).

Definition aged : Header :=
  headers [("Cache-Control", "s-maxage=300, max-age=120"); ("Age", "20")].

(** A response whose Age exceeds its max-age. *)
Definition overAged : Header :=
  headers [("Cache-Control", "max-age=120"); ("Age", "200")].

(** A client with [cacheErrors = 0]; an endpoint that refuses every
    connection under a clock that stands still. *)
Definition noErrorCache : Client := client (withCacheErrors 0 cfg).

Definition frozenOutage : World := world t2024 0 [].

(** [noErrorCache] after one call of [Refresh(false)] during that outage. *)
Definition refusedOnce : Client := clientAfter false noErrorCache frozenOutage.
Definition frozenOutage1 : World := worldAfter false noErrorCache frozenOutage.

(** [noErrorCache] after a forced refresh that succeeds, and after a
    second forced refresh, which fails while the cache has not expired. *)
Definition freshCache : Client := clientAfter true noErrorCache outage.
Definition outage1 : World := worldAfter true noErrorCache outage.
Definition failedForced : Client := clientAfter true freshCache outage1.
Definition outage2 : World := worldAfter true freshCache outage1.

(** A good fetch under a clock that stands still. *)
Definition frozenGood : World := world t2024 0 [okResponse maxAge120].

(** An endpoint that refuses every connection. *)
Definition refusing : World := world t2024 Second [].

(** A good fetch whose response has an Age above its max-age. *)
Definition overAgedFetch : World := world t2024 Second [okResponse overAged].

End Examples.

(** ** client.go: the refresher loop *)

(** What a [select] of a loop receives: a tick of its ticker, or the
    cancellation of its context. *)
Inductive Signal : Type :=
| TickC
| CtxDone.

(** How a call of a loop stands when the signals are used up: it has
    returned, or it waits in its [select]. *)
Inductive Outcome : Type :=
| Returned (err : option error)
| Waiting.

Section RefresherDef.
Context `{Ext : Externals}.

(** The closure [refresh] of [Refresher]. *)
Definition refresherRefresh (c : Client) : IO (Client * option error) :=
  '(c, (refreshed, err)) ← Refresh false c;
  match err with
  | Some e =>
      if ExitOnError (config c) then mret (c, Some e)
      else mret (c, None)
  | None => mret (c, None)
  end.

(** The [for { select { ... } }] of [Refresher]. *)
Fixpoint refresherLoop (signals : list Signal) (c : Client)
  : IO (Client * Outcome) :=
  match signals with
  | [] => mret (c, Waiting)
  | CtxDone :: _ => mret (c, Returned None)
  | TickC :: signals' =>
      '(c, err) ← refresherRefresh c;
      match err with
      | Some e => mret (c, Returned (Some e))
      | None => refresherLoop signals' c
      end
  end.

(** Refresher is a blocking function that refreshes the JWKS in the
    background; it honors the ExitOnError config option; it exits when the
    context is canceled *)
Definition Refresher (signals : list Signal) (c : Client)
  : IO (Client * Outcome) :=
  '(c, err) ← refresherRefresh c;
  match err with
  | Some e => mret (c, Returned (Some e))
  | None => refresherLoop signals c
  end.

(** The ticks a loop receives before its context is cancelled. *)
Fixpoint ticksBeforeDone (signals : list Signal) : nat :=
  match signals with
  | TickC :: signals' => S (ticksBeforeDone signals')
  | _ => O
  end.

(** Whether the context is cancelled among the signals. *)
Definition cancelled (signals : list Signal) : bool :=
  existsb (fun s => match s with CtxDone => true | TickC => false end) signals.

(** What [parseMaxAge] makes of the value [maxAgeStr] that its loop has
    picked (the lines of [parseMaxAge] below the loop). *)
Definition durationOf (v : string) : Duration * bool * option error :=
  if String.eqb v EmptyString then (0, false, None)
  else match ParseDuration (v +:+ "s") with
       | Err err => (0, false, Some err)
       | Ok d => (d, true, None)
       end.

End RefresherDef.

(** ** package keyfiles: the listing of a directory of key files *)

(** [strings.HasSuffix] *)
Definition HasSuffix (s suffix : string) : bool :=
  (String.length suffix <=? String.length s)%nat
  && String.eqb (substring (String.length s - String.length suffix)
                           (String.length suffix) s) suffix.

(** The byte with the value [z mod 256]. *)
Definition byteOf (z : Z) : Byte.byte :=
  match Byte.of_N (Z.to_N (z mod 256)) with
  | Some b => b
  | None => Byte.x00
  end.

(** The [n] low bytes of [v], little endian: what [binary.Write] with
    [binary.LittleEndian] writes for a [uint64] or an [int64] when
    [n = 8]. *)
Fixpoint leBytes (n : nat) (v : Z) : list Byte.byte :=
  match n with
  | O => []
  | S n' => byteOf v :: leBytes n' (v / 256)
  end.

(** The value of little-endian bytes. *)
Fixpoint leValue (bs : list Byte.byte) : Z :=
  match bs with
  | [] => 0
  | b :: bs' => Z.of_N (Byte.to_N b) + 256 * leValue bs'
  end.

(** [binary.Write(buf, binary.LittleEndian, v)] for a 64-bit integer [v]
    and [buf.WriteString(s)], on a [bytes.Buffer]: the buffer grows by the
    bytes and the write does not fail. *)
Definition binaryWrite (buf : list Byte.byte) (v : Z) : result (list Byte.byte) :=
  Ok (buf ++ leBytes 8 v)%list.

Definition WriteString (buf : list Byte.byte) (s : string) : result (list Byte.byte) :=
  Ok (buf ++ list_byte_of_string s)%list.

(** [bytes.Equal]: a nil slice equals an empty one. *)
Fixpoint bytesEqual (a b : list Byte.byte) : bool :=
  match a, b with
  | [], [] => true
  | x :: a', y :: b' => Byte.eqb x y && bytesEqual a' b'
  | _, _ => false
  end.

(** Seconds from Go's zero time to the Unix epoch, and [Time.UnixMilli]. *)
Definition unixToInternal : Z := 62135596800.

Definition UnixMilli (t : Time) : Z :=
  wrap64 ((t / Second - unixToInternal) * 1000 + (t mod Second) / 1000000).

Record FileMetadata : Type := {
  Name : string;
  Size : Z;
  ModTime : Time
}.

(** [fs.FileInfo], as far as the package calls it. *)
Module FileInfo.
Record t : Type := {
  Name : string;
  Size : Z;
  ModTime : Time;
  IsDir : bool
}.
End FileInfo.

(** The file system at the time of a call: [os.ReadDir] gives the names of
    the entries of a directory, [os.Stat] follows symbolic links,
    [os.ReadFile] gives the content of a file. *)
Record FS : Type := {
  ReadDir : string -> result (list string);
  Stat : string -> result FileInfo.t;
  ReadFile : string -> result (list Byte.byte)
}.

(** What package [keyfiles] takes from its libraries. *)
Class KeyfilesExternals : Type := {
  (** the digest [murmur3.SeedNew128(1, 1)] gives with [Sum(nil)] for the
      bytes written to it *)
  Sum128 : list Byte.byte -> list Byte.byte;
  (** [filepath.Join] of a directory and a name *)
  Join : string -> string -> string;
  (** the method [Error()] of an error *)
  ErrorText : error -> string
}.

Class KeyfilesLaws `{KExt : KeyfilesExternals} : Prop := {
  (** a 128-bit digest has 16 bytes *)
  Sum128_length : forall bs, List.length (Sum128 bs) = 16%nat;
  (** [fmt.Errorf("context: %w", cause)] *)
  ErrorText_wrap : forall context cause,
    ErrorText (ErrWrap context cause) = context +:+ ": " +:+ ErrorText cause
}.

Section Keyfiles.
Context `{KExt : KeyfilesExternals}.

(** The bytes one iteration of the loop of [Hash] puts in [buf], for the
    file [m] at index [i]. *)
Definition hashRecord (i : Z) (m : FileMetadata) : result (list Byte.byte) :=
  let buf := [] in                                        (* buf.Reset() *)
  match binaryWrite buf (0xdeadbeef) with
  | Err err => Err (ErrWrap "write mark" err)
  | Ok buf =>
  match binaryWrite buf i with
  | Err err => Err (ErrWrap "write index" err)
  | Ok buf =>
  match binaryWrite buf (Size m) with
  | Err err => Err (ErrWrap "write size" err)
  | Ok buf =>
  match binaryWrite buf (UnixMilli (ModTime m)) with
  | Err err => Err (ErrWrap "write modtime" err)
  | Ok buf =>
  match WriteString buf (Name m) with
  | Err err => Err (ErrWrap "write name" err)
  | Ok buf => Ok buf
  end end end end end.

(** The loop of [Hash] from index [i] on; [written] are the bytes given
    to [hash.Write] so far. *)
Fixpoint hashLoop (i : Z) (f : list FileMetadata) (written : list Byte.byte)
  : result (list Byte.byte) :=
  match f with
  | [] => Ok written
  | m :: f' =>
      match hashRecord i m with
      | Err err => Err err
      | Ok buf => hashLoop (i + 1) f' (written ++ buf)%list  (* hash.Write(buf.Bytes()) *)
      end
  end.

Definition Hash (f : list FileMetadata) : list Byte.byte * option error :=
  match hashLoop 0 f [] with
  | Err err => ([], Some err)
  | Ok written => (Sum128 written, None)
  end.

Definition skipFile (fileInfo : FileInfo.t) : bool * string :=
  if FileInfo.IsDir fileInfo then (true, "directory")
  else if HasPrefix (FileInfo.Name fileInfo) "." then (true, "hidden file")
  else if HasSuffix (FileInfo.Name fileInfo) ".ignore" then (true, "ignored file")
  else (false, EmptyString).

(** The loop of [GetFileMetadata] over the entries still to visit. *)
Fixpoint getFileMetadataLoop (fs : FS) (dir : string) (dirEntries : list string)
    (files : list FileMetadata) (skipped : gmap string string)
  : list FileMetadata * gmap string string * option error :=
  match dirEntries with
  | [] => (files, skipped, None)
  | e :: dirEntries' =>
      match Stat fs (Join dir e) with
      | Err err =>
          (* return partial results *)
          (files, skipped, Some (ErrWrap "stat" err))
      | Ok info =>
          let '(skip, reason) := skipFile info in
          if skip then
            getFileMetadataLoop fs dir dirEntries' files (<[e := reason]> skipped)
          else
            getFileMetadataLoop fs dir dirEntries'
              (files ++ [{| Name := e; Size := FileInfo.Size info;
                            ModTime := FileInfo.ModTime info |}])%list
              skipped
      end
  end.

(** GetFileMetadata returns the metadata of all files in a directory; it
    skips directories, hidden and ignored files; if a symlink is
    encountered, the metadata of the target is returned *)
Definition GetFileMetadata (fs : FS) (dir : string)
  : list FileMetadata * gmap string string * option error :=
  match ReadDir fs dir with
  | Err err => ([], ∅, Some (ErrWrap "read dir" err))
  | Ok dirEntries => getFileMetadataLoop fs dir dirEntries [] ∅
  end.

Record WatcherEvent : Type := {
  Files : list FileMetadata;
  Skipped : gmap string string;
  Error : option error
}.

(** The variables [oldHash] and [oldErrStr] of [Watch]. *)
Record WatchState : Type := {
  oldHash : list Byte.byte;
  oldErrStr : string
}.

(** The closure [check] of [Watch]: the state it leaves and the event it
    sends, if it sends one.  The second [:=] assigns the error of [Hash] to
    the variable [err] that held the error of [GetFileMetadata]. *)
Definition check (fs : FS) (dir : string) (st : WatchState)
  : WatchState * option WatcherEvent :=
  let '(files, skipped, err) := GetFileMetadata fs dir in
  if match err with
     | Some e => String.eqb (ErrorText e) (oldErrStr st)
     | None => false
     end
  then (st, None)      (* have error, but it's the same as last time *)
  else
    let '(hash, err) := Hash files in
    if match err with
       | Some e => String.eqb (ErrorText e) (oldErrStr st)
       | None => false
       end
    then (st, None)    (* have error, but it's the same as last time *)
    else
      let st := {| oldHash := oldHash st; oldErrStr := EmptyString |} in
      let event := {| Files := files; Skipped := skipped; Error := err |} in
      match err with
      | Some e =>
          let st := {| oldHash := oldHash st; oldErrStr := ErrorText e |} in
          let st := {| oldHash := []; oldErrStr := oldErrStr st |} in
          let st := {| oldHash := hash; oldErrStr := oldErrStr st |} in
          (st, Some event)
      | None =>
          let st := {| oldHash := oldHash st; oldErrStr := EmptyString |} in
          if bytesEqual hash (oldHash st) then (st, None)      (* no changes *)
          else
            let st := {| oldHash := hash; oldErrStr := oldErrStr st |} in
            (st, Some event)
      end.

(** What a call of [Watch] has done when the signals are used up: the
    events it has sent on the channel, whether it has closed the channel,
    and how the call stands. *)
Record Watched : Type := {
  sentEvents : list WatcherEvent;
  closed : bool;
  outcome : Outcome
}.

(** The [for { select { ... } }] of [Watch]; [fsAt k] is the file system
    the [k]-th call of [check] sees, [sentSoFar] the events sent so far. *)
Fixpoint watchLoop (signals : list Signal) (fsAt : nat -> FS) (dir : string)
    (k : nat) (st : WatchState) (sentSoFar : list WatcherEvent) : Watched :=
  match signals with
  | [] => {| sentEvents := sentSoFar; closed := false; outcome := Waiting |}
  | CtxDone :: _ =>
      {| sentEvents := sentSoFar; closed := true; outcome := Returned None |}
  | TickC :: signals' =>
      let '(st, ev) := check (fsAt k) dir st in
      watchLoop signals' fsAt dir (S k) st
        (match ev with Some e => (sentSoFar ++ [e])%list | None => sentSoFar end)
  end.

Definition Watch (signals : list Signal) (fsAt : nat -> FS) (dir : string)
    (interval : Duration) : Watched :=
  if interval <=? 0 then
    {| sentEvents := []; closed := false;
       outcome := Returned (Some (ErrNew "watcher can not be started with interval <= 0")) |}
  else
    let st := {| oldHash := []; oldErrStr := EmptyString |} in
    let '(st, ev) := check (fsAt O) dir st in
    watchLoop signals fsAt dir 1 st
      (match ev with Some e => [e] | None => [] end).

End Keyfiles.

(** ** Vocabulary for the listing *)

(** The mark [uint64(0xdeadbeef)], little endian. *)
Definition markBytes : list Byte.byte :=
  [Byte.xef; Byte.xbe; Byte.xad; Byte.xde; Byte.x00; Byte.x00; Byte.x00; Byte.x00].

(** The bytes [Hash] digests: for the file at index [i], the mark, the
    index, the size, the modification time in milliseconds and the name. *)
Definition recordBytes (i : Z) (m : FileMetadata) : list Byte.byte :=
  (markBytes ++ leBytes 8 i ++ leBytes 8 (Size m)
   ++ leBytes 8 (UnixMilli (ModTime m)) ++ list_byte_of_string (Name m))%list.

Fixpoint hashInput (i : Z) (f : list FileMetadata) : list Byte.byte :=
  match f with
  | [] => []
  | m :: f' => (recordBytes i m ++ hashInput (i + 1) f')%list
  end.

(** What [Hash] can tell of a file. *)
Definition fileKey (m : FileMetadata) : string * Z * Z :=
  (Name m, Size m, UnixMilli (ModTime m)).

(** A file as a directory holds it: the size is an int64 and the name has
    no NUL byte. *)
Definition wellFormed (m : FileMetadata) : Prop :=
  MinInt64 <= Size m <= MaxInt64 /\
  Forall (fun b => b <> Byte.x00) (list_byte_of_string (Name m)).

(** What can follow a name in the bytes [Hash] digests: nothing, or the
    record of the next file. *)
Definition recordsOrNothing (R : list Byte.byte) : Prop :=
  R = [] \/ exists R0, R = (markBytes ++ R0)%list.

Section KeyfilesVocabulary.
Context `{KExt : KeyfilesExternals}.

(** What [GetFileMetadata] makes of one entry whose [Stat] succeeds: the
    file it returns for it, or the reason it skips it. *)
Definition returnedFor (fs : FS) (dir e : string) : option FileMetadata :=
  match Stat fs (Join dir e) with
  | Ok info =>
      if FileInfo.IsDir info || HasPrefix (FileInfo.Name info) "."
         || HasSuffix (FileInfo.Name info) ".ignore"
      then None
      else Some {| Name := e; Size := FileInfo.Size info;
                   ModTime := FileInfo.ModTime info |}
  | Err _ => None
  end.

Definition skippedFor (fs : FS) (dir e : string) : option string :=
  match Stat fs (Join dir e) with
  | Ok info =>
      if FileInfo.IsDir info then Some "directory"
      else if HasPrefix (FileInfo.Name info) "." then Some "hidden file"
      else if HasSuffix (FileInfo.Name info) ".ignore" then Some "ignored file"
      else None
  | Err _ => None
  end.

(** The digest of the listing that the [k]-th check of [Watch] sees. *)
Definition digestAt (fsAt : nat -> FS) (dir : string) (k : nat) : list Byte.byte :=
  Sum128 (hashInput 0 (fst (fst (GetFileMetadata (fsAt k) dir)))).

(** The event of the [k]-th check, when it sends one. *)
Definition eventAt (fsAt : nat -> FS) (dir : string) (k : nat) : WatcherEvent :=
  {| Files := fst (fst (GetFileMetadata (fsAt k) dir));
     Skipped := snd (fst (GetFileMetadata (fsAt k) dir));
     Error := None |}.

(** Whether the [k]-th check finds another digest than the check before. *)
Definition changedAt (fsAt : nat -> FS) (dir : string) (k : nat) : bool :=
  match k with
  | O => true
  | S k' => negb (bytesEqual (digestAt fsAt dir k) (digestAt fsAt dir k'))
  end.

End KeyfilesVocabulary.


(** ** package private: the loader of a directory of private keys *)

Module Private.

(** config.go of the package; the logger is left out. *)
Record Config : Type := {
  (* the directory to load the keys from *)
  Dir : string;
  (* set to 0 to disable watching *)
  WatchInterval : Duration;
  (* fail on error, actually return the error, otherwise just log it *)
  FailOnError : bool
}.

Definition NewConfig : Config :=
  {| Dir := "./keys"; WatchInterval := 1 * Second; FailOnError := false |}.

Definition Validate (c : Config) : option error :=
  if String.eqb (Dir c) EmptyString then Some (ErrNew "key-dir is required") else None.

Definition WatchOn (c : Config) : bool := 0 <? WatchInterval c.

(** What the package takes from its libraries. *)
Class KeyExternals : Type := {
  (** [jwk.Key] and [jwk.Set] *)
  Key : Type;
  KeySet : Type;
  (** [jwk.NewSet()] and [keySet.Add(key)]: the set after the call and
      whether the key was added *)
  NewSet : KeySet;
  SetAdd : KeySet -> Key -> KeySet * bool;
  (** [key.Set(name, value)]: the key after the call *)
  KeySetField : Key -> string -> string -> Key;
  (** [pem.Decode]: the type and the bytes of the first block, if any *)
  pemDecode : list Byte.byte -> option (string * list Byte.byte);
  (** [x509.ParseECPrivateKey] and [jwk.New] *)
  ECPrivateKey : Type;
  ParseECPrivateKey : list Byte.byte -> result ECPrivateKey;
  jwkNew : ECPrivateKey -> result Key;
  (** [strings.ToLower] *)
  ToLower : string -> string
}.

Definition KeyIDKey : string := "kid".
Definition KeyUsageKey : string := "use".
Definition ForSignature : string := "sig".

Section Loader.
Context `{KExt : KeyfilesExternals} `{KeyExt : KeyExternals}.

(** keys.go.  [x509.ParseECPrivateKey] returns a [*ecdsa.PrivateKey], so
    the type assertion of [LoadPrivateKey] holds. *)
Definition LoadPrivateKey (srcPrivateKey : list Byte.byte) : result Key :=
  match pemDecode srcPrivateKey with
  | None => Err (ErrNew "EC private key not in PEM format")
  | Some (pemType, pemBytes) =>
      if negb (String.eqb pemType "EC PRIVATE KEY") then
        Err (ErrNew ("EC private key PEM wrong format: " +:+ pemType))
      else
        match ParseECPrivateKey pemBytes with
        | Err err => Err (ErrWrap "parse EC private key" err)
        | Ok privateKey =>
            match jwkNew privateKey with
            | Err err => Err (ErrWrap "failed to create sign JWK" err)
            | Ok jwkPrivateKey => Ok jwkPrivateKey
            end
        end
  end.

Definition LoadPrivateKeyFromFile (fs : FS) (privateKeyFile : string) : result Key :=
  match ReadFile fs privateKeyFile with
  | Err err => Err (ErrWrap ("read private key file " +:+ privateKeyFile) err)
  | Ok pkBuf => LoadPrivateKey pkBuf
  end.

(** The key id of a file: its name, without the last five bytes when its
    lower case ends with [.priv] (a name has five bytes or more then, the
    five bytes of the suffix being the lower case of one byte or more
    each, so that the slice is in range). *)
Definition keyIdOf (name : string) : string :=
  if HasSuffix (ToLower name) ".priv"
  then substring 0 (String.length name - 5) name
  else name.

(** The loop of [loadKeys] over the files still to load. *)
Fixpoint loadKeysLoop (fs : FS) (dir : string) (fileMetadata : list FileMetadata)
    (keySet : KeySet) : result KeySet :=
  match fileMetadata with
  | [] => Ok keySet
  | f :: fileMetadata' =>
      let fullPath := Join dir (Name f) in
      match LoadPrivateKeyFromFile fs fullPath with
      | Err err => Err (ErrWrap ("loading key from " +:+ fullPath) err)
      | Ok key =>
          let keyId := keyIdOf (Name f) in
          let key := KeySetField key KeyIDKey keyId in
          let key := KeySetField key KeyUsageKey ForSignature in
          let '(keySet, added) := SetAdd keySet key in
          loadKeysLoop fs dir fileMetadata' keySet
      end
  end.

Definition loadKeys (fs : FS) (dir : string) : result KeySet :=
  let '(fileMetadata, skipped, err) := GetFileMetadata fs dir in
  match err with
  | Some err => Err (ErrWrap "getting file metadata" err)
  | None => loadKeysLoop fs dir fileMetadata NewSet
  end.

(** keyloader.go.  The context and the wait group are left out; of the
    callback the model keeps whether there is one, and the calls made to
    it. *)
Record Keyloader : Type := {
  config : Config;
  waitFirstFetch : bool;
  hasRefreshCallback : bool;
  (* the keys loaded from the directory *)
  keys : option KeySet;
  keysLoadTimestamp : Time
}.

Inductive Option : Type :=
| WithContext
| WithRefreshCallback
| WithWaitFirstFetch
| WithWaitGroup.

Definition applyOption (opt : Option) (kl : Keyloader) : Keyloader :=
  match opt with
  | WithRefreshCallback =>
      {| config := config kl; waitFirstFetch := waitFirstFetch kl;
         hasRefreshCallback := true; keys := keys kl;
         keysLoadTimestamp := keysLoadTimestamp kl |}
  | WithWaitFirstFetch =>
      {| config := config kl; waitFirstFetch := true;
         hasRefreshCallback := hasRefreshCallback kl; keys := keys kl;
         keysLoadTimestamp := keysLoadTimestamp kl |}
  | WithContext | WithWaitGroup => kl
  end.

Definition GetKeysLoadTime (kl : Keyloader) : Time := keysLoadTimestamp kl.

(** GetKeys returns a copy of the keys *)
Definition GetKeys (kl : Keyloader) : option KeySet * Time * option error :=
  match keys kl with
  | None => (None, zero, Some (ErrNew "keys not loaded"))
  | Some ks => (Some ks, keysLoadTimestamp kl, None)
  end.

(** LoadKeys loads the keys once; it honors the FailOnError config option.
    It returns the loader, the error and the key sets handed to the
    callback. *)
Definition LoadKeys (fs : FS) (kl : Keyloader)
  : IO (Keyloader * option error * list KeySet) :=
  match loadKeys fs (Dir (config kl)) with
  | Err err =>
      if FailOnError (config kl) then mret (kl, Some err, [])
      else mret (kl, None, [])      (* leave the old keys *)
  | Ok ks =>
      now ← timeNow;
      let kl' := {| config := config kl; waitFirstFetch := waitFirstFetch kl;
                    hasRefreshCallback := hasRefreshCallback kl;
                    keys := Some ks; keysLoadTimestamp := now |} in
      mret (kl', None, if hasRefreshCallback kl then [ks] else [])
  end.

(** How the loop [for event := range watcher.Events] of [LoadKeysWatch]
    stands: left, with the value of [retErr], or waiting for the next
    event. *)
Inductive Range : Type :=
| LoopLeft (retErr : option error)
| Receiving.

(** The loop of [LoadKeysWatch] over the events the watcher has sent;
    [chanClosed] tells whether the watcher has closed the channel after
    them, [fsAt k] is the file system the [k]-th call of [LoadKeys] sees.
    It returns the loader, how the loop stands and the key sets handed to
    the callback. *)
Fixpoint loadKeysWatchLoop (events : list WatcherEvent) (chanClosed : bool)
    (fsAt : nat -> FS) (k : nat) (kl : Keyloader)
  : IO (Keyloader * Range * list KeySet) :=
  match events with
  | [] => mret (kl, if chanClosed then LoopLeft None else Receiving, [])
  | event :: events' =>
      match Error event with
      | Some e =>
          if FailOnError (config kl) then mret (kl, LoopLeft (Some e), [])  (* break *)
          else loadKeysWatchLoop events' chanClosed fsAt k kl             (* continue *)
      | None =>
          '(kl, err, called) ← LoadKeys (fsAt k) kl;
          match err with
          | Some e => mret (kl, LoopLeft (Some e), called)                (* break *)
          | None =>
              let called' :=
                if hasRefreshCallback kl then
                  match GetKeys kl with
                  | (Some ks, _, None) => [ks]
                  | _ => []                                               (* continue *)
                  end
                else [] in
              '(kl, range, later) ← loadKeysWatchLoop events' chanClosed fsAt (S k) kl;
              mret (kl, range, (called ++ called' ++ later)%list)
          end
      end
  end.

(** NewKeyloader up to the start of the watching goroutine. *)
Definition NewKeyloader (fs : FS) (config : Config) (opts : list Option)
  : IO (result Keyloader) :=
  match Validate config with
  | Some err => mret (Err err)
  | None =>
      let kl := {| config := config; waitFirstFetch := false;
                   hasRefreshCallback := false; keys := None;
                   keysLoadTimestamp := zero |} in
      let kl := fold_left (fun kl opt => applyOption opt kl) opts kl in
      if waitFirstFetch kl then
        '(kl, err, _) ← LoadKeys fs kl;
        match err with
        | Some err => mret (Err err)
        | None => mret (Ok kl)
        end
      else mret (Ok kl)
  end.

(** The loader after calls of [LoadKeys], one on each of the file systems
    [fss] in turn, whatever each call returns. *)
Fixpoint loadedFrom (fss : list FS) (kl : Keyloader) : IO Keyloader :=
  match fss with
  | [] => mret kl
  | fs :: fss' =>
      '(kl, _, _) ← LoadKeys fs kl;
      loadedFrom fss' kl
  end.

(** The key set of the last of the file systems [fss] whose keys load. *)
Fixpoint lastLoaded (dir : string) (fss : list FS) : option KeySet :=
  match fss with
  | [] => None
  | fs :: fss' =>
      match lastLoaded dir fss' with
      | Some ks => Some ks
      | None =>
          match loadKeys fs dir with
          | Ok ks => Some ks
          | Err _ => None
          end
      end
  end.

(** The file of a listing loads. *)
Definition loads (fs : FS) (dir : string) (f : FileMetadata) : Prop :=
  exists key, LoadPrivateKeyFromFile fs (Join dir (Name f)) = Ok key.

End Loader.

End Private.

(** ** Test doubles and examples for the directory packages *)

Module KeyfilesDouble.

(** A digest of 16 bytes: a polynomial of the bytes and their number. *)
Definition sum128 (bs : list Byte.byte) : list Byte.byte :=
  (leBytes 8 (fold_left (fun acc b => acc * 31 + Z.of_N (Byte.to_N b)) bs 7)
   ++ leBytes 8 (Z.of_nat (List.length bs)))%list.

Definition join (dir name : string) : string := dir +:+ "/" +:+ name.

Fixpoint errorText (e : error) : string :=
  match e with
  | ErrKeysNotFetched => "keys not fetched"
  | ErrExternal msg => msg
  | ErrNew msg => msg
  | ErrWrap context cause => context +:+ ": " +:+ errorText cause
  | ErrUnexpectedStatus _ => "unexpected HTTP status code"
  | ErrNegativeAge _ _ _ => "negative age"
  end.

#[export] Instance keyfilesExternals : KeyfilesExternals := {|
  Sum128 := sum128;
  Join := join;
  ErrorText := errorText
|}.

Definition lowerAscii (ch : ascii) : ascii :=
  let n := nat_of_ascii ch in
  if ((65 <=? n) && (n <=? 90))%nat then ascii_of_nat (n + 32) else ch.

Fixpoint toLower (s : string) : string :=
  match s with
  | EmptyString => EmptyString
  | String ch rest => String (lowerAscii ch) (toLower rest)
  end.

(** A stand-in for PEM: a first byte [-] opens an EC PRIVATE KEY block, a
    first byte [+] a PRIVATE KEY block; an EC key is any byte string that
    is not empty; a key is the list of its fields. *)
Definition pemDecode (src : list Byte.byte) : option (string * list Byte.byte) :=
  match src with
  | Byte.x2d :: rest => Some ("EC PRIVATE KEY", rest)
  | Byte.x2b :: rest => Some ("PRIVATE KEY", rest)
  | _ => None
  end.

Definition parseECPrivateKey (der : list Byte.byte) : result (list Byte.byte) :=
  match der with
  | [] => Err (ErrExternal "x509: failed to parse EC private key")
  | _ => Ok der
  end.

Definition keySetField (key : list (string * string)) (name value : string)
  : list (string * string) :=
  (filter (fun p => negb (String.eqb (fst p) name)) key ++ [(name, value)])%list.

#[export] Instance keyExternals : Private.KeyExternals := {|
  Private.Key := list (string * string);
  Private.KeySet := list (list (string * string));
  Private.NewSet := [];
  Private.SetAdd := fun keySet key => ((keySet ++ [key])%list, true);
  Private.KeySetField := keySetField;
  Private.pemDecode := pemDecode;
  Private.ECPrivateKey := list Byte.byte;
  Private.ParseECPrivateKey := parseECPrivateKey;
  Private.jwkNew := fun der => Ok [("d", string_of_list_byte der)];
  Private.ToLower := toLower
|}.

End KeyfilesDouble.

Module MoreExamples.
Import TestDouble Examples KeyfilesDouble.

Definition notFoundResponse : Response :=
  {| StatusCode := 404; RespHeader := ∅; Body := Ok (bytesOf "not found") |}.

(** An endpoint that answers 404. *)
Definition notFound : World := world t2024 Second [Ok notFoundResponse].

(** A good fetch some time after that of [outage]. *)
Definition recovered : World := world (t2024 + 10 * Second) Second [okResponse maxAge120].

Definition withExitOnError (c : Config) : Config :=
  {| URL := URL c; CacheMin := CacheMin c; CacheMax := CacheMax c;
     CacheErrors := CacheErrors c; ExitOnError := true;
     KeepStaleKeys := KeepStaleKeys c |}.

Definition noURL : Config :=
  {| URL := EmptyString; CacheMin := Minute; CacheMax := Hour;
     CacheErrors := 30 * Second; ExitOnError := false;
     KeepStaleKeys := 5 * Minute |}.

Definition mixed : Header :=
  headers [("Cache-Control", "s-maxage=300, max-age=120, max-age=60")].

Definition emptyMaxAge : Header :=
  headers [("Cache-Control", "s-maxage=300, max-age=")].

Definition sMaxAge : Header :=
  headers [("Cache-Control", "s-maxage=300, public, s-maxage=600")].

Definition noMaxAge : Header := headers [("Cache-Control", "public, no-transform")].

Definition expiring : Header := headers [("Expires", "Mon, 01 Jan 2024 00:10:00 GMT")].

Definition negative : Header := headers [("Cache-Control", "max-age=-120")].

(** A file system with one directory: its listing (or the error of reading
    it), what [Stat] reports of the paths, and the contents of the
    files. *)
Definition noSuchFile : error := ErrExternal "no such file or directory".

Fixpoint lookupPath {A : Type} (p : string) (l : list (string * A)) : result A :=
  match l with
  | [] => Err noSuchFile
  | (q, a) :: l' => if String.eqb p q then Ok a else lookupPath p l'
  end.

Definition fsOf (dir : string) (listing : result (list string))
    (stats : list (string * FileInfo.t))
    (contents : list (string * list Byte.byte)) : FS :=
  {| ReadDir := fun d => if String.eqb d dir then listing else Err noSuchFile;
     Stat := fun p => lookupPath p stats;
     ReadFile := fun p => lookupPath p contents |}.

Definition file (name : string) (size : Z) (modTime : Time) : FileInfo.t :=
  {| FileInfo.Name := name; FileInfo.Size := size;
     FileInfo.ModTime := modTime; FileInfo.IsDir := false |}.

Definition directory (name : string) : FileInfo.t :=
  {| FileInfo.Name := name; FileInfo.Size := 4096;
     FileInfo.ModTime := t2024; FileInfo.IsDir := true |}.

Definition keysStats : list (string * FileInfo.t) :=
  [("keys/a.priv", file "a.priv" 227 t2024);
   ("keys/.hidden", file ".hidden" 10 t2024);
   ("keys/old", directory "old");
   ("keys/b.priv.ignore", file "b.priv.ignore" 227 t2024);
   ("keys/C.PRIV", file "C.PRIV" 227 (t2024 + Hour))].

Definition keysListing : list string :=
  ["a.priv"; ".hidden"; "old"; "b.priv.ignore"; "C.PRIV"].

(** A directory of two keys and three entries to skip. *)
Definition keysDir : FS :=
  fsOf "keys" (Ok keysListing) keysStats
    [("keys/a.priv", bytesOf "-key a"); ("keys/C.PRIV", bytesOf "-key c")].

(** The same directory when the second key is not in PEM format. *)
Definition badKeyDir : FS :=
  fsOf "keys" (Ok keysListing) keysStats
    [("keys/a.priv", bytesOf "-key a"); ("keys/C.PRIV", bytesOf "key c")].

(** The same directory when its last entry has gone between the listing and
    the call of [Stat]. *)
Definition racingDir : FS :=
  fsOf "keys" (Ok keysListing) (removelast keysStats) [("keys/a.priv", bytesOf "-key a")].

(** No directory. *)
Definition missingDir : FS := fsOf "keys" (Err noSuchFile) [] [].

Definition fileA : FileMetadata := {| Name := "a.priv"; Size := 227; ModTime := t2024 |}.
Definition fileC : FileMetadata := {| Name := "C.PRIV"; Size := 227; ModTime := t2024 + Hour |}.

(** [fileA] touched less than a millisecond later. *)
Definition fileA' : FileMetadata :=
  {| Name := "a.priv"; Size := 227; ModTime := t2024 + 999999 |}.

(** The directory is [keysDir] at the first two checks and has lost a key
    from the third check on. *)
Definition keyRemoved : nat -> FS :=
  fun k => if (k <? 2)%nat then keysDir
           else fsOf "keys" (Ok (removelast keysListing)) keysStats [].

Definition loaderConfig (watchInterval : Duration) (failOnError : bool) : Private.Config :=
  {| Private.Dir := "keys"; Private.WatchInterval := watchInterval;
     Private.FailOnError := failOnError |}.

Definition loader (config : Private.Config) (callback : bool) : Private.Keyloader :=
  {| Private.config := config; Private.waitFirstFetch := false;
     Private.hasRefreshCallback := callback; Private.keys := None;
     Private.keysLoadTimestamp := zero |}.

(** The key set of [keysDir]. *)
Definition keysOfDir : list (list (string * string)) :=
  [[("d", "key a"); ("kid", "a"); ("use", "sig")];
   [("d", "key c"); ("kid", "C"); ("use", "sig")]].

End MoreExamples.

(** * Properties *)

Section Properties.
Context `{Ext : Externals} `{Laws : !ExternalsLaws}.

Ltac io_unfold :=
  unfold mbind, mret, IO_bind, IO_ret, timeNow, httpClientGet in *.

(** ** How the methods use the world *)

Lemma get_world c w : snd (get c w) = sent w.
Proof.
  unfold get. io_unfold.
  destruct (roundTrip w (requests w) (URL (config c))) as [resp|e]; [|reflexivity].
  destruct (Body resp) as [body|e]; [|reflexivity].
  destruct (negb (StatusCode resp =? StatusOK)); [reflexivity|].
  destruct (Unmarshal body); reflexivity.
Qed.

Lemma get_cases c w :
  (exists ks body h, fst (get c w) = (Some ks, body, h, None)) \/
  (exists body h e, fst (get c w) = (None, body, h, Some e) /\ e <> ErrKeysNotFetched).
Proof.
  unfold get. io_unfold.
  destruct (roundTrip w (requests w) (URL (config c))) as [resp|e]; simpl.
  2:{ right. eexists _, _, _. split; [reflexivity|discriminate]. }
  destruct (Body resp) as [body|e]; simpl.
  2:{ right. eexists _, _, _. split; [reflexivity|discriminate]. }
  destruct (negb (StatusCode resp =? StatusOK)); simpl.
  { right. eexists _, _, _. split; [reflexivity|discriminate]. }
  destruct (Unmarshal body); simpl.
  - left. eexists _, _, _. reflexivity.
  - right. eexists _, _, _. split; [reflexivity|discriminate].
Qed.

(** When [get] succeeds, and the four ways it fails. *)
Lemma get_succeeds_iff c w ks body h :
  fst (get c w) = (Some ks, body, h, None) <->
  exists resp,
    roundTrip w (requests w) (URL (config c)) = Ok resp /\
    Body resp = Ok body /\ StatusCode resp = StatusOK /\
    Unmarshal body = Ok ks /\ RespHeader resp = h.
Proof.
  unfold get. io_unfold.
  destruct (roundTrip w (requests w) (URL (config c))) as [resp|e]; simpl.
  2:{ split; [discriminate | intros (r & [=] & _)]. }
  destruct (Body resp) as [b|e] eqn:Hb; simpl.
  2:{ split; [discriminate | intros (r & [= <-] & Hb' & _); congruence]. }
  destruct (StatusCode resp =? StatusOK) eqn:Hs; simpl.
  2:{ split; [discriminate|]. intros (r & [= <-] & _ & Hs' & _).
      rewrite Hs' in Hs. discriminate. }
  apply Z.eqb_eq in Hs.
  destruct (Unmarshal b) as [k|e] eqn:Hu; simpl.
  - split.
    + intros [= <- <- <-]. exists resp. repeat split; assumption.
    + intros (r & [= <-] & Hb' & _ & Hu' & <-).
      rewrite Hb in Hb'. injection Hb' as <-. rewrite Hu in Hu'. injection Hu' as <-.
      reflexivity.
  - split; [discriminate|].
    intros (r & [= <-] & Hb' & _ & Hu' & _).
    rewrite Hb in Hb'. injection Hb' as <-. congruence.
Qed.

Lemma get_fails_iff c w e :
  snd (fst (get c w)) = Some e <->
  (exists err, roundTrip w (requests w) (URL (config c)) = Err err /\
     e = ErrWrap "performing request" err) \/
  (exists resp, roundTrip w (requests w) (URL (config c)) = Ok resp /\
     ((exists err, Body resp = Err err /\ e = ErrWrap "reading response body" err) \/
      (exists body, Body resp = Ok body /\
         ((StatusCode resp <> StatusOK /\ e = ErrUnexpectedStatus (StatusCode resp)) \/
          (StatusCode resp = StatusOK /\
           exists err, Unmarshal body = Err err /\
                       e = ErrWrap "unmarshalling JSON" err))))).
Proof.
  unfold get. io_unfold.
  destruct (roundTrip w (requests w) (URL (config c))) as [resp|e0]; simpl.
  2:{ split.
      - intros [= <-]. left. eauto.
      - intros [(err & [= <-] & ->)|(r & [=] & _)]. reflexivity. }
  destruct (Body resp) as [b|e0] eqn:Hb; simpl.
  2:{ split.
      - intros [= <-]. right. exists resp. split; [reflexivity|]. left. eauto.
      - intros [(err & [=] & _)|(r & [= <-] & [(err & Hb' & ->)|(b & Hb' & _)])];
          congruence. }
  destruct (StatusCode resp =? StatusOK) eqn:Hs; simpl.
  2:{ apply Z.eqb_neq in Hs. split.
      - intros [= <-]. right. exists resp. split; [reflexivity|]. right.
        exists b. split; [assumption|]. left. split; [assumption | reflexivity].
      - intros [(err & [=] & _)|(r & [= <-] & [(err & Hb' & _)|(b' & Hb' & Hk)])];
          [congruence|].
        destruct Hk as [[_ ->]|[Hs' _]]; [reflexivity | contradiction]. }
  apply Z.eqb_eq in Hs.
  destruct (Unmarshal b) as [k|e0] eqn:Hu; simpl.
  - split; [discriminate|].
    intros [(err & [=] & _)|(r & [= <-] & [(err & Hb' & _)|(b' & Hb' & Hk)])];
      [congruence|].
    rewrite Hb in Hb'. injection Hb' as <-.
    destruct Hk as [[Hs' _]|[_ (err & Hu' & _)]]; [contradiction | congruence].
  - split.
    + intros [= <-]. right. exists resp. split; [reflexivity|]. right.
      exists b. split; [assumption|]. right. split; [assumption|]. eauto.
    + intros [(err & [=] & _)|(r & [= <-] & [(err & Hb' & _)|(b' & Hb' & Hk)])];
        [congruence|].
      rewrite Hb in Hb'. injection Hb' as <-.
      destruct Hk as [[Hs' _]|[_ (err & Hu' & ->)]]; [contradiction|].
      rewrite Hu in Hu'. injection Hu' as <-. reflexivity.
Qed.

Lemma updateExpiresAfter_world h err c w :
  snd (updateExpiresAfter h err c w) = tick w.
Proof.
  unfold updateExpiresAfter. io_unfold.
  destruct err as [e|].
  - destruct (0 <? CacheErrors (config c)); reflexivity.
  - destruct (expiresAfter (clock w (reads w)) h) as [E [e|]]; reflexivity.
Qed.

Lemma updateExpiresAfter_failed h e c w :
  fst (updateExpiresAfter h (Some e) c w) =
    if 0 <? CacheErrors (config c)
    then set_cacheExpiresAfter (currentTime w + CacheErrors (config c)) c
    else c.
Proof.
  unfold updateExpiresAfter. io_unfold.
  destruct (0 <? CacheErrors (config c)); reflexivity.
Qed.

Lemma updateExpiresAfter_headers_ok h E c w :
  expiresAfter (currentTime w) h = (E, None) ->
  fst (updateExpiresAfter h None c w) =
    set_cacheExpiresAfter
      (spec_clamp E (currentTime w + CacheMin (config c))
                    (currentTime w + CacheMax (config c))) c.
Proof.
  intros HE. unfold updateExpiresAfter. io_unfold. unfold currentTime in HE.
  rewrite HE. reflexivity.
Qed.

Lemma updateExpiresAfter_headers_bad h E e c w :
  expiresAfter (currentTime w) h = (E, Some e) ->
  fst (updateExpiresAfter h None c w) =
    set_cacheExpiresAfter (currentTime w + CacheMin (config c)) c.
Proof.
  intros HE. unfold updateExpiresAfter. io_unfold. unfold currentTime in HE.
  rewrite HE. reflexivity.
Qed.

Lemma refreshAttempt_eq c w :
  refreshAttempt c w =
    let '(ks, resp, headers, err) := fst (get c w) in
    let stamp := bool_decide (err ≠ None) && IsZero (keysStaleSince c) in
    let c1 := if stamp then set_keysStaleSince (currentTime w) c else c in
    let w2 := if stamp then tick (sent w) else sent w in
    let c2 := set_cachedError err (set_cachedResponse resp (set_cachedHeaders headers c1)) in
    let c3 := if bool_decide (err = None)
              then set_cachedJWKSet ks (set_keysStaleSince zero c2) else c2 in
    (fst (updateExpiresAfter headers err c3 w2), (true, err), tick w2).
Proof.
  unfold refreshAttempt. unfold mbind at 1, IO_bind at 1.
  pose proof (get_world c w) as Hw.
  destruct (get c w) as [[[[ks resp] headers] err] w1]. simpl in Hw. subst w1. simpl.
  destruct (bool_decide (err ≠ None) && IsZero (keysStaleSince c));
    unfold mbind, IO_bind, currentTime; simpl;
    match goal with |- context [updateExpiresAfter ?h ?e ?c ?w] =>
      pose proof (updateExpiresAfter_world h e c w) as Hu;
      destruct (updateExpiresAfter h e c w) as [c' w'] end;
    simpl in Hu; subst; reflexivity.
Qed.

Lemma Refresh_fresh force c w :
  runs force c w = false -> Refresh force c w = (c, (false, None), tick w).
Proof.
  unfold runs. intros H. apply orb_false_elim in H as [-> H].
  unfold Refresh. io_unfold. simpl. unfold currentTime in H. rewrite H. reflexivity.
Qed.

Lemma Refresh_runs force c w :
  runs force c w = true -> Refresh force c w = refreshAttempt c (afterGuard force w).
Proof.
  unfold runs, Refresh, afterGuard. io_unfold. destruct force; simpl; [reflexivity|].
  unfold currentTime. intros ->. reflexivity.
Qed.

Lemma returned_runs force c w :
  runs force c w = true -> returned force c w = (true, snd (fetchOf force c w)).
Proof.
  intros H. unfold returned, fetchOf. rewrite (Refresh_runs _ _ _ H), refreshAttempt_eq.
  destruct (fst (get c (afterGuard force w))) as [[[ks resp] h] err]. reflexivity.
Qed.

Lemma worldAfter_requests force c w :
  requests (worldAfter force c w) =
    if runs force c w then S (requests w) else requests w.
Proof.
  unfold worldAfter. destruct (runs force c w) eqn:H.
  - rewrite (Refresh_runs _ _ _ H), refreshAttempt_eq.
    destruct (fst (get c (afterGuard force w))) as [[[ks resp] h] err]. simpl.
    destruct (bool_decide (err ≠ None) && IsZero (keysStaleSince c)); simpl;
      unfold afterGuard; destruct force; reflexivity.
  - rewrite (Refresh_fresh _ _ _ H). reflexivity.
Qed.

Lemma clientAfter_failed force c w ks body h e :
  runs force c w = true ->
  fetchOf force c w = (ks, body, h, Some e) ->
  clientAfter force c w =
    let c1 := if IsZero (keysStaleSince c)
              then set_keysStaleSince (attemptTime force w) c else c in
    let c2 := set_cachedError (Some e)
                (set_cachedResponse body (set_cachedHeaders h c1)) in
    if 0 <? CacheErrors (config c)
    then set_cacheExpiresAfter (updateTime force c w + CacheErrors (config c)) c2
    else c2.
Proof.
  intros H Hf. unfold clientAfter, updateTime, attemptTime. rewrite Hf.
  unfold fetchOf in Hf.
  rewrite (Refresh_runs _ _ _ H), refreshAttempt_eq, Hf. simpl.
  rewrite updateExpiresAfter_failed.
  destruct (IsZero (keysStaleSince c)); reflexivity.
Qed.

Lemma clientAfter_fetched force c w ks body h :
  runs force c w = true ->
  fetchOf force c w = (ks, body, h, None) ->
  updateTime force c w = attemptTime force w /\
  clientAfter force c w =
    let c3 := set_cachedJWKSet ks (set_keysStaleSince zero
                (set_cachedError None
                   (set_cachedResponse body (set_cachedHeaders h c)))) in
    set_cacheExpiresAfter
      (match expiresAfter (attemptTime force w) h with
       | (_, Some _) => attemptTime force w + CacheMin (config c)
       | (E, None) =>
           spec_clamp E (attemptTime force w + CacheMin (config c))
                        (attemptTime force w + CacheMax (config c))
       end) c3.
Proof.
  intros H Hf. unfold clientAfter, updateTime, attemptTime. rewrite Hf.
  unfold fetchOf in Hf.
  rewrite (Refresh_runs _ _ _ H), refreshAttempt_eq, Hf. simpl.
  split; [reflexivity|].
  destruct (expiresAfter (currentTime (afterGuard force w)) h) as [E [e|]] eqn:HE.
  - erewrite updateExpiresAfter_headers_bad by exact HE. reflexivity.
  - erewrite updateExpiresAfter_headers_ok by exact HE. reflexivity.
Qed.

Lemma spec_clamp_max_min E lo hi : spec_clamp E lo hi = Z.max lo (Z.min E hi).
Proof.
  unfold spec_clamp.
  destruct (hi <? E) eqn:H1; [apply Z.ltb_lt in H1 | apply Z.ltb_ge in H1].
  - destruct (hi <? lo) eqn:H2; [apply Z.ltb_lt in H2 | apply Z.ltb_ge in H2]; lia.
  - destruct (E <? lo) eqn:H2; [apply Z.ltb_lt in H2 | apply Z.ltb_ge in H2]; lia.
Qed.

Lemma installed_expiry_clamped force c w ks body h E :
  runs force c w = true ->
  fetchOf force c w = (ks, body, h, None) ->
  expiresAfter (updateTime force c w) h = (E, None) ->
  cacheExpiresAfter (clientAfter force c w) =
    spec_clamp E (updateTime force c w + CacheMin (config c))
                 (updateTime force c w + CacheMax (config c)).
Proof.
  intros H Hg HE.
  destruct (clientAfter_fetched _ _ _ _ _ _ H Hg) as [Hnow Hc].
  rewrite Hc. simpl. rewrite Hnow in *. rewrite HE. reflexivity.
Qed.

Lemma DurationSub_exact a b :
  MinInt64 <= a - b <= MaxInt64 -> DurationSub a b = a - b.
Proof.
  unfold DurationSub, wrap64, MinInt64, MaxInt64. intros H.
  rewrite Z.mod_small by lia. lia.
Qed.

Lemma parseMaxAge_int64 h N b e :
  parseMaxAge h = (N, b, e) -> MinInt64 <= N <= MaxInt64.
Proof.
  unfold parseMaxAge.
  destruct (String.eqb _ _); [intros [= <- _ _]; unfold MinInt64, MaxInt64; lia|].
  destruct (String.eqb _ _); [intros [= <- _ _]; unfold MinInt64, MaxInt64; lia|].
  destruct (ParseDuration _) as [d|err] eqn:Hp.
  - intros [= <- _ _]. exact (ParseDuration_int64 _ _ Hp).
  - intros [= <- _ _]. unfold MinInt64, MaxInt64; lia.
Qed.

Lemma parseAge_int64 h M b e :
  parseAge h = (M, b, e) -> MinInt64 <= M <= MaxInt64.
Proof.
  unfold parseAge.
  destruct (String.eqb _ _); [intros [= <- _ _]; unfold MinInt64, MaxInt64; lia|].
  destruct (ParseDuration _) as [d|err] eqn:Hp.
  - intros [= <- _ _]. exact (ParseDuration_int64 _ _ Hp).
  - intros [= <- _ _]. unfold MinInt64, MaxInt64; lia.
Qed.

Lemma parseAge_absent h :
  Get h headerNameAge = EmptyString -> parseAge h = (0, false, None).
Proof. unfold parseAge. intros ->. reflexivity. Qed.

(** The ways the header calculation fails. *)
Lemma expiresAfter_fails now h :
  (exists E e, expiresAfter now h = (E, Some e)) <->
  (exists N b e, parseMaxAge h = (N, b, Some e)) \/
  (exists N, parseMaxAge h = (N, true, None) /\
     ((exists M b e, parseAge h = (M, b, Some e)) \/
      (exists M, parseAge h = (M, true, None) /\ DurationSub N M < 0))) \/
  (exists N, parseMaxAge h = (N, false, None) /\
     ((exists T b e, parseExpires h = (T, b, Some e)) \/
      (exists T, parseExpires h = (T, false, None)))).
Proof.
  unfold expiresAfter.
  destruct (parseMaxAge h) as [[N [|]] [e|]].
  - split; [intros _; left; eauto | intros _; eauto].
  - split.
    + intros (E & e & He). right; left. exists N. split; [reflexivity|].
      destruct (parseAge h) as [[M [|]] [e'|]]; [left; eauto | | left; eauto | discriminate].
      right. exists M. split; [reflexivity|].
      destruct (DurationSub N M <? 0) eqn:Hneg; [apply Z.ltb_lt in Hneg; exact Hneg|discriminate].
    + intros [(N' & b & e & [=])|[(N' & [= <-] & Hage)|(N' & [=] & _)]].
      destruct Hage as [(M & b & e & ->)|(M & -> & Hneg)]; [destruct b; eauto|].
      apply Z.ltb_lt in Hneg. rewrite Hneg. eauto.
  - split; [intros _; left; eauto | intros _; eauto].
  - split.
    + intros (E & e & He). right; right. exists N. split; [reflexivity|].
      destruct (parseExpires h) as [[T [|]] [e'|]]; [left; eauto | discriminate | left; eauto | right; eauto].
    + intros [(N' & b & e & [=])|[(N' & [=] & _)|(N' & _ & Hexp)]].
      destruct Hexp as [(T & b & e & ->)|(T & ->)]; [destruct b|]; eauto.
Qed.

Lemma negative_age_fails now h N M :
  parseMaxAge h = (N, true, None) ->
  parseAge h = (M, true, None) ->
  0 <= N < M ->
  expiresAfter now h = (zero, Some (ErrNegativeAge N M (N - M))).
Proof.
  intros HN HM Hlt. unfold expiresAfter. rewrite HN, HM.
  pose proof (parseAge_int64 _ _ _ _ HM) as HMr.
  rewrite DurationSub_exact by (unfold MinInt64, MaxInt64 in *; lia).
  destruct (N - M <? 0) eqn:Hneg; [reflexivity|]. apply Z.ltb_ge in Hneg. lia.
Qed.

Lemma no_cache_headers_fails now h :
  Get h "Cache-Control" = EmptyString ->
  Get h headerNameExpires = EmptyString ->
  expiresAfter now h = (zero, Some (ErrNew "cache headers not present")).
Proof.
  intros Hcc Hex. unfold expiresAfter, parseMaxAge, parseExpires.
  rewrite Hcc, Hex. reflexivity.
Qed.

Lemma config_clientAfter force c w : config (clientAfter force c w) = config c.
Proof.
  destruct (runs force c w) eqn:H.
  - destruct (fetchOf force c w) as [[[ks body] h] [e|]] eqn:Hg.
    + rewrite (clientAfter_failed _ _ _ _ _ _ _ H Hg). simpl.
      destruct (0 <? CacheErrors (config c)), (IsZero (keysStaleSince c)); reflexivity.
    + destruct (clientAfter_fetched _ _ _ _ _ _ H Hg) as [_ ->]. reflexivity.
  - unfold clientAfter. rewrite (Refresh_fresh _ _ _ H). reflexivity.
Qed.

Lemma worldAfter_clock force c w : clock (worldAfter force c w) = clock w.
Proof.
  unfold worldAfter. destruct (runs force c w) eqn:H.
  - rewrite (Refresh_runs _ _ _ H), refreshAttempt_eq.
    destruct (fst (get c (afterGuard force w))) as [[[ks resp] h] err]. simpl.
    destruct (bool_decide (err ≠ None) && IsZero (keysStaleSince c)); simpl;
      unfold afterGuard; destruct force; reflexivity.
  - rewrite (Refresh_fresh _ _ _ H). reflexivity.
Qed.

Lemma frozen_currentTime t w :
  (forall k, clock w k = t) -> currentTime w = t.
Proof. intros Hc. apply Hc. Qed.

Lemma frozen_updateTime t force c w :
  (forall k, clock w k = t) -> updateTime force c w = t.
Proof.
  intros Hc. unfold updateTime, currentTime, afterGuard.
  destruct (_ && _), force; simpl; apply Hc.
Qed.

Lemma spec_clamp_floor E lo hi : lo <= spec_clamp E lo hi.
Proof. rewrite spec_clamp_max_min. lia. Qed.

Lemma GetKeySet_eq c w :
  fst (GetKeySet c w) =
    match cachedError c, cachedJWKSet c with
    | Some e, Some ks =>
        if Before (Add (keysStaleSince c) (KeepStaleKeys (config c))) (currentTime w)
        then (None, Some e) else (Some ks, None)
    | Some e, None => (None, Some e)
    | None, Some ks => (Some ks, None)
    | None, None => (None, Some ErrKeysNotFetched)
    end.
Proof.
  unfold GetKeySet, currentTime. io_unfold.
  destruct (cachedError c) as [e|], (cachedJWKSet c) as [ks|]; simpl.
  - destruct (Before _ _); reflexivity.
  - rewrite orb_true_r. reflexivity.
  - reflexivity.
  - reflexivity.
Qed.

Lemma GetKeySet_world c w :
  snd (GetKeySet c w) = if bool_decide (cachedError c ≠ None) then tick w else w.
Proof.
  unfold GetKeySet. io_unfold.
  destruct (cachedError c) as [e|], (cachedJWKSet c) as [ks|]; simpl;
    try reflexivity.
  - destruct (Before _ _); reflexivity.
  - rewrite orb_true_r. reflexivity.
Qed.

Lemma New_client cfg c :
  New cfg = Ok c ->
  cachedError c = None /\ cachedJWKSet c = None /\ keysStaleSince c = zero /\
  cacheExpiresAfter c = zero /\ config c = cfg.
Proof.
  unfold New. destruct (Validate cfg); [discriminate|].
  intros [= <-]. simpl. repeat split; reflexivity.
Qed.

(** What a call of [Refresh] does to the fields the accessor reads. *)
Lemma clientAfter_cases force c w :
  (runs force c w = false /\ attemptOf force c w = None /\
   clientAfter force c w = c) \/
  (exists ks, runs force c w = true /\
     attemptOf force c w = Some (Fetched (Some ks)) /\
     cachedError (clientAfter force c w) = None /\
     cachedJWKSet (clientAfter force c w) = Some ks /\
     keysStaleSince (clientAfter force c w) = zero) \/
  (exists e, runs force c w = true /\ e <> ErrKeysNotFetched /\
     attemptOf force c w = Some (Failed (attemptTime force w) e) /\
     cachedError (clientAfter force c w) = Some e /\
     cachedJWKSet (clientAfter force c w) = cachedJWKSet c /\
     keysStaleSince (clientAfter force c w) =
       if IsZero (keysStaleSince c) then attemptTime force w else keysStaleSince c).
Proof.
  unfold attemptOf. destruct (runs force c w) eqn:H.
  - right.
    destruct (get_cases c (afterGuard force w))
      as [(ks & body & h & Hg)|(body & h & e & Hg & Hne)];
      fold (fetchOf force c w) in Hg; rewrite Hg.
    + left. exists ks. destruct (clientAfter_fetched _ _ _ _ _ _ H Hg) as [_ ->].
      repeat split; reflexivity.
    + right. exists e. rewrite (clientAfter_failed _ _ _ _ _ _ _ H Hg). simpl.
      destruct (0 <? CacheErrors (config c)), (IsZero (keysStaleSince c)); simpl;
        repeat split; try reflexivity; exact Hne.
  - left. unfold clientAfter. rewrite (Refresh_fresh _ _ _ H). repeat split; reflexivity.
Qed.

Lemma agrees_step force c w hist :
  (forall k, clock w k <> zero) ->
  agrees c hist ->
  agrees (clientAfter force c w)
         (match attemptOf force c w with Some a => a :: hist | None => hist end).
Proof.
  intros Hclock (Hs & Hk & He & Hnz).
  destruct (clientAfter_cases force c w)
    as [(_ & -> & ->)|[(ks & _ & -> & He' & Hk' & Hs')|(e & _ & _ & -> & He' & Hk' & Hs')]].
  - repeat split; assumption.
  - unfold agrees. rewrite He', Hk', Hs'. simpl. repeat split; congruence.
  - unfold agrees. rewrite He', Hk', Hs'. simpl.
    assert (Hat : attemptTime force w <> zero) by (unfold attemptTime, currentTime, afterGuard; destruct force; apply Hclock).
    destruct hist as [|[ks0|t0 e0] earlier]; simpl in *.
    + rewrite Hs. simpl. repeat split; congruence.
    + rewrite Hs. simpl. repeat split; congruence.
    + assert (Hz : keysStaleSince c <> zero) by (apply Hnz; congruence).
      unfold IsZero. destruct (keysStaleSince c =? 0) eqn:Hz0;
        [apply Z.eqb_eq in Hz0; contradiction|].
      repeat split; congruence.
Qed.

Lemma refreshes_agrees calls : forall c w hist,
  (forall k, clock w k <> zero) ->
  agrees c hist ->
  agrees (fst (fst (refreshes calls c w hist))) (snd (refreshes calls c w hist)).
Proof.
  induction calls as [|force calls IH]; intros c w hist Hclock Hag; simpl.
  - exact Hag.
  - apply IH.
    + intros k. rewrite worldAfter_clock. apply Hclock.
    + apply agrees_step; assumption.
Qed.

Lemma agrees_New cfg c : New cfg = Ok c -> agrees c [].
Proof.
  intros HN. destruct (New_client _ _ HN) as (He & Hk & Hs & _).
  unfold agrees. rewrite He, Hk, Hs. simpl. repeat split; congruence.
Qed.

Lemma Reachable_error c :
  Reachable c -> cachedError c <> Some ErrKeysNotFetched.
Proof.
  induction 1 as [cfg c HN|force c w Hr IH].
  - destruct (New_client _ _ HN) as (-> & _). discriminate.
  - destruct (clientAfter_cases force c w)
      as [(_ & _ & ->)|[(ks & _ & _ & -> & _)|(e & _ & Hne & _ & -> & _)]];
      [exact IH | discriminate | congruence].
Qed.

(** ** The claims of the specification *)

(** C1: in every cache state, when an error is cached and either
    staleSince + keepStaleKeys is before now or no key set was ever loaded,
    GetKeySet returns the cached error; otherwise, when a key set was
    loaded, GetKeySet returns it, also with an error cached, as long as
    staleSince + keepStaleKeys is not before now.  Along every sequence of
    refreshes from a new client: after an earlier success and a run of
    failures that began at T1, GetKeySet returns the key set of the last
    success up to T1 + keepStaleKeys and the error of the last failure
    after it. *)
Theorem C1_stale_serving :
  (forall c w,
     let now := currentTime w in
     let deadline := Add (keysStaleSince c) (KeepStaleKeys (config c)) in
     (forall e, cachedError c = Some e ->
        Before deadline now = true \/ cachedJWKSet c = None ->
        fst (GetKeySet c w) = (None, Some e)) /\
     (forall ks, cachedJWKSet c = Some ks ->
        cachedError c = None \/ Before deadline now = false ->
        fst (GetKeySet c w) = (Some ks, None))) /\
  (forall cfg c0 calls w0,
     New cfg = Ok c0 ->
     (forall k, clock w0 k <> zero) ->
     let c := fst (fst (refreshes calls c0 w0 [])) in
     let hist := snd (refreshes calls c0 w0 []) in
     forall ks e, lastGood hist = Some ks -> lastError hist = Some e ->
     let T1 := firstFailureOfRun hist in
     forall w,
       (currentTime w <= T1 + KeepStaleKeys (config c) ->
          fst (GetKeySet c w) = (Some ks, None)) /\
       (T1 + KeepStaleKeys (config c) < currentTime w ->
          fst (GetKeySet c w) = (None, Some e))).
Proof.
  split.
  - intros c w now deadline. split.
    + intros e He Hor. rewrite GetKeySet_eq, He.
      destruct (cachedJWKSet c) as [ks|]; [|reflexivity].
      destruct Hor as [Hb|Hn]; [|discriminate].
      fold deadline now. rewrite Hb. reflexivity.
    + intros ks Hks Hor. rewrite GetKeySet_eq, Hks.
      destruct (cachedError c) as [e|]; [|reflexivity].
      destruct Hor as [Hn|Hb]; [discriminate|].
      fold deadline now. rewrite Hb. reflexivity.
  - intros cfg c0 calls w0 HN Hclock c hist ks e Hks He T1 w.
    destruct (refreshes_agrees calls c0 w0 [] Hclock (agrees_New _ _ HN))
      as (Hs & Hk & Herr & _).
    fold c hist in Hs, Hk, Herr. rewrite Hks in Hk. rewrite He in Herr.
    rewrite GetKeySet_eq, Hk, Herr, Hs. fold T1. unfold Before, Add.
    split; intros Hle.
    + destruct (_ <? _) eqn:Hb; [apply Z.ltb_lt in Hb; lia | reflexivity].
    + destruct (_ <? _) eqn:Hb; [reflexivity | apply Z.ltb_ge in Hb; lia].
Qed.

(** C2 (amended): with cacheMax = 0 the ceiling is the time of the fetch:
    after a successful fetch whose headers give a candidate expiry E later
    than now, the cacheMax check reduces the candidate to now and the
    installed expiry is now + cacheMin when cacheMin > 0 and now otherwise,
    which is below E as soon as E exceeds now + cacheMin. *)
Theorem C2_zero_cacheMax_is_a_ceiling_at_now force c w ks body h E :
  runs force c w = true ->
  fetchOf force c w = (ks, body, h, None) ->
  expiresAfter (updateTime force c w) h = (E, None) ->
  CacheMax (config c) = 0 ->
  updateTime force c w < E ->
  let now := updateTime force c w in
  cacheExpiresAfter (clientAfter force c w) = now + Z.max 0 (CacheMin (config c)) /\
  (now + CacheMin (config c) < E -> cacheExpiresAfter (clientAfter force c w) < E).
Proof.
  intros H Hg HE Hmax Hlt now.
  rewrite (installed_expiry_clamped _ _ _ _ _ _ _ H Hg HE), spec_clamp_max_min, Hmax.
  fold now. lia.
Qed.

(** C3: after a successful fetch whose headers give the candidate expiry E,
    the installed expiry is the clamp of E between now + cacheMin and
    now + cacheMax with the ceiling applied first and the floor second,
    that is max (now + cacheMin) (min E (now + cacheMax)); so when
    cacheMin > cacheMax the floor wins and the expiry is now + cacheMin. *)
Theorem C3_clamp_floor_priority force c w ks body h E :
  runs force c w = true ->
  fetchOf force c w = (ks, body, h, None) ->
  expiresAfter (updateTime force c w) h = (E, None) ->
  let now := updateTime force c w in
  let lo := now + CacheMin (config c) in
  let hi := now + CacheMax (config c) in
  cacheExpiresAfter (clientAfter force c w) = spec_clamp E lo hi /\
  cacheExpiresAfter (clientAfter force c w) = Z.max lo (Z.min E hi) /\
  (CacheMax (config c) < CacheMin (config c) ->
   cacheExpiresAfter (clientAfter force c w) = lo).
Proof.
  intros H Hg HE now lo hi.
  pose proof (installed_expiry_clamped _ _ _ _ _ _ _ H Hg HE) as Hexp.
  fold now lo hi in Hexp.
  split; [exact Hexp|]. rewrite Hexp, spec_clamp_max_min.
  split; [reflexivity|]. unfold lo, hi. lia.
Qed.

(** C4: when the Cache-Control header carries max-age = N and the Age
    header carries M with 0 <= M <= N, the expiry computed from the headers
    (before any clamping) is now + (N - M); when there is no Age header it
    is now + N. *)
Theorem C4_max_age_minus_age now h N :
  parseMaxAge h = (N, true, None) ->
  (forall M, parseAge h = (M, true, None) -> 0 <= M <= N ->
             expiresAfter now h = (now + (N - M), None)) /\
  (Get h headerNameAge = EmptyString -> expiresAfter now h = (now + N, None)).
Proof.
  intros HN. split.
  - intros M HM Hle. unfold expiresAfter. rewrite HN, HM.
    pose proof (parseMaxAge_int64 _ _ _ _ HN) as HNr.
    rewrite DurationSub_exact by (unfold MinInt64, MaxInt64 in *; lia).
    destruct (N - M <? 0) eqn:Hneg; [apply Z.ltb_lt in Hneg; lia|]. reflexivity.
  - intros Habs. unfold expiresAfter. rewrite HN, (parseAge_absent _ Habs). reflexivity.
Qed.

(** C5: when the fetch succeeds and the header calculation fails, whatever
    the failure (a negative age, an unparseable Cache-Control, Age or
    Expires value, no cache header at all), the fetch still counts as a
    success (Refresh returns a nil error and the cached error is nil, the
    key set is installed) and the installed expiry is exactly
    now + cacheMin.  An Age above a max-age that is not negative, and the
    absence of both Cache-Control and Expires, are such failures. *)
Theorem C5_header_failure_falls_back_to_floor force c w ks body h :
  runs force c w = true ->
  fetchOf force c w = (ks, body, h, None) ->
  let now := updateTime force c w in
  ((exists E e, expiresAfter now h = (E, Some e)) ->
     snd (returned force c w) = None /\
     cachedError (clientAfter force c w) = None /\
     cachedJWKSet (clientAfter force c w) = ks /\
     cacheExpiresAfter (clientAfter force c w) = now + CacheMin (config c)) /\
  (forall N M, parseMaxAge h = (N, true, None) -> parseAge h = (M, true, None) ->
     0 <= N < M -> exists E e, expiresAfter now h = (E, Some e)) /\
  (Get h "Cache-Control" = EmptyString -> Get h headerNameExpires = EmptyString ->
     exists E e, expiresAfter now h = (E, Some e)).
Proof.
  intros H Hg now. split; [|split].
  - intros (E & e & HE).
    destruct (clientAfter_fetched _ _ _ _ _ _ H Hg) as [Hnow Hc].
    rewrite (returned_runs _ _ _ H), Hg, Hc. simpl.
    unfold now in HE. rewrite Hnow in HE. rewrite HE. unfold now. rewrite Hnow.
    split; [|split; [|split]]; reflexivity.
  - intros N M HN HM Hlt. rewrite (negative_age_fails now _ _ _ HN HM Hlt). eauto.
  - intros Hcc Hex. rewrite (no_cache_headers_fails now _ Hcc Hex). eauto.
Qed.

(** C6: a refresh attempt that fails stamps staleSince with the current
    time when it was empty and leaves it unchanged otherwise, and an
    attempt that succeeds resets it to empty; so along every sequence of
    refreshes from a new client staleSince holds the time of the first
    failure of the current run of consecutive failures (and is empty when
    the last attempt succeeded or none ran). *)
Theorem C6_staleSince_first_failure :
  (forall force c w,
     runs force c w = true ->
     (forall e, snd (fetchOf force c w) = Some e ->
        keysStaleSince (clientAfter force c w) =
          if IsZero (keysStaleSince c) then attemptTime force w
          else keysStaleSince c) /\
     (snd (fetchOf force c w) = None ->
        keysStaleSince (clientAfter force c w) = zero)) /\
  (forall cfg c0 calls w,
     New cfg = Ok c0 ->
     (forall k, clock w k <> zero) ->
     keysStaleSince (fst (fst (refreshes calls c0 w [])))
       = firstFailureOfRun (snd (refreshes calls c0 w []))).
Proof.
  split.
  - intros force c w H. split.
    + intros e He. destruct (fetchOf force c w) as [[[ks body] h] err] eqn:Hg.
      simpl in He. subst err. rewrite (clientAfter_failed _ _ _ _ _ _ _ H Hg). simpl.
      destruct (0 <? CacheErrors (config c)), (IsZero (keysStaleSince c)); reflexivity.
    + intros He. destruct (fetchOf force c w) as [[[ks body] h] err] eqn:Hg.
      simpl in He. subst err.
      destruct (clientAfter_fetched _ _ _ _ _ _ H Hg) as [_ ->]. reflexivity.
  - intros cfg c0 calls w HN Hclock.
    apply (refreshes_agrees calls c0 w [] Hclock (agrees_New _ _ HN)).
Qed.

(** C7 (amended): while the cache has not expired (the clock reading is not
    after expiresAfter), Refresh(false) performs no request, changes no
    field of the client and returns (false, nil).  Hence two calls of
    Refresh(false) in immediate succession perform at most one request,
    the second returning (false, nil), whenever the first call leaves a
    cache that has not expired at the reading of the second; on a clock
    that stands still this is the case when cacheMin >= 0 and
    cacheErrors > 0.  (With cacheErrors = 0 a failed first attempt leaves
    the cache expired and the second call fetches again.) *)
Theorem C7_fresh_refresh_is_noop c w :
  let c1 := clientAfter false c w in
  let w1 := worldAfter false c w in
  (runs false c w = false ->
     Refresh false c w = (c, (false, None), tick w) /\
     requests (worldAfter false c w) = requests w) /\
  (runs false c1 w1 = false ->
     returned false c1 w1 = (false, None) /\
     clientAfter false c1 w1 = c1 /\
     (requests (worldAfter false c1 w1) <= S (requests w))%nat) /\
  (forall t, (forall k, clock w k = t) ->
     0 <= CacheMin (config c) -> 0 < CacheErrors (config c) ->
     runs false c1 w1 = false /\
     returned false c1 w1 = (false, None) /\
     (requests (worldAfter false c1 w1) <= S (requests w))%nat).
Proof.
  intros c1 w1.
  assert (Htwice : runs false c1 w1 = false ->
            returned false c1 w1 = (false, None) /\
            clientAfter false c1 w1 = c1 /\
            (requests (worldAfter false c1 w1) <= S (requests w))%nat).
  { intros H1. unfold returned, clientAfter. rewrite worldAfter_requests, H1.
    rewrite (Refresh_fresh _ _ _ H1). simpl. split; [reflexivity|split; [reflexivity|]].
    unfold w1. rewrite worldAfter_requests. destruct (runs false c w); lia. }
  split; [|split].
  - intros H. rewrite worldAfter_requests, H. split; [apply Refresh_fresh; exact H | reflexivity].
  - exact Htwice.
  - intros t Hfrozen Hmin Herr.
    cut (runs false c1 w1 = false).
    { intros H1. destruct (Htwice H1) as (Hr & _ & Hq). auto. }
    assert (Hfrozen1 : forall k, clock w1 k = t).
    { intros k. unfold w1. rewrite worldAfter_clock. apply Hfrozen. }
    unfold runs. simpl. rewrite (frozen_currentTime _ _ Hfrozen1).
    unfold After. apply Z.ltb_ge.
    destruct (runs false c w) eqn:H.
    + destruct (get_cases c (afterGuard false w))
        as [(ks & body & h & Hg)|(body & h & e & Hg & _)];
        fold (fetchOf false c w) in Hg.
      * destruct (clientAfter_fetched _ _ _ _ _ _ H Hg) as [_ Hc].
        unfold c1. rewrite Hc. simpl.
        assert (Ht : attemptTime false w = t) by apply Hfrozen. rewrite Ht.
        destruct (expiresAfter t h) as [E [e|]]; [lia|].
        pose proof (spec_clamp_floor E (t + CacheMin (config c)) (t + CacheMax (config c))).
        lia.
      * pose proof (clientAfter_failed _ _ _ _ _ _ _ H Hg) as Hc.
        apply Z.ltb_lt in Herr. rewrite Herr in Hc. unfold c1. rewrite Hc. simpl.
        rewrite (frozen_updateTime t _ _ _ Hfrozen). apply Z.ltb_lt in Herr. lia.
    + unfold c1, clientAfter. rewrite (Refresh_fresh _ _ _ H). simpl.
      unfold runs, After in H. simpl in H. apply Z.ltb_ge in H.
      rewrite (frozen_currentTime _ _ Hfrozen) in H. exact H.
Qed.

(** C8 (amended): when the fetch of a refresh attempt fails (transport,
    status, body or parse error) the headers play no part in the new
    expiry: it is now + cacheErrors when cacheErrors > 0, and the field
    keeps its value when cacheErrors = 0 (or less).  After an attempt that
    was not forced, and so ran because the cache had expired, the unchanged
    expiry makes every later check due again; after a forced attempt on an
    unexpired cache the old expiry still stands. *)
Theorem C8_failed_fetch_expiry force c w ks body h e :
  runs force c w = true ->
  fetchOf force c w = (ks, body, h, Some e) ->
  let now := updateTime force c w in
  let c' := clientAfter force c w in
  (0 < CacheErrors (config c) ->
     cacheExpiresAfter c' = now + CacheErrors (config c)) /\
  (CacheErrors (config c) <= 0 -> cacheExpiresAfter c' = cacheExpiresAfter c) /\
  (forall h' c0 w0, fst (updateExpiresAfter h' (Some e) c0 w0)
                    = fst (updateExpiresAfter h (Some e) c0 w0)) /\
  (force = false -> CacheErrors (config c) = 0 ->
     forall w', currentTime w <= currentTime w' -> runs false c' w' = true).
Proof.
  intros H Hg now c'.
  pose proof (clientAfter_failed _ _ _ _ _ _ _ H Hg) as Hc. fold c' now in Hc.
  split; [|split; [|split]].
  - intros Hpos. apply Z.ltb_lt in Hpos. rewrite Hc, Hpos. reflexivity.
  - intros Hle. apply Z.ltb_ge in Hle. rewrite Hc, Hle. simpl.
    destruct (IsZero (keysStaleSince c)); reflexivity.
  - intros h' c0 w0. rewrite !updateExpiresAfter_failed. reflexivity.
  - intros -> H0 w' Hlater.
    assert (Hexp : cacheExpiresAfter c' = cacheExpiresAfter c).
    { rewrite Hc, H0. simpl. destruct (IsZero (keysStaleSince c)); reflexivity. }
    unfold runs in *. simpl in *. rewrite Hexp.
    unfold After in *. apply Z.ltb_lt in H. apply Z.ltb_lt. lia.
Qed.

(** C9: a call of Refresh returns refreshed = true exactly when an attempt
    ran (forced, or the cache had expired); the error it returns is then
    the error of the attempt, also when the attempt failed, and the attempt
    succeeded exactly when that error is nil: a nil error comes with a
    fetched key set that is installed, a non-nil error is cached and leaves
    the key set alone. *)
Theorem C9_refresh_reports_attempt force c w :
  runs force c w = true ->
  fst (returned force c w) = true /\
  snd (returned force c w) = snd (fetchOf force c w) /\
  cachedError (clientAfter force c w) = snd (returned force c w) /\
  requests (worldAfter force c w) = S (requests w) /\
  (snd (returned force c w) = None ->
     exists ks, fst (fst (fst (fetchOf force c w))) = Some ks /\
                cachedJWKSet (clientAfter force c w) = Some ks) /\
  (forall e, snd (returned force c w) = Some e ->
     cachedJWKSet (clientAfter force c w) = cachedJWKSet c).
Proof.
  intros H. rewrite (returned_runs _ _ _ H), worldAfter_requests, H. simpl.
  repeat split.
  - destruct (get_cases c (afterGuard force w)) as [(ks & body & h & Hg)|(body & h & e & Hg & _)];
      fold (fetchOf force c w) in Hg.
    + destruct (clientAfter_fetched _ _ _ _ _ _ H Hg) as [_ ->]. rewrite Hg. reflexivity.
    + rewrite (clientAfter_failed _ _ _ _ _ _ _ H Hg), Hg. simpl.
      destruct (0 <? CacheErrors (config c)); reflexivity.
  - intros Hnil.
    destruct (get_cases c (afterGuard force w)) as [(ks & body & h & Hg)|(body & h & e & Hg & _)];
      fold (fetchOf force c w) in Hg; rewrite Hg in Hnil; [|discriminate].
    exists ks. rewrite Hg. split; [reflexivity|].
    destruct (clientAfter_fetched _ _ _ _ _ _ H Hg) as [_ ->]. reflexivity.
  - intros e He.
    destruct (fetchOf force c w) as [[[ks body] h] err] eqn:Hg. simpl in He. subst err.
    rewrite (clientAfter_failed _ _ _ _ _ _ _ H Hg). simpl.
    destruct (0 <? CacheErrors (config c)), (IsZero (keysStaleSince c)); reflexivity.
Qed.

(** C10: in every reachable cache state GetKeySet returns either a key set
    with a nil error, or no key set with an error that is the cached fetch
    error or else the distinct ErrKeysNotFetched; it never returns nil
    twice, and on a new client, before any fetch, it returns
    ErrKeysNotFetched. *)
Theorem C10_GetKeySet_outcomes c w :
  Reachable c ->
  ((exists ks, fst (GetKeySet c w) = (Some ks, None)) \/
   (exists e, fst (GetKeySet c w) = (None, Some e) /\
      ((cachedError c = Some e /\ e <> ErrKeysNotFetched) \/
       (e = ErrKeysNotFetched /\ cachedError c = None /\ cachedJWKSet c = None)))) /\
  fst (GetKeySet c w) <> (None, None) /\
  (forall cfg, New cfg = Ok c ->
     fst (GetKeySet c w) = (None, Some ErrKeysNotFetched)).
Proof.
  intros Hr. pose proof (Reachable_error _ Hr) as Hne.
  rewrite GetKeySet_eq.
  split; [|split].
  - destruct (cachedError c) as [e|] eqn:He, (cachedJWKSet c) as [ks|] eqn:Hk.
    + destruct (Before _ _); [right; exists e|left; exists ks]; [|reflexivity].
      split; [reflexivity|left; split; congruence].
    + right. exists e. split; [reflexivity|left; split; congruence].
    + left. exists ks. reflexivity.
    + right. exists ErrKeysNotFetched. split; [reflexivity|right; repeat split; reflexivity].
  - destruct (cachedError c) as [e|], (cachedJWKSet c) as [ks|];
      [destruct (Before _ _)| | |]; discriminate.
  - intros cfg HN. destruct (New_client _ _ HN) as (-> & -> & _). reflexivity.
Qed.

End Properties.

(** * Further properties of the client *)

Section MoreProperties.
Context `{Ext : Externals} `{Laws : !ExternalsLaws}.

Ltac io_unfold :=
  unfold mbind, mret, IO_bind, IO_ret, timeNow, httpClientGet in *.

(** X1: [get] returns a key set exactly when the transport delivers a
    response with status 200 whose body can be read and unmarshals; it then
    returns the body and the headers of that response and no error. *)
Theorem X1_get_succeeds_only_on_200 c w ks body h :
  fst (get c w) = (Some ks, body, h, None) <->
  exists resp,
    roundTrip w (requests w) (URL (config c)) = Ok resp /\
    Body resp = Ok body /\ StatusCode resp = StatusOK /\
    Unmarshal body = Ok ks /\ RespHeader resp = h.
Proof. apply get_succeeds_iff. Qed.

(** X2: after a refresh attempt, [GetAll] returns the headers, the body
    and the error of that attempt, and the key set of the attempt only
    when it succeeded: a failed attempt leaves the old key set beside the
    new error.  In particular a response with a status other than 200 is
    kept, body and headers, with an error that names the status. *)
Theorem X2_GetAll_after_attempt force c w :
  runs force c w = true ->
  (forall ks body h err, fetchOf force c w = (ks, body, h, err) ->
     GetAll (clientAfter force c w) =
       (match err with None => ks | Some _ => cachedJWKSet c end, h, body, err)) /\
  (forall resp body,
     roundTrip w (requests w) (URL (config c)) = Ok resp ->
     Body resp = Ok body -> StatusCode resp <> StatusOK ->
     GetAll (clientAfter force c w) =
       (cachedJWKSet c, RespHeader resp, body,
        Some (ErrUnexpectedStatus (StatusCode resp)))).
Proof.
  intros H.
  assert (Hall : forall ks body h err, fetchOf force c w = (ks, body, h, err) ->
     GetAll (clientAfter force c w) =
       (match err with None => ks | Some _ => cachedJWKSet c end, h, body, err)).
  { intros ks body h [e|] Hg.
    - rewrite (clientAfter_failed _ _ _ _ _ _ _ H Hg). unfold GetAll. simpl.
      destruct (0 <? CacheErrors (config c)), (IsZero (keysStaleSince c)); reflexivity.
    - destruct (clientAfter_fetched _ _ _ _ _ _ H Hg) as [_ ->]. reflexivity. }
  split; [exact Hall|].
  intros resp body Hrt Hb Hs.
  apply (Hall None body (RespHeader resp)
               (Some (ErrUnexpectedStatus (StatusCode resp)))).
  unfold fetchOf, get. io_unfold.
  replace (roundTrip (afterGuard force w) (requests (afterGuard force w)))
    with (roundTrip w (requests w)) by (destruct force; reflexivity).
  rewrite Hrt. simpl. rewrite Hb. apply Z.eqb_neq in Hs. rewrite Hs. reflexivity.
Qed.

(** X3: after a successful refresh attempt the installed expiry is never
    before now + cacheMin, whatever the headers say, and never after
    now + cacheMax when cacheMin <= cacheMax. *)
Theorem X3_success_expiry_within_bounds force c w ks body h :
  runs force c w = true ->
  fetchOf force c w = (ks, body, h, None) ->
  let now := updateTime force c w in
  now + CacheMin (config c) <= cacheExpiresAfter (clientAfter force c w) /\
  (CacheMin (config c) <= CacheMax (config c) ->
   cacheExpiresAfter (clientAfter force c w) <= now + CacheMax (config c)).
Proof.
  intros H Hg now.
  destruct (clientAfter_fetched _ _ _ _ _ _ H Hg) as [Hnow Hc].
  rewrite Hc. simpl. fold now in Hnow. rewrite <- Hnow.
  destruct (expiresAfter now h) as [E [e|]]; [lia|].
  rewrite spec_clamp_max_min. lia.
Qed.

Lemma Reachable_refreshes calls : forall c w hist,
  Reachable c -> Reachable (fst (fst (refreshes calls c w hist))).
Proof.
  induction calls as [|force calls IH]; intros c w hist Hr; simpl.
  - exact Hr.
  - apply IH. apply Reachable_Refresh. exact Hr.
Qed.

Lemma refreshes_keep_key_set calls : forall c w hist,
  cachedJWKSet c <> None ->
  cachedJWKSet (fst (fst (refreshes calls c w hist))) <> None.
Proof.
  induction calls as [|force calls IH]; intros c w hist Hc; simpl.
  - exact Hc.
  - apply IH.
    destruct (clientAfter_cases force c w)
      as [(_ & _ & ->)|[(ks & _ & _ & _ & -> & _)|(e & _ & _ & _ & _ & -> & _)]];
      [exact Hc | discriminate | exact Hc].
Qed.

(** X4: a key set, once loaded, is never dropped: after any sequence of
    calls of Refresh, failed or not, a client that had a key set still has
    one, and GetKeySet never returns ErrKeysNotFetched again. *)
Theorem X4_key_set_never_dropped calls c w hist :
  Reachable c ->
  cachedJWKSet c <> None ->
  let c' := fst (fst (refreshes calls c w hist)) in
  cachedJWKSet c' <> None /\
  forall w', snd (fst (GetKeySet c' w')) <> Some ErrKeysNotFetched.
Proof.
  intros Hr Hc c'.
  pose proof (refreshes_keep_key_set calls c w hist Hc) as Hk. fold c' in Hk.
  pose proof (Reachable_error _ (Reachable_refreshes calls c w hist Hr)) as He.
  fold c' in He.
  split; [exact Hk|].
  intros w'. rewrite GetKeySet_eq.
  destruct (cachedJWKSet c') as [ks|]; [|contradiction].
  destruct (cachedError c') as [e|]; [|discriminate].
  destruct (Before _ _); simpl; [congruence | discriminate].
Qed.

(** X5: recovery: a refresh attempt that succeeds makes GetKeySet return
    the key set it fetched at once and at any later time, whatever error or
    stale time was cached before, and clears both. *)
Theorem X5_success_clears_staleness force c w :
  runs force c w = true ->
  snd (fetchOf force c w) = None ->
  exists ks,
    fst (fst (fst (fetchOf force c w))) = Some ks /\
    cachedError (clientAfter force c w) = None /\
    keysStaleSince (clientAfter force c w) = zero /\
    forall w', fst (GetKeySet (clientAfter force c w) w') = (Some ks, None).
Proof.
  intros H Herr.
  destruct (get_cases c (afterGuard force w))
    as [(ks & body & h & Hg)|(body & h & e & Hg & _)];
    fold (fetchOf force c w) in Hg; rewrite Hg in Herr; [|discriminate].
  exists ks. rewrite Hg.
  destruct (clientAfter_fetched _ _ _ _ _ _ H Hg) as [_ Hc].
  split; [reflexivity|].
  split; [rewrite Hc; reflexivity|]. split; [rewrite Hc; reflexivity|].
  intros w'. rewrite GetKeySet_eq, Hc. reflexivity.
Qed.

(** X6: New refuses exactly the configurations without a URL, with the
    error of Validate wrapped; the client it builds otherwise holds the
    configuration and nothing else: GetAll returns no key set, no headers,
    no body and no error. *)
Theorem X6_New_needs_a_URL cfg :
  (URL cfg = EmptyString ->
     New cfg = Err (ErrWrap "validating config" (ErrNew "URL is required"))) /\
  (URL cfg <> EmptyString ->
     exists c, New cfg = Ok c /\ config c = cfg /\
               GetAll c = (None, ∅, [], None) /\
               cacheExpiresAfter c = zero /\ keysStaleSince c = zero).
Proof.
  unfold New, Validate. split.
  - intros ->. reflexivity.
  - intros Hne. apply String.eqb_neq in Hne. rewrite Hne.
    eexists. split; [reflexivity|]. repeat split; reflexivity.
Qed.

(** ** The refresher loop *)

Lemma refresherRefresh_eq c w :
  refresherRefresh c w =
    (clientAfter false c w,
     if ExitOnError (config c) then snd (returned false c w) else None,
     worldAfter false c w).
Proof.
  pose proof (config_clientAfter false c w) as Hcfg.
  unfold refresherRefresh, clientAfter, returned, worldAfter in *. io_unfold.
  destruct (Refresh false c w) as [[c' [refreshed [e|]]] w']; simpl in *.
  - rewrite Hcfg. destruct (ExitOnError (config c)); reflexivity.
  - destruct (ExitOnError (config c)); reflexivity.
Qed.

Lemma returned_error_cached force c w e :
  snd (returned force c w) = Some e ->
  cachedError (clientAfter force c w) = Some e /\ runs force c w = true.
Proof.
  destruct (runs force c w) eqn:H.
  - intros He. split; [|reflexivity].
    rewrite (returned_runs _ _ _ H) in He. simpl in He.
    destruct (fetchOf force c w) as [[[ks body] h] err] eqn:Hg. simpl in He. subst err.
    rewrite (clientAfter_failed _ _ _ _ _ _ _ H Hg). simpl.
    destruct (0 <? CacheErrors (config c)), (IsZero (keysStaleSince c)); reflexivity.
  - unfold returned. rewrite (Refresh_fresh _ _ _ H). discriminate.
Qed.

Lemma refreshes_hist_irrelevant calls : forall c w hist hist',
  fst (refreshes calls c w hist) = fst (refreshes calls c w hist').
Proof.
  induction calls as [|force calls IH]; intros c w hist hist'; simpl;
    [reflexivity | apply IH].
Qed.

Lemma refresherLoop_no_exit signals : forall c w,
  ExitOnError (config c) = false ->
  refresherLoop signals c w =
    (fst (fst (refreshes (repeat false (ticksBeforeDone signals)) c w [])),
     if cancelled signals then Returned None else Waiting,
     snd (fst (refreshes (repeat false (ticksBeforeDone signals)) c w []))).
Proof.
  induction signals as [|[|] signals IH]; intros c w Hex; simpl.
  - reflexivity.
  - unfold mbind, IO_bind. rewrite refresherRefresh_eq, Hex.
    rewrite IH by (rewrite config_clientAfter; exact Hex).
    rewrite (refreshes_hist_irrelevant _ _ _
               (match attemptOf false c w with Some a => [a] | None => [] end) []).
    reflexivity.
  - reflexivity.
Qed.

(** X7: with ExitOnError unset, Refresher never returns an error: it
    returns nil when its context is cancelled and waits otherwise, and what
    it does to the client is one call of Refresh(false) at the start and
    one for every tick received before the cancellation. *)
Theorem X7_Refresher_without_ExitOnError signals c w :
  ExitOnError (config c) = false ->
  let calls := repeat false (S (ticksBeforeDone signals)) in
  Refresher signals c w =
    (fst (fst (refreshes calls c w [])),
     if cancelled signals then Returned None else Waiting,
     snd (fst (refreshes calls c w []))).
Proof.
  intros Hex calls. unfold Refresher, mbind, IO_bind.
  rewrite refresherRefresh_eq, Hex.
  rewrite refresherLoop_no_exit by (rewrite config_clientAfter; exact Hex).
  unfold calls. simpl.
  rewrite (refreshes_hist_irrelevant _ _ _
             (match attemptOf false c w with Some a => [a] | None => [] end) []).
  reflexivity.
Qed.

Lemma refresherLoop_error signals : forall c w e,
  snd (fst (refresherLoop signals c w)) = Returned (Some e) ->
  ExitOnError (config c) = true /\
  cachedError (fst (fst (refresherLoop signals c w))) = Some e.
Proof.
  induction signals as [|[|] signals IH]; intros c w e; simpl;
    [discriminate | | discriminate].
  unfold mbind, IO_bind. rewrite refresherRefresh_eq.
  destruct (ExitOnError (config c)) eqn:Hex.
  - destruct (snd (returned false c w)) as [e'|] eqn:Hret; simpl.
    + intros [= <-]. split; [reflexivity|].
      apply (returned_error_cached _ _ _ _ Hret).
    + intros Hloop. apply IH in Hloop as [_ Hc]. split; [reflexivity | exact Hc].
  - intros Hloop. apply IH in Hloop as [Hex' _].
    rewrite config_clientAfter in Hex'. congruence.
Qed.

(** X8: Refresher returns an error only when ExitOnError is set, and the
    error it returns is the one the failed refresh has just cached; with
    ExitOnError set, a first refresh that fails makes it return that error
    before it waits for any signal, after one request. *)
Theorem X8_Refresher_exits_on_error signals c w :
  (forall e, snd (fst (Refresher signals c w)) = Returned (Some e) ->
     ExitOnError (config c) = true /\
     cachedError (fst (fst (Refresher signals c w))) = Some e) /\
  (forall e, ExitOnError (config c) = true ->
     runs false c w = true -> snd (fetchOf false c w) = Some e ->
     snd (fst (Refresher signals c w)) = Returned (Some e) /\
     fst (fst (Refresher signals c w)) = clientAfter false c w /\
     requests (snd (Refresher signals c w)) = S (requests w)).
Proof.
  split.
  - intros e. unfold Refresher, mbind, IO_bind. rewrite refresherRefresh_eq.
    destruct (ExitOnError (config c)) eqn:Hex.
    + destruct (snd (returned false c w)) as [e'|] eqn:Hret; simpl.
      * intros [= <-]. split; [reflexivity|].
        apply (returned_error_cached _ _ _ _ Hret).
      * intros Hloop. apply refresherLoop_error in Hloop as [_ Hc].
        split; [reflexivity | exact Hc].
    + intros Hloop. apply refresherLoop_error in Hloop as [Hex' _].
      rewrite config_clientAfter in Hex'. congruence.
  - intros e Hex H Hg. unfold Refresher, mbind, IO_bind.
    rewrite refresherRefresh_eq, Hex, (returned_runs _ _ _ H), Hg. simpl.
    split; [reflexivity|]. split; [reflexivity|].
    rewrite worldAfter_requests, H. reflexivity.
Qed.

Lemma refresherLoop_requests signals : forall c w,
  (requests w <= requests (snd (refresherLoop signals c w))
   <= requests w + ticksBeforeDone signals)%nat.
Proof.
  induction signals as [|[|] signals IH]; intros c w; simpl; [lia| |lia].
  unfold mbind, IO_bind. rewrite refresherRefresh_eq.
  assert (Hw : (requests w <= requests (worldAfter false c w) <= S (requests w))%nat).
  { rewrite worldAfter_requests. destruct (runs false c w); lia. }
  destruct (if ExitOnError (config c) then _ else _); simpl; [lia|].
  specialize (IH (clientAfter false c w) (worldAfter false c w)). lia.
Qed.

(** X9: Refresher makes at most one request at the start and one for
    every tick it receives before its context is cancelled, and none once
    the context is cancelled. *)
Theorem X9_Refresher_request_bound signals c w :
  (requests w <= requests (snd (Refresher signals c w))
   <= requests w + 1 + ticksBeforeDone signals)%nat.
Proof.
  unfold Refresher, mbind, IO_bind. rewrite refresherRefresh_eq.
  assert (Hw : (requests w <= requests (worldAfter false c w) <= S (requests w))%nat).
  { rewrite worldAfter_requests. destruct (runs false c w); lia. }
  destruct (if ExitOnError (config c) then _ else _); simpl; [lia|].
  pose proof (refresherLoop_requests signals (clientAfter false c w)
                (worldAfter false c w)). lia.
Qed.

(** ** The cache headers *)

Lemma scanParts_first_max_age pre : forall p post init,
  Forall (fun q => HasPrefix (TrimSpace q) (cacheControlFieldMaxAge +:+ "=") = false) pre ->
  HasPrefix (TrimSpace p) (cacheControlFieldMaxAge +:+ "=") = true ->
  scanParts (pre ++ p :: post) init
    = TrimPrefix (TrimSpace p) (cacheControlFieldMaxAge +:+ "=").
Proof.
  induction pre as [|q pre IH]; intros p post init Hpre Hp; simpl.
  - rewrite Hp. reflexivity.
  - inversion Hpre as [|? ? Hq Hpre']; subst. rewrite Hq.
    destruct (HasPrefix (TrimSpace q) (cacheControlFieldSMaxAge +:+ "="));
      apply IH; assumption.
Qed.

Lemma scanParts_no_directive parts : forall init,
  Forall (fun q => HasPrefix (TrimSpace q) (cacheControlFieldMaxAge +:+ "=") = false) parts ->
  Forall (fun q => HasPrefix (TrimSpace q) (cacheControlFieldSMaxAge +:+ "=") = false) parts ->
  scanParts parts init = init.
Proof.
  induction parts as [|q parts IH]; intros init Hm Hs; simpl; [reflexivity|].
  inversion Hm as [|? ? Hq Hm']; subst. inversion Hs as [|? ? Hq' Hs']; subst.
  rewrite Hq, Hq'. apply IH; assumption.
Qed.

Lemma scanParts_last_s_maxage pre : forall p post init,
  Forall (fun q => HasPrefix (TrimSpace q) (cacheControlFieldMaxAge +:+ "=") = false)
         (pre ++ p :: post) ->
  HasPrefix (TrimSpace p) (cacheControlFieldSMaxAge +:+ "=") = true ->
  Forall (fun q => HasPrefix (TrimSpace q) (cacheControlFieldSMaxAge +:+ "=") = false) post ->
  scanParts (pre ++ p :: post) init
    = TrimPrefix (TrimSpace p) (cacheControlFieldSMaxAge +:+ "=").
Proof.
  induction pre as [|q pre IH]; intros p post init Hm Hp Hpost; simpl.
  - inversion Hm as [|? ? Hq Hm']; subst. rewrite Hq, Hp.
    apply scanParts_no_directive; assumption.
  - inversion Hm as [|? ? Hq Hm']; subst. rewrite Hq.
    destruct (HasPrefix (TrimSpace q) (cacheControlFieldSMaxAge +:+ "="));
      apply IH; assumption.
Qed.

(** X10: of the directives of Cache-Control, the first max-age is the one
    parseMaxAge reads, whatever s-maxage directives stand before or after
    it; a max-age with an empty value makes it report that there is no
    max-age, even beside an s-maxage. *)
Theorem X10_max_age_preferred h (pre : list string) (p : string) (post : list string) :
  Get h "Cache-Control" <> EmptyString ->
  Split (Get h "Cache-Control") "," = (pre ++ p :: post)%list ->
  Forall (fun q => HasPrefix (TrimSpace q) "max-age=" = false) pre ->
  HasPrefix (TrimSpace p) "max-age=" = true ->
  parseMaxAge h = durationOf (TrimPrefix (TrimSpace p) "max-age=") /\
  (TrimPrefix (TrimSpace p) "max-age=" = EmptyString ->
   parseMaxAge h = (0, false, None)).
Proof.
  intros Hne Hsplit Hpre Hp.
  assert (H : parseMaxAge h = durationOf (TrimPrefix (TrimSpace p) "max-age=")).
  { unfold parseMaxAge, durationOf. apply String.eqb_neq in Hne. rewrite Hne, Hsplit.
    rewrite (scanParts_first_max_age pre p post EmptyString Hpre Hp). reflexivity. }
  split; [exact H|]. intros Hv. rewrite H, Hv. reflexivity.
Qed.

(** X11: when no directive of Cache-Control is a max-age, parseMaxAge
    reads the last s-maxage; when there is no s-maxage either it reports
    that there is no max-age, without an error. *)
Theorem X11_s_maxage_fallback h :
  Get h "Cache-Control" <> EmptyString ->
  Forall (fun q => HasPrefix (TrimSpace q) "max-age=" = false)
         (Split (Get h "Cache-Control") ",") ->
  (forall (pre : list string) (p : string) (post : list string),
     Split (Get h "Cache-Control") "," = (pre ++ p :: post)%list ->
     HasPrefix (TrimSpace p) "s-maxage=" = true ->
     Forall (fun q => HasPrefix (TrimSpace q) "s-maxage=" = false) post ->
     parseMaxAge h = durationOf (TrimPrefix (TrimSpace p) "s-maxage=")) /\
  (Forall (fun q => HasPrefix (TrimSpace q) "s-maxage=" = false)
          (Split (Get h "Cache-Control") ",") ->
   parseMaxAge h = (0, false, None)).
Proof.
  intros Hne Hm. apply String.eqb_neq in Hne. split.
  - intros pre p post Hsplit Hp Hpost. rewrite Hsplit in Hm.
    unfold parseMaxAge, durationOf. rewrite Hne, Hsplit.
    rewrite (scanParts_last_s_maxage pre p post EmptyString Hm Hp Hpost). reflexivity.
  - intros Hs. unfold parseMaxAge. rewrite Hne.
    rewrite (scanParts_no_directive _ EmptyString Hm Hs). reflexivity.
Qed.

Lemma Get_insert_ne (h : Header) k k' v : k <> k' -> Get (<[k:=v]> h) k' = Get h k'.
Proof. intros Hne. unfold Get. rewrite lookup_insert_ne by exact Hne. reflexivity. Qed.

Lemma Get_delete_ne (h : Header) k k' : k <> k' -> Get (delete k h) k' = Get h k'.
Proof. intros Hne. unfold Get. rewrite lookup_delete_ne by exact Hne. reflexivity. Qed.

Lemma parseMaxAge_ext h h' :
  Get h "Cache-Control" = Get h' "Cache-Control" -> parseMaxAge h = parseMaxAge h'.
Proof. unfold parseMaxAge. intros ->. reflexivity. Qed.

Lemma parseAge_ext h h' :
  Get h headerNameAge = Get h' headerNameAge -> parseAge h = parseAge h'.
Proof. unfold parseAge. intros ->. reflexivity. Qed.

Lemma parseExpires_ext h h' :
  Get h headerNameExpires = Get h' headerNameExpires -> parseExpires h = parseExpires h'.
Proof. unfold parseExpires. intros ->. reflexivity. Qed.

(** X12: when Cache-Control gives a max-age, the Expires header plays no
    part: whatever values it has, unparseable ones too, and whether it is
    there or not, expiresAfter returns the same. *)
Theorem X12_max_age_shadows_Expires now h N values :
  parseMaxAge h = (N, true, None) ->
  expiresAfter now (<["Expires" := values]> h) = expiresAfter now h /\
  expiresAfter now (delete "Expires" h) = expiresAfter now h.
Proof.
  intros HN.
  assert (H : forall h', Get h' "Cache-Control" = Get h "Cache-Control" ->
                         Get h' headerNameAge = Get h headerNameAge ->
                         expiresAfter now h' = expiresAfter now h).
  { intros h' Hcc Hage. unfold expiresAfter.
    rewrite (parseMaxAge_ext h' h Hcc), HN, (parseAge_ext h' h Hage). reflexivity. }
  split; apply H;
    first [apply Get_insert_ne; discriminate | apply Get_delete_ne; discriminate].
Qed.

(** X13: when Cache-Control gives no max-age, the Age header plays no part
    and the date of Expires is returned as it is, whatever the time of the
    fetch, be it in the past. *)
Theorem X13_Expires_verbatim h N T :
  parseMaxAge h = (N, false, None) ->
  parseExpires h = (T, true, None) ->
  forall now values,
    expiresAfter now h = (T, None) /\
    expiresAfter now (<["Age" := values]> h) = (T, None).
Proof.
  intros HN HT now values.
  assert (H : forall h', Get h' "Cache-Control" = Get h "Cache-Control" ->
                         Get h' headerNameExpires = Get h headerNameExpires ->
                         expiresAfter now h' = (T, None)).
  { intros h' Hcc Hexp. unfold expiresAfter.
    rewrite (parseMaxAge_ext h' h Hcc), HN, (parseExpires_ext h' h Hexp), HT.
    reflexivity. }
  split; [apply H; reflexivity|].
  apply H; apply Get_insert_ne; discriminate.
Qed.

(** X14: when both max-age and Age are read, expiresAfter either fails
    with the negative-age error or returns an expiry that is not before
    now; without an Age header the sign of max-age is not looked at, and a
    negative max-age gives an expiry before now. *)
Theorem X14_age_checked_expiry now h N :
  parseMaxAge h = (N, true, None) ->
  (forall M, parseAge h = (M, true, None) ->
     (exists t, expiresAfter now h = (zero, Some (ErrNegativeAge N M t)) /\ t < 0) \/
     (exists E, expiresAfter now h = (E, None) /\ now <= E <= now + MaxInt64)) /\
  (Get h headerNameAge = EmptyString -> N < 0 ->
     exists E, expiresAfter now h = (E, None) /\ E < now).
Proof.
  intros HN. split.
  - intros M HM. unfold expiresAfter. rewrite HN, HM.
    destruct (DurationSub N M <? 0) eqn:Hneg.
    + left. apply Z.ltb_lt in Hneg. eauto.
    + right. apply Z.ltb_ge in Hneg. eexists. split; [reflexivity|].
      unfold Add, DurationSub, wrap64, MaxInt64 in *.
      pose proof (Z.mod_pos_bound (N - M + 2 ^ 63) (2 ^ 64) ltac:(lia)). lia.
  - intros Habs Hneg. unfold expiresAfter. rewrite HN, (parseAge_absent _ Habs).
    eexists. split; [reflexivity|]. unfold Add. lia.
Qed.

End MoreProperties.

(** * Properties of package keyfiles *)

Section KeyfilesProperties.
Context `{KExt : KeyfilesExternals} `{KLaws : !KeyfilesLaws}.

(** ** The hash of a listing *)

Lemma byteOf_value z : Z.of_N (Byte.to_N (byteOf z)) = z mod 256.
Proof.
  unfold byteOf.
  assert (Hr : 0 <= z mod 256 < 256) by (apply Z.mod_pos_bound; lia).
  destruct (Byte.of_N (Z.to_N (z mod 256))) as [b|] eqn:Hb.
  - apply Byte.to_of_N in Hb. rewrite Hb. lia.
  - apply Byte.of_N_None_iff in Hb. lia.
Qed.

Lemma leValue_leBytes n : forall v, leValue (leBytes n v) = v mod 256 ^ Z.of_nat n.
Proof.
  induction n as [|n IH]; intros v.
  - simpl. rewrite Z.mod_1_r. reflexivity.
  - cbn [leBytes leValue]. rewrite byteOf_value, IH.
    rewrite Nat2Z.inj_succ, Z.pow_succ_r by lia.
    rewrite Z.rem_mul_r by lia. reflexivity.
Qed.

Lemma length_leBytes n v : List.length (leBytes n v) = n.
Proof. revert v. induction n as [|n IH]; intros v; simpl; [|rewrite IH]; reflexivity. Qed.

Lemma leBytes8_inj a b :
  leBytes 8 a = leBytes 8 b -> a mod 2 ^ 64 = b mod 2 ^ 64.
Proof.
  intros H. apply (f_equal leValue) in H. rewrite !leValue_leBytes in H. exact H.
Qed.

Lemma leBytes8_inj_int64 a b :
  MinInt64 <= a <= MaxInt64 -> MinInt64 <= b <= MaxInt64 ->
  leBytes 8 a = leBytes 8 b -> a = b.
Proof.
  unfold MinInt64, MaxInt64. intros Ha Hb H. apply leBytes8_inj in H.
  assert (Hw : forall x, - 2 ^ 63 <= x <= 2 ^ 63 - 1 ->
                         x = (x + 2 ^ 63) mod 2 ^ 64 - 2 ^ 63).
  { intros x Hx. rewrite Z.mod_small by lia. lia. }
  rewrite (Hw a Ha), (Hw b Hb).
  rewrite <- (Zplus_mod_idemp_l a), <- (Zplus_mod_idemp_l b), H. reflexivity.
Qed.

Lemma UnixMilli_int64 t : MinInt64 <= UnixMilli t <= MaxInt64.
Proof.
  unfold UnixMilli, wrap64, MinInt64, MaxInt64.
  match goal with |- context [?x mod 2 ^ 64] =>
    pose proof (Z.mod_pos_bound x (2 ^ 64) ltac:(lia)) end. lia.
Qed.

Lemma hashRecord_eq i m : hashRecord i m = Ok (recordBytes i m).
Proof.
  unfold hashRecord, recordBytes, binaryWrite, WriteString.
  replace (leBytes 8 3735928559) with markBytes by (vm_compute; reflexivity).
  rewrite app_nil_l, <- !app_assoc. reflexivity.
Qed.

Lemma hashLoop_eq f : forall i written,
  hashLoop i f written = Ok (written ++ hashInput i f)%list.
Proof.
  induction f as [|m f IH]; intros i written; cbn [hashLoop hashInput].
  - rewrite app_nil_r. reflexivity.
  - rewrite hashRecord_eq, IH, <- app_assoc. reflexivity.
Qed.

Lemma Hash_eq f : Hash f = (Sum128 (hashInput 0 f), None).
Proof. unfold Hash. rewrite hashLoop_eq. reflexivity. Qed.

Lemma hashInput_keys f : forall g i,
  map fileKey f = map fileKey g -> hashInput i f = hashInput i g.
Proof.
  induction f as [|m f IH]; intros [|m' g] i H; simpl in *; try discriminate;
    [reflexivity|].
  injection H as Hn Hs Ht Hrest.
  unfold recordBytes. rewrite Hn, Hs, Ht, (IH g (i + 1) Hrest). reflexivity.
Qed.

(** X15: Hash never returns an error; its digest has 16 bytes, and it
    depends on the listing only through the names, the sizes and the
    modification times in milliseconds, in their order: a change of a
    modification time within one millisecond leaves the hash as it is. *)
Theorem X15_Hash_never_fails f :
  snd (Hash f) = None /\
  List.length (fst (Hash f)) = 16%nat /\
  (forall g, map fileKey f = map fileKey g -> Hash f = Hash g) /\
  (forall name size t t', t / 1000000 = t' / 1000000 ->
     Hash [{| Name := name; Size := size; ModTime := t |}]
     = Hash [{| Name := name; Size := size; ModTime := t' |}]).
Proof.
  rewrite Hash_eq. simpl.
  split; [reflexivity|]. split; [apply Sum128_length|].
  assert (Hkeys : forall g, map fileKey f = map fileKey g -> Hash f = Hash g).
  { intros g H. rewrite !Hash_eq, (hashInput_keys f g 0 H). reflexivity. }
  split; [intros g H; rewrite <- Hash_eq; apply Hkeys; exact H|].
  intros name size t t' Ht.
  rewrite !Hash_eq. f_equal. f_equal. apply hashInput_keys. simpl.
  unfold fileKey. simpl. f_equal. f_equal.
  unfold UnixMilli, Second. f_equal.
  assert (Hd : forall x, x / 1000000000 = x / 1000000 / 1000).
  { intros x. change 1000000000 with (1000000 * 1000).
    rewrite Z.div_div by lia. reflexivity. }
  assert (Hm : forall x, x mod 1000000000 / 1000000 = (x / 1000000) mod 1000).
  { intros x. change 1000000000 with (1000000 * 1000).
    rewrite (Z.rem_mul_r x 1000000 1000) by lia.
    rewrite Z.add_comm, Z.mul_comm, Z.div_add_l by lia.
    rewrite (Z.div_small (x mod 1000000)) by (apply Z.mod_pos_bound; lia). lia. }
  rewrite !Hd, !Hm, Ht. reflexivity.
Qed.

Lemma hashInput_recordsOrNothing i f : recordsOrNothing (hashInput i f).
Proof.
  destruct f as [|m f]; [left; reflexivity|].
  right. cbn [hashInput]. unfold recordBytes. rewrite <- app_assoc. eauto.
Qed.

(** The bytes of two records cannot overlap: a name has no NUL byte and
    the mark has four. *)
Lemma no_overlap d R R' :
  Forall (fun b => b <> Byte.x00) d ->
  recordsOrNothing R -> recordsOrNothing R' ->
  R = (d ++ R')%list -> d = [].
Proof.
  intros Hd [->|[R0 ->]] HR' H.
  - symmetry in H. apply app_eq_nil in H as [-> _]. reflexivity.
  - destruct d as [|b0 [|b1 [|b2 [|b3 [|b4 d]]]]]; [reflexivity|..];
      unfold markBytes in H; simpl in H.
    + injection H; intros; subst.
      destruct HR' as [HR'|[R1 HR']]; unfold markBytes in *; discriminate.
    + injection H; intros; subst.
      destruct HR' as [HR'|[R1 HR']]; unfold markBytes in *; discriminate.
    + injection H; intros; subst.
      destruct HR' as [HR'|[R1 HR']]; unfold markBytes in *; discriminate.
    + injection H; intros; subst.
      destruct HR' as [HR'|[R1 HR']]; unfold markBytes in *; discriminate.
    + injection H; intros; subst.
      inversion Hd as [|? ? _ Hd1]; subst. inversion Hd1 as [|? ? _ Hd2]; subst.
      inversion Hd2 as [|? ? _ Hd3]; subst. inversion Hd3 as [|? ? _ Hd4]; subst.
      inversion Hd4 as [|? ? Hne _]; subst. congruence.
Qed.

Lemma names_split n n' R R' :
  Forall (fun b => b <> Byte.x00) n -> Forall (fun b => b <> Byte.x00) n' ->
  recordsOrNothing R -> recordsOrNothing R' ->
  (n ++ R)%list = (n' ++ R')%list -> n = n' /\ R = R'.
Proof.
  intros Hn Hn' HR HR' H.
  apply app_eq_inv in H as [(d & -> & HR2)|(d & -> & HR2)].
  - apply Forall_app in Hn as [_ Hd].
    pose proof (no_overlap d R' R Hd HR' HR HR2) as ->.
    rewrite app_nil_r. split; [reflexivity | symmetry; exact HR2].
  - apply Forall_app in Hn' as [_ Hd].
    pose proof (no_overlap d R R' Hd HR HR' HR2) as ->.
    rewrite app_nil_r. split; [reflexivity | exact HR2].
Qed.

Lemma list_byte_of_string_inj s s' :
  list_byte_of_string s = list_byte_of_string s' -> s = s'.
Proof.
  intros H. rewrite <- (string_of_list_byte_of_string s),
                    <- (string_of_list_byte_of_string s'), H. reflexivity.
Qed.

Lemma hashInput_inj f : forall g i,
  Forall wellFormed f -> Forall wellFormed g ->
  hashInput i f = hashInput i g -> map fileKey f = map fileKey g.
Proof.
  induction f as [|m f IH]; intros [|m' g] i Hf Hg H.
  - reflexivity.
  - simpl in H. unfold recordBytes, markBytes in H. discriminate.
  - simpl in H. unfold recordBytes, markBytes in H. discriminate.
  - inversion Hf as [|? ? [Hsz Hnul] Hf']; subst.
    inversion Hg as [|? ? [Hsz' Hnul'] Hg']; subst.
    cbn [hashInput] in H. unfold recordBytes in H. rewrite <- !app_assoc in H.
    apply app_inv_head in H. apply app_inv_head in H.
    apply app_inj_1 in H as [Hs H]; [|rewrite !length_leBytes; reflexivity].
    apply app_inj_1 in H as [Ht H]; [|rewrite !length_leBytes; reflexivity].
    apply names_split in H as [Hn H];
      [|assumption|assumption|apply hashInput_recordsOrNothing..].
    apply leBytes8_inj_int64 in Hs; [|assumption..].
    apply leBytes8_inj_int64 in Ht; [|apply UnixMilli_int64..].
    apply list_byte_of_string_inj in Hn.
    cbn [map]. unfold fileKey at 1 3. rewrite Hn, Hs, Ht.
    f_equal. apply (IH g (i + 1)); assumption.
Qed.

(** X16: the bytes Hash digests determine the listing: for files whose
    names have no NUL byte and whose sizes are int64, two listings give
    the same bytes exactly when they have the same names, sizes and
    modification times in milliseconds, in the same order (the records
    carry no length, but a name cannot run into the next record). *)
Theorem X16_hash_input_determines_listing f g :
  Forall wellFormed f -> Forall wellFormed g ->
  (hashInput 0 f = hashInput 0 g <-> map fileKey f = map fileKey g) /\
  Hash f = (Sum128 (hashInput 0 f), None).
Proof.
  intros Hf Hg. split; [split|apply Hash_eq].
  - apply hashInput_inj; assumption.
  - apply hashInput_keys.
Qed.

(** ** The listing of a directory *)

Lemma skipFile_eq info :
  skipFile info =
    if FileInfo.IsDir info then (true, "directory")
    else if HasPrefix (FileInfo.Name info) "." then (true, "hidden file")
    else if HasSuffix (FileInfo.Name info) ".ignore" then (true, "ignored file")
    else (false, EmptyString).
Proof. reflexivity. Qed.

(** The loop over entries whose [Stat] succeeds, and at the first entry
    whose [Stat] fails. *)
Lemma getFileMetadataLoop_spec fs dir es : forall files skipped,
  Forall (fun e => exists info, Stat fs (Join dir e) = Ok info) es ->
  fst (fst (getFileMetadataLoop fs dir es files skipped))
    = (files ++ omap (returnedFor fs dir) es)%list /\
  snd (getFileMetadataLoop fs dir es files skipped) = None /\
  forall e',
    snd (fst (getFileMetadataLoop fs dir es files skipped)) !! e'
    = match (if bool_decide (e' ∈ es) then skippedFor fs dir e' else None) with
      | Some reason => Some reason
      | None => skipped !! e'
      end.
Proof.
  induction es as [|e es IH]; intros files skipped Hes; cbn [getFileMetadataLoop].
  - simpl. rewrite app_nil_r. repeat split; reflexivity.
  - inversion Hes as [|? ? [info Hinfo] Hes']; subst. rewrite Hinfo.
    assert (Hin : forall e', bool_decide (e' ∈ e :: es)
                             = bool_decide (e' = e) || bool_decide (e' ∈ es)).
    { intros e'. rewrite <- bool_decide_or. apply bool_decide_ext. apply elem_of_cons. }
    assert (Hret : returnedFor fs dir e =
              if FileInfo.IsDir info || HasPrefix (FileInfo.Name info) "."
                 || HasSuffix (FileInfo.Name info) ".ignore"
              then None
              else Some {| Name := e; Size := FileInfo.Size info;
                           ModTime := FileInfo.ModTime info |})
      by (unfold returnedFor; rewrite Hinfo; reflexivity).
    assert (Hskip : skippedFor fs dir e =
              if FileInfo.IsDir info then Some "directory"
              else if HasPrefix (FileInfo.Name info) "." then Some "hidden file"
              else if HasSuffix (FileInfo.Name info) ".ignore" then Some "ignored file"
              else None)
      by (unfold skippedFor; rewrite Hinfo; reflexivity).
    assert (Homap : omap (returnedFor fs dir) (e :: es) =
              match returnedFor fs dir e with
              | Some m => m :: omap (returnedFor fs dir) es
              | None => omap (returnedFor fs dir) es
              end) by reflexivity.
    rewrite Homap, Hret, skipFile_eq. clear Homap Hret.
    assert (Hskipped : forall reason files0,
              skippedFor fs dir e = Some reason ->
              let r := getFileMetadataLoop fs dir es files0 (<[e:=reason]> skipped) in
              forall e', snd (fst r) !! e'
                = match (if bool_decide (e' ∈ e :: es) then skippedFor fs dir e' else None) with
                  | Some reason => Some reason
                  | None => skipped !! e'
                  end).
    { intros reason files0 Hr r e'. unfold r.
      destruct (IH files0 (<[e:=reason]> skipped) Hes') as (_ & _ & ->).
      rewrite Hin. destruct (bool_decide (e' = e)) eqn:He.
      - apply bool_decide_eq_true in He. subst e'. simpl. rewrite Hr.
        rewrite lookup_insert_eq. destruct (bool_decide (e ∈ es)); reflexivity.
      - apply bool_decide_eq_false in He. simpl.
        rewrite lookup_insert_ne by congruence. reflexivity. }
    destruct (FileInfo.IsDir info) eqn:Hd; [|
      destruct (HasPrefix (FileInfo.Name info) ".") eqn:Hh; [|
        destruct (HasSuffix (FileInfo.Name info) ".ignore") eqn:Hi]]; simpl.
    + destruct (IH files (<[e:="directory"]> skipped) Hes') as (IH1 & IH2 & _).
      split; [exact IH1|]. split; [exact IH2|]. apply Hskipped. exact Hskip.
    + destruct (IH files (<[e:="hidden file"]> skipped) Hes') as (IH1 & IH2 & _).
      split; [exact IH1|]. split; [exact IH2|]. apply Hskipped. exact Hskip.
    + destruct (IH files (<[e:="ignored file"]> skipped) Hes') as (IH1 & IH2 & _).
      split; [exact IH1|]. split; [exact IH2|]. apply Hskipped. exact Hskip.
    + destruct (IH (files ++ [{| Name := e; Size := FileInfo.Size info;
                                 ModTime := FileInfo.ModTime info |}])%list
                   skipped Hes') as (IH1 & IH2 & IH3).
      split; [rewrite IH1, <- app_assoc; reflexivity|]. split; [exact IH2|].
      intros e'. rewrite IH3, Hin.
      destruct (bool_decide (e' = e)) eqn:He; [|reflexivity].
      apply bool_decide_eq_true in He. subst e'. simpl. rewrite Hskip.
      destruct (bool_decide (e ∈ es)); reflexivity.
Qed.

Lemma getFileMetadataLoop_stat_error fs dir pre : forall e post err files skipped,
  Forall (fun e => exists info, Stat fs (Join dir e) = Ok info) pre ->
  Stat fs (Join dir e) = Err err ->
  getFileMetadataLoop fs dir (pre ++ e :: post) files skipped
    = (fst (fst (getFileMetadataLoop fs dir pre files skipped)),
       snd (fst (getFileMetadataLoop fs dir pre files skipped)),
       Some (ErrWrap "stat" err)).
Proof.
  induction pre as [|p pre IH]; intros e post err files skipped Hpre He.
  - cbn [app getFileMetadataLoop]. rewrite He. reflexivity.
  - inversion Hpre as [|? ? [info Hinfo] Hpre']; subst.
    cbn [app getFileMetadataLoop]. rewrite Hinfo.
    destruct (skipFile info) as [[|] reason]; apply IH; assumption.
Qed.

(** X17: when the directory can be read and every entry can be stat'ed,
    GetFileMetadata returns no error, the files of the entries that are
    neither directories nor hidden nor ignored, in the order of the
    listing and with the size and the time Stat reports, and in skipped
    every other entry under its reason; an entry is never in both. *)
Theorem X17_GetFileMetadata_partition fs dir entries :
  ReadDir fs dir = Ok entries ->
  Forall (fun e => exists info, Stat fs (Join dir e) = Ok info) entries ->
  exists files skipped,
    GetFileMetadata fs dir = (files, skipped, None) /\
    files = omap (returnedFor fs dir) entries /\
    (forall e reason,
       skipped !! e = Some reason <-> e ∈ entries /\ skippedFor fs dir e = Some reason) /\
    (forall e, e ∈ entries ->
       (is_Some (returnedFor fs dir e) <-> skippedFor fs dir e = None) /\
       (e ∈ map Name files <-> skipped !! e = None)).
Proof.
  intros Hread Hstat. unfold GetFileMetadata. rewrite Hread.
  destruct (getFileMetadataLoop_spec fs dir entries [] ∅ Hstat) as (Hf & He & Hs).
  destruct (getFileMetadataLoop fs dir entries [] ∅) as [[files skipped] err].
  simpl in Hf, He, Hs. subst err. exists files, skipped.
  split; [reflexivity|]. split; [exact Hf|].
  assert (Hlookup : forall e reason,
            skipped !! e = Some reason <-> e ∈ entries /\ skippedFor fs dir e = Some reason).
  { intros e reason. rewrite Hs, lookup_empty.
    destruct (bool_decide (e ∈ entries)) eqn:Hin.
    - apply bool_decide_eq_true in Hin.
      destruct (skippedFor fs dir e) as [r|]; split.
      + intros [= ->]. split; [exact Hin | reflexivity].
      + intros [_ [= ->]]. reflexivity.
      + discriminate.
      + intros [_ [=]].
    - apply bool_decide_eq_false in Hin. split; [discriminate|].
      intros [Hc _]. contradiction. }
  split; [exact Hlookup|].
  intros e Hin.
  assert (Hex : is_Some (returnedFor fs dir e) <-> skippedFor fs dir e = None).
  { rewrite Forall_forall in Hstat. destruct (Hstat e Hin) as [info Hinfo].
    unfold returnedFor, skippedFor. rewrite Hinfo.
    destruct (FileInfo.IsDir info), (HasPrefix (FileInfo.Name info) "."),
      (HasSuffix (FileInfo.Name info) ".ignore"); simpl;
      split; intros H; try discriminate; try (destruct H; discriminate);
      eauto. }
  split; [exact Hex|].
  assert (Hname : forall e0 m, returnedFor fs dir e0 = Some m -> Name m = e0).
  { intros e0 m. unfold returnedFor. destruct (Stat fs (Join dir e0)); [|discriminate].
    destruct (_ || _); [discriminate|]. intros [= <-]. reflexivity. }
  split.
  - intros Hm. apply list_elem_of_fmap in Hm as (m & -> & Hm). subst files.
    apply list_elem_of_omap in Hm as (e0 & Hin0 & Hr).
    pose proof (Hname _ _ Hr) as Hn. rewrite Hn in *.
    destruct (skipped !! e0) as [reason|] eqn:Hl; [|reflexivity].
    apply Hlookup in Hl as [_ Hl].
    assert (is_Some (returnedFor fs dir e0)) as Hsome by eauto.
    rewrite Forall_forall in Hstat. destruct (Hstat e0 Hin0) as [info Hinfo].
    revert Hr Hl. unfold returnedFor, skippedFor. rewrite Hinfo.
    destruct (FileInfo.IsDir info), (HasPrefix (FileInfo.Name info) "."),
      (HasSuffix (FileInfo.Name info) ".ignore"); simpl; discriminate.
  - intros Hnone.
    assert (Hsk : skippedFor fs dir e = None).
    { destruct (skippedFor fs dir e) as [reason|] eqn:Hsk; [|reflexivity].
      assert (skipped !! e = Some reason) as Hl by (apply Hlookup; auto).
      congruence. }
    apply Hex in Hsk as [m Hm].
    apply list_elem_of_fmap. exists m. split; [symmetry; eapply Hname; exact Hm|].
    subst files. apply list_elem_of_omap. eauto.
Qed.

(** X18: GetFileMetadata stops at the first entry that cannot be
    stat'ed: it returns the error of Stat, wrapped, with the files and the
    skipped entries gathered from the entries before it, and does not look
    at the entries after it; when the directory cannot be read it returns
    the wrapped error and nothing else. *)
Theorem X18_GetFileMetadata_partial_results fs dir :
  (forall (pre : list string) (e : string) (post : list string) err,
     ReadDir fs dir = Ok (pre ++ e :: post)%list ->
     Forall (fun e => exists info, Stat fs (Join dir e) = Ok info) pre ->
     Stat fs (Join dir e) = Err err ->
     exists skipped,
       GetFileMetadata fs dir
         = (omap (returnedFor fs dir) pre, skipped, Some (ErrWrap "stat" err)) /\
       forall e' reason,
         skipped !! e' = Some reason <-> e' ∈ pre /\ skippedFor fs dir e' = Some reason) /\
  (forall err, ReadDir fs dir = Err err ->
     GetFileMetadata fs dir = ([], ∅, Some (ErrWrap "read dir" err))).
Proof.
  split.
  - intros pre e post err Hread Hpre He. unfold GetFileMetadata. rewrite Hread.
    rewrite (getFileMetadataLoop_stat_error fs dir pre e post err [] ∅ Hpre He).
    destruct (getFileMetadataLoop_spec fs dir pre [] ∅ Hpre) as (Hf & _ & Hs).
    rewrite Hf. eexists. split; [reflexivity|].
    intros e' reason. rewrite Hs, lookup_empty.
    destruct (bool_decide (e' ∈ pre)) eqn:Hin.
    + apply bool_decide_eq_true in Hin.
      destruct (skippedFor fs dir e') as [r|]; split.
      * intros [= ->]. split; [exact Hin | reflexivity].
      * intros [_ [= ->]]. reflexivity.
      * discriminate.
      * intros [_ [=]].
    + apply bool_decide_eq_false in Hin. split; [discriminate|].
      intros [Hc _]. contradiction.
  - intros err Hread. unfold GetFileMetadata. rewrite Hread. reflexivity.
Qed.

(** ** The watcher *)

Lemma bytesEqual_eq a : forall b, bytesEqual a b = true <-> a = b.
Proof.
  induction a as [|x a IH]; intros [|y b]; simpl; split; try discriminate;
    try reflexivity.
  - intros H. apply andb_prop in H as [Hx Hab].
    apply Byte.byte_dec_bl in Hx. apply IH in Hab. congruence.
  - intros [= -> ->]. rewrite Byte.byte_dec_lb by reflexivity.
    apply IH. reflexivity.
Qed.

Lemma getFileMetadataLoop_error fs dir es : forall files skipped e,
  snd (getFileMetadataLoop fs dir es files skipped) = Some e ->
  exists err, e = ErrWrap "stat" err.
Proof.
  induction es as [|x es IH]; intros files skipped e; cbn [getFileMetadataLoop].
  - discriminate.
  - destruct (Stat fs (Join dir x)) as [info|err].
    + destruct (skipFile info) as [[|] reason]; apply IH.
    + intros [= <-]. eauto.
Qed.

Lemma GetFileMetadata_error_text fs dir e :
  snd (GetFileMetadata fs dir) = Some e -> ErrorText e <> EmptyString.
Proof.
  unfold GetFileMetadata. destruct (ReadDir fs dir) as [es|err].
  - intros H. apply getFileMetadataLoop_error in H as [err ->].
    rewrite ErrorText_wrap. discriminate.
  - intros [= <-]. rewrite ErrorText_wrap. discriminate.
Qed.

Lemma check_eq fs dir st :
  oldErrStr st = EmptyString ->
  check fs dir st =
    let files := fst (fst (GetFileMetadata fs dir)) in
    let skipped := snd (fst (GetFileMetadata fs dir)) in
    let digest := Sum128 (hashInput 0 files) in
    if bytesEqual digest (oldHash st)
    then ({| oldHash := oldHash st; oldErrStr := EmptyString |}, None)
    else ({| oldHash := digest; oldErrStr := EmptyString |},
          Some {| Files := files; Skipped := skipped; Error := None |}).
Proof.
  intros Hst. unfold check.
  pose proof (GetFileMetadata_error_text fs dir) as Htext.
  destruct (GetFileMetadata fs dir) as [[files skipped] err]. simpl in *.
  rewrite Hst.
  assert (Hfirst : match err with
                   | Some e => String.eqb (ErrorText e) EmptyString
                   | None => false
                   end = false).
  { destruct err as [e|]; [|reflexivity].
    apply String.eqb_neq. apply Htext. reflexivity. }
  rewrite Hfirst, Hash_eq. simpl.
  destruct (bytesEqual _ _); reflexivity.
Qed.

(** The events [Watch] sends at the checks [k, k+1, ...]. *)
Lemma watchLoop_eq fsAt dir signals : forall k st sentSoFar,
  oldErrStr st = EmptyString ->
  oldHash st = digestAt fsAt dir k ->
  watchLoop signals fsAt dir (S k) st sentSoFar =
    {| sentEvents :=
         (sentSoFar ++
          omap (fun j => if changedAt fsAt dir j then Some (eventAt fsAt dir j) else None)
               (seq (S k) (ticksBeforeDone signals)))%list;
       closed := cancelled signals;
       outcome := if cancelled signals then Returned None else Waiting |}.
Proof.
  induction signals as [|[|] signals IH]; intros k st sentSoFar Herr Hhash;
    cbn [watchLoop ticksBeforeDone seq].
  - simpl. rewrite app_nil_r. reflexivity.
  - rewrite (check_eq _ _ _ Herr). cbn zeta.
    fold (digestAt fsAt dir (S k)). rewrite Hhash.
    assert (Homap : forall n,
      omap (fun j => if changedAt fsAt dir j then Some (eventAt fsAt dir j) else None)
           (S k :: seq (S (S k)) n)
      = match (if changedAt fsAt dir (S k) then Some (eventAt fsAt dir (S k)) else None) with
        | Some ev => ev :: omap (fun j => if changedAt fsAt dir j
                                          then Some (eventAt fsAt dir j) else None)
                                (seq (S (S k)) n)
        | None => omap (fun j => if changedAt fsAt dir j
                                 then Some (eventAt fsAt dir j) else None)
                       (seq (S (S k)) n)
        end) by reflexivity.
    rewrite Homap. cbn [changedAt].
    destruct (bytesEqual (digestAt fsAt dir (S k)) (digestAt fsAt dir k)) eqn:Heq.
    + rewrite IH; [reflexivity | reflexivity |].
      simpl. apply bytesEqual_eq in Heq. congruence.
    + rewrite IH; [|reflexivity|reflexivity]. simpl.
      rewrite <- app_assoc. reflexivity.
  - simpl. rewrite app_nil_r. reflexivity.
Qed.

Lemma Watch_eq signals fsAt dir interval :
  0 < interval ->
  Watch signals fsAt dir interval =
    {| sentEvents :=
         omap (fun j => if changedAt fsAt dir j then Some (eventAt fsAt dir j) else None)
              (seq 0 (S (ticksBeforeDone signals)));
       closed := cancelled signals;
       outcome := if cancelled signals then Returned None else Waiting |}.
Proof.
  intros Hpos. unfold Watch. apply Z.leb_gt in Hpos. rewrite Hpos.
  rewrite check_eq by reflexivity. cbn zeta. cbn [oldHash].
  fold (digestAt fsAt dir 0).
  destruct (bytesEqual (digestAt fsAt dir 0) []) eqn:Heq.
  - apply bytesEqual_eq in Heq. apply (f_equal (@List.length _)) in Heq.
    unfold digestAt in Heq. rewrite Sum128_length in Heq. discriminate.
  - rewrite watchLoop_eq by reflexivity. reflexivity.
Qed.

(** X19: started with an interval above 0, Watch sends an event at its
    first check and at every later check whose listing has another digest
    than the listing of the check before, and at no other check; there is
    one check at the start and one for every tick before the
    cancellation. *)
Theorem X19_Watch_sends_on_change signals fsAt dir interval :
  0 < interval ->
  sentEvents (Watch signals fsAt dir interval)
    = omap (fun k => if changedAt fsAt dir k then Some (eventAt fsAt dir k) else None)
           (seq 0 (S (ticksBeforeDone signals))) /\
  (List.length (sentEvents (Watch signals fsAt dir interval))
   <= S (ticksBeforeDone signals))%nat /\
  exists rest, sentEvents (Watch signals fsAt dir interval) = eventAt fsAt dir 0 :: rest.
Proof.
  intros Hpos. rewrite (Watch_eq _ _ _ _ Hpos). cbn [sentEvents].
  split; [reflexivity|]. split.
  - assert (Hlen : forall l : list nat,
      (List.length (omap (fun k => if changedAt fsAt dir k
                                   then Some (eventAt fsAt dir k) else None) l)
       <= List.length l)%nat).
    { induction l as [|j l IH]; [simpl; lia|].
      change (omap ?f (j :: l)) with
        (match f j with Some ev => ev :: omap f l | None => omap f l end).
      cbn beta. destruct (changedAt fsAt dir j); cbn [List.length]; lia. }
    etransitivity; [apply Hlen|]. rewrite length_seq. lia.
  - eexists. reflexivity.
Qed.

Lemma sentEvents_no_error signals fsAt dir interval ev :
  ev ∈ sentEvents (Watch signals fsAt dir interval) -> Error ev = None.
Proof.
  destruct (Z.ltb_spec 0 interval) as [Hpos|Hle].
  - rewrite (Watch_eq _ _ _ _ Hpos). cbn [sentEvents].
    intros Hin. apply list_elem_of_omap in Hin as (k & _ & Hk).
    destruct (changedAt fsAt dir k); [|discriminate].
    injection Hk as <-. reflexivity.
  - unfold Watch. apply Z.leb_le in Hle. rewrite Hle. cbn [sentEvents].
    intros Hin. apply elem_of_nil in Hin. contradiction.
Qed.

(** X20: no event of Watch carries an error: the error of
    GetFileMetadata is overwritten by the nil error of Hash before the
    event is built.  A directory that cannot be read at the first check is
    sent as an event with an empty listing and a nil error. *)
Theorem X20_Watch_events_carry_no_error signals fsAt dir interval :
  (forall ev, ev ∈ sentEvents (Watch signals fsAt dir interval) -> Error ev = None) /\
  (forall err, 0 < interval -> ReadDir (fsAt O) dir = Err err ->
     exists rest,
       sentEvents (Watch signals fsAt dir interval)
       = {| Files := []; Skipped := ∅; Error := None |} :: rest).
Proof.
  split.
  - intros ev. apply sentEvents_no_error.
  - intros err Hpos Hread. rewrite (Watch_eq _ _ _ _ Hpos). cbn [sentEvents].
    change (seq 0 (S (ticksBeforeDone signals)))
      with (0%nat :: seq 1 (ticksBeforeDone signals)).
    change (omap ?f (0%nat :: ?l))
      with (match f 0%nat with Some ev => ev :: omap f l | None => omap f l end).
    cbn beta. cbn [changedAt]. unfold eventAt at 1, GetFileMetadata.
    rewrite Hread. cbn [fst snd]. eexists. reflexivity.
Qed.

(** X21: with an interval of 0 or less Watch returns an error at once,
    without a check and without closing the channel of events; with an
    interval above 0 it never returns an error: it returns nil, with the
    channel closed, when its context is cancelled, and waits otherwise. *)
Theorem X21_Watch_returns_on_cancel signals fsAt dir interval :
  (interval <= 0 ->
     Watch signals fsAt dir interval =
       {| sentEvents := []; closed := false;
          outcome := Returned (Some (ErrNew "watcher can not be started with interval <= 0")) |}) /\
  (0 < interval ->
     closed (Watch signals fsAt dir interval) = cancelled signals /\
     outcome (Watch signals fsAt dir interval)
       = if cancelled signals then Returned None else Waiting).
Proof.
  split.
  - intros Hle. unfold Watch. apply Z.leb_le in Hle. rewrite Hle. reflexivity.
  - intros Hpos. rewrite (Watch_eq _ _ _ _ Hpos). split; reflexivity.
Qed.

End KeyfilesProperties.

(** ** package private *)

Section PrivateProperties.
Context `{KExt : KeyfilesExternals} `{KLaws : !KeyfilesLaws}
        `{KeyExt : Private.KeyExternals}.

Lemma LoadKeys_eq fs kl w :
  Private.LoadKeys fs kl w =
    match Private.loadKeys fs (Private.Dir (Private.config kl)) with
    | Err err =>
        (kl, if Private.FailOnError (Private.config kl) then Some err else None, [], w)
    | Ok ks =>
        ({| Private.config := Private.config kl;
            Private.waitFirstFetch := Private.waitFirstFetch kl;
            Private.hasRefreshCallback := Private.hasRefreshCallback kl;
            Private.keys := Some ks;
            Private.keysLoadTimestamp := currentTime w |},
         None, if Private.hasRefreshCallback kl then [ks] else [], tick w)
    end.
Proof.
  unfold Private.LoadKeys.
  destruct (Private.loadKeys fs _) as [ks|err].
  - reflexivity.
  - destruct (Private.FailOnError _); reflexivity.
Qed.

Lemma LoadKeys_config fs kl w :
  Private.config (fst (fst (fst (Private.LoadKeys fs kl w)))) = Private.config kl /\
  Private.hasRefreshCallback (fst (fst (fst (Private.LoadKeys fs kl w))))
    = Private.hasRefreshCallback kl /\
  clock (snd (Private.LoadKeys fs kl w)) = clock w.
Proof.
  rewrite LoadKeys_eq. destruct (Private.loadKeys fs _); repeat split.
Qed.

(** X22: after any calls of LoadKeys, GetKeys returns the key set of the
    last call whose keys loaded, with a reading of the clock as the load
    time; calls that fail change nothing of what GetKeys returns, whatever
    FailOnError is, so that GetKeys reports "keys not loaded" exactly until
    the first load succeeds. *)
Theorem X22_GetKeys_last_successful_load fss : forall kl w,
  let kl' := fst (Private.loadedFrom fss kl w) in
  Private.config kl' = Private.config kl /\
  match Private.lastLoaded (Private.Dir (Private.config kl)) fss with
  | Some ks => exists n, Private.GetKeys kl' = (Some ks, clock w n, None)
  | None => Private.GetKeys kl' = Private.GetKeys kl
  end.
Proof.
  induction fss as [|fs fss IH]; intros kl w; cbn zeta.
  - split; reflexivity.
  - cbn [Private.loadedFrom Private.lastLoaded].
    unfold mbind, IO_bind.
    pose proof (LoadKeys_config fs kl w) as (Hcfg & _ & Hclock).
    pose proof (LoadKeys_eq fs kl w) as Heq.
    destruct (Private.LoadKeys fs kl w) as [[[kl1 err] called] w1].
    cbn [fst snd] in Hcfg, Hclock.
    specialize (IH kl1 w1). cbn zeta in IH. destruct IH as [IHcfg IHkeys].
    rewrite Hcfg in IHcfg, IHkeys. split; [exact IHcfg|].
    destruct (Private.lastLoaded _ fss) as [ks|].
    + destruct IHkeys as [n Hn]. exists n. rewrite <- Hclock. exact Hn.
    + rewrite IHkeys.
      destruct (Private.loadKeys fs _) as [ks|e].
      * injection Heq as -> _ _ _. exists (reads w). reflexivity.
      * injection Heq as -> _ _ _. reflexivity.
Qed.

(** X23: in the loop of LoadKeysWatch a loader with a callback hands the
    keys to the callback twice for an event whose keys load, once in
    LoadKeys and once in the loop; for an event whose keys fail to load,
    FailOnError being unset, the callback still gets the keys loaded
    before, if there are any. *)
Theorem X23_LoadKeysWatch_callbacks event events chanClosed fsAt k kl w :
  Private.hasRefreshCallback kl = true ->
  Error event = None ->
  let dir := Private.Dir (Private.config kl) in
  let called := snd (fst (Private.loadKeysWatchLoop (event :: events) chanClosed fsAt k kl w)) in
  (forall ks, Private.loadKeys (fsAt k) dir = Ok ks ->
     called = ks :: ks ::
       snd (fst (Private.loadKeysWatchLoop events chanClosed fsAt (S k)
                   (fst (fst (fst (Private.LoadKeys (fsAt k) kl w)))) (tick w)))) /\
  (forall e, Private.loadKeys (fsAt k) dir = Err e ->
     Private.FailOnError (Private.config kl) = false ->
     called =
       (match Private.keys kl with Some old => [old] | None => [] end
        ++ snd (fst (Private.loadKeysWatchLoop events chanClosed fsAt (S k) kl w)))%list).
Proof.
  intros Hcb Hev dir called. subst called dir.
  cbn [Private.loadKeysWatchLoop]. rewrite Hev.
  unfold mbind, IO_bind. rewrite LoadKeys_eq.
  split.
  - intros ks Hks. rewrite Hks. cbn [fst snd].
    unfold Private.GetKeys. cbn [Private.keys Private.hasRefreshCallback].
    rewrite Hcb.
    destruct (Private.loadKeysWatchLoop events chanClosed fsAt (S k) _ (tick w))
      as [[[kl2 range] later] w2].
    reflexivity.
  - intros e He Hfail. rewrite He, Hfail. cbn [fst snd].
    rewrite Hcb. unfold Private.GetKeys.
    destruct (Private.loadKeysWatchLoop events chanClosed fsAt (S k) kl w)
      as [[[kl2 range] later] w2].
    destruct (Private.keys kl); reflexivity.
Qed.

Lemma loadKeysLoop_ok fs dir files : forall keySet ks,
  Private.loadKeysLoop fs dir files keySet = Ok ks ->
  Forall (Private.loads fs dir) files.
Proof.
  induction files as [|f files IH]; intros keySet ks H.
  - constructor.
  - cbn [Private.loadKeysLoop] in H.
    destruct (Private.LoadPrivateKeyFromFile fs (Join dir (Name f))) as [key|err] eqn:Hkey;
      [|discriminate].
    destruct (Private.SetAdd _ _) as [keySet' added].
    constructor; [exists key; exact Hkey | eapply IH; exact H].
Qed.

Lemma loadKeysLoop_first_failure fs dir pre : forall f post e keySet,
  Forall (Private.loads fs dir) pre ->
  Private.LoadPrivateKeyFromFile fs (Join dir (Name f)) = Err e ->
  Private.loadKeysLoop fs dir (pre ++ f :: post)%list keySet
    = Err (ErrWrap ("loading key from " +:+ Join dir (Name f)) e).
Proof.
  induction pre as [|p pre IH]; intros f post e keySet Hpre Hf.
  - cbn [app Private.loadKeysLoop]. rewrite Hf. reflexivity.
  - inversion Hpre as [|? ? [key Hkey] Hrest]; subst.
    cbn [app Private.loadKeysLoop]. rewrite Hkey.
    destruct (Private.SetAdd _ _) as [keySet' added].
    apply IH; assumption.
Qed.

(** X24: loadKeys gives all the keys of a directory or none: it returns a
    key set only if the listing has no error and every file of it loads;
    the first file that does not load, in the order of the listing, makes
    the call fail with an error that names the path of that file, and a
    listing with an error makes it fail though files were listed. *)
Theorem X24_loadKeys_all_or_nothing fs dir files skipped err :
  GetFileMetadata fs dir = (files, skipped, err) ->
  (forall ks, Private.loadKeys fs dir = Ok ks ->
     err = None /\ Forall (Private.loads fs dir) files) /\
  (forall (pre : list FileMetadata) f (post : list FileMetadata) e,
     err = None -> files = (pre ++ f :: post)%list ->
     Forall (Private.loads fs dir) pre ->
     Private.LoadPrivateKeyFromFile fs (Join dir (Name f)) = Err e ->
     Private.loadKeys fs dir
       = Err (ErrWrap ("loading key from " +:+ Join dir (Name f)) e)) /\
  (forall e, err = Some e ->
     Private.loadKeys fs dir = Err (ErrWrap "getting file metadata" e)).
Proof.
  intros Hmeta. unfold Private.loadKeys. rewrite Hmeta.
  split; [|split].
  - intros ks H. destruct err as [e|]; [discriminate|].
    split; [reflexivity|]. eapply loadKeysLoop_ok. exact H.
  - intros pre f post e -> -> Hpre Hf.
    apply loadKeysLoop_first_failure; assumption.
  - intros e ->. reflexivity.
Qed.

Lemma loadKeysWatchLoop_range events chanClosed fsAt : forall k kl w,
  Forall (fun ev => Error ev = None) events ->
  let r := Private.loadKeysWatchLoop events chanClosed fsAt k kl w in
  match snd (fst (fst r)) with
  | Private.LoopLeft (Some e) =>
      Private.FailOnError (Private.config kl) = true /\
      exists j, Private.loadKeys (fsAt j) (Private.Dir (Private.config kl)) = Err e
  | range => range = if chanClosed then Private.LoopLeft None else Private.Receiving
  end.
Proof.
  induction events as [|event events IH]; intros k kl w Hev; cbn zeta.
  - cbn [Private.loadKeysWatchLoop]. unfold mret, IO_ret. cbn [fst snd].
    destruct chanClosed; reflexivity.
  - inversion Hev as [|? ? Hnone Hrest]; subst.
    cbn [Private.loadKeysWatchLoop]. rewrite Hnone.
    unfold mbind, IO_bind.
    pose proof (LoadKeys_config (fsAt k) kl w) as (Hcfg & _ & _).
    pose proof (LoadKeys_eq (fsAt k) kl w) as Heq.
    destruct (Private.LoadKeys (fsAt k) kl w) as [[[kl1 err] called] w1].
    cbn [fst snd] in Hcfg.
    destruct err as [e|].
    + unfold mret, IO_ret. cbn [fst snd].
      destruct (Private.loadKeys (fsAt k) _) as [ks|e'] eqn:Hload; [discriminate|].
      destruct (Private.FailOnError (Private.config kl)); [|discriminate].
      injection Heq as _ <- _ _. split; [reflexivity|]. exists k. exact Hload.
    + specialize (IH (S k) kl1 w1 Hrest). cbn zeta in IH.
      destruct (Private.loadKeysWatchLoop events chanClosed fsAt (S k) kl1 w1)
        as [[[kl2 range] later] w2].
      unfold mret, IO_ret. cbn [fst snd] in *.
      rewrite Hcfg in IH. exact IH.
Qed.

(** X25: fed with the events of Watch, the loop of LoadKeysWatch is never
    left because of the error of an event: it is left with an error only
    if FailOnError is set and a call of loadKeys has failed with that
    error; otherwise it is left, without an error, when the watcher has
    closed the channel, and waits for the next event until then. *)
Theorem X25_LoadKeysWatch_stops_on_load_error signals fsW fsAt interval kl w :
  let W := Watch signals fsW (Private.Dir (Private.config kl)) interval in
  let range :=
    snd (fst (fst (Private.loadKeysWatchLoop (sentEvents W) (closed W) fsAt 0 kl w))) in
  (forall e, range = Private.LoopLeft (Some e) ->
     Private.FailOnError (Private.config kl) = true /\
     exists j, Private.loadKeys (fsAt j) (Private.Dir (Private.config kl)) = Err e) /\
  (Private.FailOnError (Private.config kl) = false ->
   range = if closed W then Private.LoopLeft None else Private.Receiving).
Proof.
  intros W range.
  assert (Hev : Forall (fun ev => Error ev = None) (sentEvents W)).
  { apply Forall_forall. intros ev Hin. eapply sentEvents_no_error. exact Hin. }
  pose proof (loadKeysWatchLoop_range _ (closed W) fsAt 0%nat kl w Hev) as H.
  cbn zeta in H. fold range in H.
  split.
  - intros e He. rewrite He in H. exact H.
  - intros Hfail. destruct range as [[e|]|]; try exact H.
    destruct H as [H _]. congruence.
Qed.

(** X26: with a WatchInterval of 0 or less the watcher returns without
    closing the channel, and the loop of LoadKeysWatch waits for an event
    for ever: it makes no call of LoadKeys and none of the callback, and a
    cancelled context does not end it. *)
Theorem X26_LoadKeysWatch_waits_without_watcher signals fsW fsAt kl w :
  Private.WatchOn (Private.config kl) = false ->
  let W := Watch signals fsW (Private.Dir (Private.config kl))
                 (Private.WatchInterval (Private.config kl)) in
  Private.loadKeysWatchLoop (sentEvents W) (closed W) fsAt 0 kl w
    = (kl, Private.Receiving, [], w).
Proof.
  intros Hoff. unfold Private.WatchOn in Hoff. apply Z.ltb_ge in Hoff.
  cbv zeta. unfold Watch. apply Z.leb_le in Hoff. rewrite Hoff.
  reflexivity.
Qed.

Lemma applyOptions_frame opts : forall kl,
  let kl' := fold_left (fun kl opt => Private.applyOption opt kl) opts kl in
  Private.config kl' = Private.config kl /\
  Private.keys kl' = Private.keys kl /\
  Private.keysLoadTimestamp kl' = Private.keysLoadTimestamp kl /\
  (Private.waitFirstFetch kl' = true <->
   Private.waitFirstFetch kl = true \/ In Private.WithWaitFirstFetch opts).
Proof.
  induction opts as [|opt opts IH]; intros kl; cbn zeta.
  - cbn [fold_left]. repeat split; try tauto. intros [H|[]]; exact H.
  - cbn [fold_left].
    specialize (IH (Private.applyOption opt kl)). cbn zeta in IH.
    destruct IH as (-> & -> & -> & Hwait).
    rewrite Hwait.
    destruct opt; cbn [Private.applyOption Private.config Private.keys
                       Private.keysLoadTimestamp Private.waitFirstFetch In];
      repeat split; intuition (try discriminate; auto).
Qed.

(** X27: NewKeyloader with WithWaitFirstFetch loads the keys before it
    returns, but a load that fails makes it fail only if FailOnError is
    set: with FailOnError unset it returns a loader whose GetKeys reports
    "keys not loaded".  When the keys load, GetKeys of the loader returns
    them with the time of the load. *)
Theorem X27_NewKeyloader_first_fetch fs cfg opts w :
  Private.Dir cfg <> EmptyString ->
  In Private.WithWaitFirstFetch opts ->
  match Private.loadKeys fs (Private.Dir cfg) with
  | Ok ks =>
      exists kl, Private.NewKeyloader fs cfg opts w = (Ok kl, tick w) /\
        Private.GetKeys kl = (Some ks, currentTime w, None)
  | Err e =>
      if Private.FailOnError cfg
      then Private.NewKeyloader fs cfg opts w = (Err e, w)
      else exists kl, Private.NewKeyloader fs cfg opts w = (Ok kl, w) /\
             Private.GetKeys kl = (None, zero, Some (ErrNew "keys not loaded"))
  end.
Proof.
  intros Hdir Hopt. unfold Private.NewKeyloader, Private.Validate.
  apply String.eqb_neq in Hdir. rewrite Hdir.
  set (kl0 := {| Private.config := cfg; Private.waitFirstFetch := false;
                 Private.hasRefreshCallback := false; Private.keys := None;
                 Private.keysLoadTimestamp := zero |}).
  pose proof (applyOptions_frame opts kl0) as H. cbn zeta in H.
  destruct H as (Hcfg & Hkeys & Hts & Hwait).
  set (kl := fold_left _ opts kl0) in *.
  assert (Hw : Private.waitFirstFetch kl = true) by (apply Hwait; right; exact Hopt).
  rewrite Hw. unfold mbind, IO_bind. rewrite LoadKeys_eq, Hcfg.
  subst kl0. cbn [Private.config Private.keys] in *.
  destruct (Private.loadKeys fs (Private.Dir cfg)) as [ks|e].
  - eexists. split; [reflexivity|]. reflexivity.
  - destruct (Private.FailOnError cfg).
    + reflexivity.
    + exists kl. split; [reflexivity|].
      unfold Private.GetKeys. rewrite Hkeys. reflexivity.
Qed.

End PrivateProperties.

(** * Closed examples *)

Module Closed.
Import TestDouble Examples.

(** The test double keeps the law of the interface. *)
Lemma parseDuration_int64 s d :
  parseDuration s = Ok d -> MinInt64 <= d <= MaxInt64.
Proof.
  unfold parseDuration.
  set (p := match s with String "-" r => (true, r) | String "+" r => (false, r)
                    | _ => (false, s) end).
  destruct p as [neg s'].
  destruct (String.eqb s' "0"); [intros [= <-]; unfold MinInt64, MaxInt64; lia|].
  destruct s' as [|ch r]; [discriminate|].
  destruct (digit ch); [|discriminate].
  destruct (leadingInt (String ch r) 0) as [[v u]|] eqn:Hli; [|discriminate].
  assert (Hv : 0 <= v).
  { clear -Hli. revert Hli. generalize (String ch r). generalize (Z.le_refl 0).
    generalize 0 at 2 3 as x. intros x Hx s0. revert x Hx.
    induction s0 as [|c s0 IH]; intros x Hx; simpl.
    - intros [= <- _]. exact Hx.
    - destruct (digit c) as [k|] eqn:Hk.
      + destruct (2 ^ 63 / 10 <? x); [discriminate|].
        destruct (2 ^ 63 <? x * 10 + k); [discriminate|].
        apply IH. unfold digit in Hk.
        destruct ((48 <=? nat_of_ascii c)%nat && (nat_of_ascii c <=? 57)%nat) eqn:Hc;
          [|discriminate].
        injection Hk as <-. apply andb_prop in Hc as [Hc _].
        apply Nat.leb_le in Hc. lia.
      + intros [= <- _]. exact Hx. }
  destruct (unitMap u) as [unit|] eqn:Hu; [|discriminate].
  assert (Hunit : 0 < unit).
  { unfold unitMap in Hu.
    repeat match type of Hu with
           | (if ?b then _ else _) = _ => destruct b
           end; inversion Hu; reflexivity. }
  destruct (2 ^ 63 / unit <? v) eqn:Hov; [discriminate|].
  apply Z.ltb_ge in Hov.
  assert (Hd : 0 <= v * unit <= 2 ^ 63).
  { split; [nia|].
    pose proof (Z.mul_div_le (2 ^ 63) unit Hunit). nia. }
  unfold MinInt64, MaxInt64.
  destruct neg.
  - intros [= <-]. lia.
  - destruct (2 ^ 63 - 1 <? v * unit) eqn:Hmax; [discriminate|].
    apply Z.ltb_ge in Hmax. intros [= <-]. lia.
Qed.

#[export] Instance laws : ExternalsLaws := {|
  ParseDuration_int64 := parseDuration_int64
|}.

Lemma world_clock_nonzero t0 step script :
  0 < t0 -> 0 <= step -> forall k, clock (world t0 step script) k <> zero.
Proof. intros Ht Hs k. unfold zero. simpl. nia. Qed.

(** C1, on an example: a good fetch, a failure one second later, five
    minutes of grace. *)
Lemma C1_witness :
  fst (GetKeySet staleClient (world (t2024 + 301 * Second) 0 [])) = (Some jwks, None) /\
  fst (GetKeySet staleClient (world (t2024 + 302 * Second) 0 [])) = (None, Some errRefused).
Proof.
  assert (Hclock : forall k, clock outage k <> zero).
  { apply world_clock_nonzero; [reflexivity | discriminate]. }
  pose proof (proj2 C1_stale_serving cfg (client cfg) [true; true] outage
                eq_refl Hclock jwks errRefused eq_refl eq_refl) as H.
  split.
  - apply (proj1 (H (world (t2024 + 301 * Second) 0 []))). vm_compute. discriminate.
  - apply (proj2 (H (world (t2024 + 302 * Second) 0 []))). vm_compute. reflexivity.
Defined.

(** C2 as stated fails: with cacheMax = 0 and cacheMin = 1m, a good fetch
    at [t2024] with max-age=120 has the candidate expiry [t2024 + 120s],
    later than now, and the installed expiry is [t2024 + 60s], below the
    candidate. *)
Lemma C2_counterexample :
  CacheMax (config noCeiling) = 0 /\
  returned true noCeiling outage = (true, None) /\
  updateTime true noCeiling outage = t2024 /\
  expiresAfter t2024 maxAge120 = (t2024 + 120 * Second, None) /\
  cacheExpiresAfter (clientAfter true noCeiling outage) = t2024 + 60 * Second /\
  ~ (t2024 + 120 * Second <= cacheExpiresAfter (clientAfter true noCeiling outage)).
Proof. vm_compute. repeat split; try reflexivity. intros H. apply H. reflexivity. Qed.

(** C2 (amended), on the same example. *)
Lemma C2_witness :
  cacheExpiresAfter (clientAfter true noCeiling outage)
    = t2024 + Z.max 0 (CacheMin (config noCeiling)) /\
  cacheExpiresAfter (clientAfter true noCeiling outage) < t2024 + 120 * Second.
Proof.
  destruct (C2_zero_cacheMax_is_a_ceiling_at_now true noCeiling outage
              (Some jwks) jwks maxAge120 (t2024 + 120 * Second)
              eq_refl eq_refl eq_refl eq_refl eq_refl) as [H1 H2].
  split; [exact H1 | apply H2; reflexivity].
Defined.

(** C3, on examples: max-age=120 between 1m and 1h is kept; with
    cacheMax = 30s below cacheMin = 1m the floor wins. *)
Lemma C3_witness :
  cacheExpiresAfter (clientAfter true (client cfg) outage) = t2024 + 120 * Second /\
  cacheExpiresAfter (clientAfter true (client (withCacheMax (30 * Second) cfg)) outage)
    = t2024 + 60 * Second.
Proof.
  split.
  - apply (proj1 (C3_clamp_floor_priority true (client cfg) outage
                    (Some jwks) jwks maxAge120 (t2024 + 120 * Second)
                    eq_refl eq_refl eq_refl)).
  - apply (proj2 (proj2 (C3_clamp_floor_priority true
                    (client (withCacheMax (30 * Second) cfg)) outage
                    (Some jwks) jwks maxAge120 (t2024 + 120 * Second)
                    eq_refl eq_refl eq_refl))).
    reflexivity.
Defined.

(** C4, on examples: max-age=120 with Age 20, and without Age. *)
Lemma C4_witness :
  expiresAfter t2024 aged = (t2024 + (120 * Second - 20 * Second), None) /\
  expiresAfter t2024 maxAge120 = (t2024 + 120 * Second, None).
Proof.
  split.
  - apply (proj1 (C4_max_age_minus_age (Ext := externals) t2024 aged (120 * Second) eq_refl)
             (20 * Second) eq_refl).
    split; discriminate.
  - apply (proj2 (C4_max_age_minus_age (Ext := externals) t2024 maxAge120 (120 * Second)
                    eq_refl)).
    reflexivity.
Defined.

(** C5, on an example: max-age=120 with Age 200. *)
Lemma C5_witness :
  snd (returned true (client cfg) overAgedFetch) = None /\
  cachedError (clientAfter true (client cfg) overAgedFetch) = None /\
  cachedJWKSet (clientAfter true (client cfg) overAgedFetch) = Some jwks /\
  cacheExpiresAfter (clientAfter true (client cfg) overAgedFetch) = t2024 + Minute.
Proof.
  destruct (C5_header_failure_falls_back_to_floor true (client cfg) overAgedFetch
              (Some jwks) jwks overAged eq_refl eq_refl) as (H & Hneg & _).
  apply H. apply (Hneg (120 * Second) (200 * Second)); [reflexivity | reflexivity |].
  split; [discriminate | reflexivity].
Defined.

(** C6, on examples: the failure after the good fetch stamps
    [t2024 + 1s]; a second failure keeps the stamp. *)
Lemma C6_witness :
  keysStaleSince staleClient = t2024 + Second /\
  keysStaleSince (fst (fst (refreshes [true; true; true] (client cfg) outage [])))
    = t2024 + Second.
Proof.
  assert (Hclock : forall k, clock outage k <> zero).
  { apply world_clock_nonzero; [reflexivity | discriminate]. }
  split.
  - apply (proj1 (proj1 C6_staleSince_first_failure true
                    (clientAfter true (client cfg) outage)
                    (worldAfter true (client cfg) outage) eq_refl) errRefused).
    reflexivity.
  - apply (proj2 C6_staleSince_first_failure cfg (client cfg)
             [true; true; true] outage eq_refl Hclock).
Defined.

(** C7 as stated fails: with cacheErrors = 0, an endpoint that refuses
    every connection and a clock that stands still, two calls of
    Refresh(false) in succession both fetch, and the second returns
    (true, err). *)
Lemma C7_counterexample :
  returned false noErrorCache frozenOutage = (true, Some errRefused) /\
  returned false refusedOnce frozenOutage1 = (true, Some errRefused) /\
  returned false refusedOnce frozenOutage1 <> (false, None) /\
  requests frozenOutage = 0%nat /\
  requests (worldAfter false refusedOnce frozenOutage1) = 2%nat /\
  ~ (requests (worldAfter false refusedOnce frozenOutage1) <= 1)%nat.
Proof.
  vm_compute. split; [reflexivity|]. split; [reflexivity|].
  split; [discriminate|]. split; [reflexivity|]. split; [reflexivity|]. lia.
Qed.

(** C7 (amended), on an example: a good fetch, then a second call at the
    same instant. *)
Lemma C7_witness :
  returned false (clientAfter false (client cfg) frozenGood)
                 (worldAfter false (client cfg) frozenGood) = (false, None) /\
  clientAfter false (clientAfter false (client cfg) frozenGood)
                    (worldAfter false (client cfg) frozenGood)
    = clientAfter false (client cfg) frozenGood /\
  (requests (worldAfter false (clientAfter false (client cfg) frozenGood)
                              (worldAfter false (client cfg) frozenGood)) <= 1)%nat.
Proof.
  destruct (C7_fresh_refresh_is_noop (client cfg) frozenGood) as (_ & Htwice & Hfresh).
  apply Htwice. apply (Hfresh t2024).
  - intros k. vm_compute. reflexivity.
  - discriminate.
  - reflexivity.
Defined.

(** C8 as stated fails: with cacheErrors = 0, a forced refresh that fails
    while the cache is good until [t2024 + 120s] leaves that expiry, and
    the next check, at [t2024 + 3s], is not due: Refresh(false) returns
    (false, nil) without a request. *)
Lemma C8_counterexample :
  CacheErrors (config freshCache) = 0 /\
  returned true freshCache outage1 = (true, Some errRefused) /\
  cacheExpiresAfter freshCache = t2024 + 120 * Second /\
  cacheExpiresAfter failedForced = cacheExpiresAfter freshCache /\
  currentTime outage2 = t2024 + 3 * Second /\
  runs false failedForced outage2 = false /\
  returned false failedForced outage2 = (false, None) /\
  requests (worldAfter false failedForced outage2) = requests outage2.
Proof. vm_compute. repeat split; reflexivity. Qed.

(** C8 (amended), on examples: an attempt that was not forced fails with
    cacheErrors = 30s, and with cacheErrors = 0. *)
Lemma C8_witness :
  cacheExpiresAfter (clientAfter false (client cfg) refusing)
    = t2024 + 2 * Second + 30 * Second /\
  cacheExpiresAfter (clientAfter false noErrorCache refusing) = zero /\
  runs false (clientAfter false noErrorCache refusing)
             (worldAfter false noErrorCache refusing) = true.
Proof.
  split; [|split].
  - apply (proj1 (C8_failed_fetch_expiry false (client cfg) refusing None [] ∅ errRefused
                    eq_refl eq_refl)).
    reflexivity.
  - apply (proj1 (proj2 (C8_failed_fetch_expiry false noErrorCache refusing None [] ∅
                    errRefused eq_refl eq_refl))).
    discriminate.
  - apply (proj2 (proj2 (proj2 (C8_failed_fetch_expiry false noErrorCache refusing None [] ∅
                    errRefused eq_refl eq_refl)))); [reflexivity | reflexivity |].
    vm_compute. discriminate.
Defined.

(** C9, on examples: a forced attempt that fails, an attempt on an expired
    cache that succeeds. *)
Lemma C9_witness :
  returned true (client cfg) refusing = (true, Some errRefused) /\
  returned false (client cfg) outage = (true, None).
Proof.
  split.
  - destruct (C9_refresh_reports_attempt true (client cfg) refusing eq_refl)
      as (H1 & H2 & _).
    apply injective_projections; [exact H1 | exact H2].
  - destruct (C9_refresh_reports_attempt false (client cfg) outage eq_refl)
      as (H1 & H2 & _).
    apply injective_projections; [exact H1 | exact H2].
Defined.

(** C10, on examples: a new client, and a client with a key set and a
    cached error. *)
Lemma C10_witness :
  fst (GetKeySet (client cfg) outage) = (None, Some ErrKeysNotFetched) /\
  fst (GetKeySet staleClient outage) <> (None, None).
Proof.
  split.
  - apply (proj2 (proj2 (C10_GetKeySet_outcomes (client cfg) outage
                           (Reachable_New cfg (client cfg) eq_refl))) cfg).
    reflexivity.
  - apply (proj1 (proj2 (C10_GetKeySet_outcomes staleClient outage
             (Reachable_Refresh true _ (worldAfter true (client cfg) outage)
                (Reachable_Refresh true _ outage
                   (Reachable_New cfg (client cfg) eq_refl)))))).
Defined.

(** The end-to-end scenarios of the specification. *)

Example scenario_within_bounds :
  cacheExpiresAfter (clientAfter false (client cfg) outage)
    = currentTime (tick outage) + 120 * Second /\
  cacheExpiresAfter (clientAfter false (client (withCacheMax (60 * Second) cfg)) outage)
    = currentTime (tick outage) + 60 * Second.
Proof. vm_compute. split; reflexivity. Qed.

Example scenario_unreachable_endpoint :
  fst (GetKeySet (client cfg) refusing) = (None, Some ErrKeysNotFetched) /\
  fst (GetKeySet (clientAfter false (client cfg) refusing)
                 (worldAfter false (client cfg) refusing))
    = (None, Some errRefused).
Proof. vm_compute. split; reflexivity. Qed.

Example scenario_expires_header :
  expiresAfter t2024 (headers [("Expires", "Mon, 01 Jan 2024 01:00:00 GMT")])
    = (t2024 + Hour, None).
Proof. vm_compute. reflexivity. Qed.

End Closed.

(** * Closed examples of the further properties *)

Module ClosedMore.
Import TestDouble Examples KeyfilesDouble MoreExamples.

(** The test double of the directory packages keeps the laws of the
    interface. *)
Lemma sum128_length bs : List.length (sum128 bs) = 16%nat.
Proof. unfold sum128. rewrite length_app, !length_leBytes. reflexivity. Qed.

#[export] Instance keyfilesLaws : KeyfilesLaws := {|
  Sum128_length := sum128_length;
  ErrorText_wrap := fun context cause => eq_refl
|}.

(** X1, on an example: the good fetch of [outage]. *)
Lemma X1_witness :
  fst (get (client cfg) outage) = (Some jwks, jwks, maxAge120, None).
Proof.
  apply (proj2 (X1_get_succeeds_only_on_200 (client cfg) outage jwks jwks maxAge120)).
  exists {| StatusCode := 200; RespHeader := maxAge120; Body := Ok jwks |}.
  split; [reflexivity|]. split; [reflexivity|]. split; [reflexivity|].
  split; reflexivity.
Defined.

(** X2, on an example: an endpoint that answers 404. *)
Lemma X2_witness :
  GetAll (clientAfter true (client cfg) notFound)
    = (None, ∅, bytesOf "not found", Some (ErrUnexpectedStatus 404)).
Proof.
  apply (proj2 (X2_GetAll_after_attempt true (client cfg) notFound eq_refl)
           notFoundResponse (bytesOf "not found")).
  - reflexivity.
  - reflexivity.
  - discriminate.
Defined.

(** X3, on an example: max-age=120 between one minute and one hour. *)
Lemma X3_witness :
  t2024 + Minute <= cacheExpiresAfter (clientAfter true (client cfg) outage)
  /\ cacheExpiresAfter (clientAfter true (client cfg) outage) <= t2024 + Hour.
Proof.
  destruct (X3_success_expiry_within_bounds true (client cfg) outage
              (Some jwks) jwks maxAge120 eq_refl eq_refl) as [H1 H2].
  split; [exact H1 | apply H2; discriminate].
Defined.

(** X4, on an example: a good fetch, then two failed ones. *)
Lemma X4_witness :
  cachedJWKSet (fst (fst (refreshes [true; true] freshCache outage1 []))) <> None /\
  forall w', snd (fst (GetKeySet (fst (fst (refreshes [true; true] freshCache outage1 []))) w'))
             <> Some ErrKeysNotFetched.
Proof.
  apply (X4_key_set_never_dropped [true; true] freshCache outage1 []).
  - apply Reachable_Refresh. apply (Reachable_New (withCacheErrors 0 cfg)). reflexivity.
  - discriminate.
Defined.

(** X5, on an example: the stale client of the outage fetches again. *)
Lemma X5_witness :
  cachedError staleClient = Some errRefused /\
  keysStaleSince staleClient = t2024 + Second /\
  cachedError (clientAfter true staleClient recovered) = None /\
  keysStaleSince (clientAfter true staleClient recovered) = zero /\
  forall w', fst (GetKeySet (clientAfter true staleClient recovered) w') = (Some jwks, None).
Proof.
  destruct (X5_success_clears_staleness true staleClient recovered eq_refl eq_refl)
    as (ks & Hks & He & Hs & Hget).
  assert (Hjwks : Some jwks = Some ks) by exact Hks.
  injection Hjwks as <-.
  split; [reflexivity|]. split; [reflexivity|].
  split; [exact He|]. split; [exact Hs | exact Hget].
Defined.

(** X6, on examples: a configuration without a URL, and one with. *)
Lemma X6_witness :
  New noURL = Err (ErrWrap "validating config" (ErrNew "URL is required")) /\
  exists c, New cfg = Ok c /\ config c = cfg /\ GetAll c = (None, ∅, [], None) /\
            cacheExpiresAfter c = zero /\ keysStaleSince c = zero.
Proof.
  split.
  - apply (proj1 (X6_New_needs_a_URL (Ext := externals) noURL)). reflexivity.
  - apply (proj2 (X6_New_needs_a_URL (Ext := externals) cfg)). discriminate.
Defined.

(** X7, on an example: two ticks, then the cancellation, during an
    outage. *)
Lemma X7_witness :
  Refresher [TickC; TickC; CtxDone] (client cfg) refusing
    = (fst (fst (refreshes [false; false; false] (client cfg) refusing [])),
       Returned None,
       snd (fst (refreshes [false; false; false] (client cfg) refusing []))).
Proof.
  exact (X7_Refresher_without_ExitOnError [TickC; TickC; CtxDone] (client cfg) refusing
           eq_refl).
Defined.

(** X8, on an example: ExitOnError during an outage. *)
Lemma X8_witness :
  snd (fst (Refresher [TickC] (client (withExitOnError cfg)) refusing))
    = Returned (Some errRefused) /\
  requests (snd (Refresher [TickC] (client (withExitOnError cfg)) refusing)) = 1%nat /\
  cachedError (fst (fst (Refresher [TickC] (client (withExitOnError cfg)) refusing)))
    = Some errRefused.
Proof.
  destruct (X8_Refresher_exits_on_error [TickC] (client (withExitOnError cfg)) refusing)
    as [Honly Hexit].
  destruct (Hexit errRefused eq_refl eq_refl eq_refl) as (Hret & _ & Hreq).
  split; [exact Hret|]. split; [exact Hreq|].
  exact (proj2 (Honly errRefused Hret)).
Defined.

(** X10, on examples: an s-maxage before the first max-age, and an empty
    max-age beside an s-maxage. *)
Lemma X10_witness :
  parseMaxAge mixed = (120 * Second, true, None) /\
  parseMaxAge emptyMaxAge = (0, false, None).
Proof.
  split.
  - apply (proj1 (X10_max_age_preferred (Ext := externals) mixed
                    ["s-maxage=300"] " max-age=120" [" max-age=60"]
                    ltac:(discriminate) eq_refl
                    ltac:(repeat constructor) eq_refl)).
  - apply (proj2 (X10_max_age_preferred (Ext := externals) emptyMaxAge
                    ["s-maxage=300"] " max-age=" []
                    ltac:(discriminate) eq_refl
                    ltac:(repeat constructor) eq_refl)).
    reflexivity.
Defined.

(** X11, on examples: two s-maxage directives, and none. *)
Lemma X11_witness :
  parseMaxAge sMaxAge = (600 * Second, true, None) /\
  parseMaxAge noMaxAge = (0, false, None).
Proof.
  assert (Hsplit : Split (Get sMaxAge "Cache-Control") ","
                   = ["s-maxage=300"; " public"; " s-maxage=600"])
    by (vm_compute; reflexivity).
  assert (Hsplit' : Split (Get noMaxAge "Cache-Control") "," = ["public"; " no-transform"])
    by (vm_compute; reflexivity).
  assert (Hset : Get sMaxAge "Cache-Control" <> EmptyString)
    by (vm_compute; discriminate).
  assert (Hset' : Get noMaxAge "Cache-Control" <> EmptyString)
    by (vm_compute; discriminate).
  assert (Hnone : Forall (fun q => HasPrefix (TrimSpace q) "max-age=" = false)
                         (Split (Get sMaxAge "Cache-Control") ",")).
  { rewrite Hsplit. repeat (constructor; [vm_compute; reflexivity|]). constructor. }
  assert (Hnone' : Forall (fun q => HasPrefix (TrimSpace q) "max-age=" = false)
                          (Split (Get noMaxAge "Cache-Control") ",")).
  { rewrite Hsplit'. repeat (constructor; [vm_compute; reflexivity|]). constructor. }
  split.
  - apply (proj1 (X11_s_maxage_fallback (Ext := externals) sMaxAge Hset Hnone)
             ["s-maxage=300"; " public"] " s-maxage=600" []).
    + exact Hsplit.
    + vm_compute. reflexivity.
    + constructor.
  - apply (proj2 (X11_s_maxage_fallback (Ext := externals) noMaxAge Hset' Hnone')).
    rewrite Hsplit'. repeat (constructor; [vm_compute; reflexivity|]). constructor.
Defined.

(** X12, on an example: an Expires header that is no date, beside
    max-age=120. *)
Lemma X12_witness :
  expiresAfter t2024 (<["Expires" := ["not a date"]]> maxAge120)
    = (t2024 + 120 * Second, None).
Proof.
  rewrite (proj1 (X12_max_age_shadows_Expires (Ext := externals) t2024 maxAge120
                    (120 * Second) ["not a date"] eq_refl)).
  reflexivity.
Defined.

(** X13, on an example: an Expires date fifty minutes before the fetch. *)
Lemma X13_witness :
  expiresAfter (t2024 + Hour) (<["Age" := ["20"]]> expiring)
    = (t2024 + 10 * Minute, None).
Proof.
  exact (proj2 (X13_Expires_verbatim (Ext := externals) expiring 0 (t2024 + 10 * Minute)
                  eq_refl eq_refl (t2024 + Hour) ["20"])).
Defined.

(** X14, on examples: an Age above max-age, and a negative max-age
    without Age. *)
Lemma X14_witness :
  (exists t, expiresAfter t2024 overAged
             = (zero, Some (ErrNegativeAge (120 * Second) (200 * Second) t)) /\ t < 0) /\
  exists E, expiresAfter t2024 negative = (E, None) /\ E < t2024.
Proof.
  destruct (X14_age_checked_expiry (Ext := externals)
              t2024 overAged (120 * Second) eq_refl) as [Hage _].
  destruct (X14_age_checked_expiry (Ext := externals)
              t2024 negative (- (120 * Second)) eq_refl) as [_ Hneg].
  split.
  - destruct (Hage (200 * Second) eq_refl) as [H|(E & HE & _)]; [exact H|].
    vm_compute in HE. discriminate HE.
  - apply Hneg; reflexivity.
Defined.

(** X15, on an example: a key file touched within the same millisecond. *)
Lemma X15_witness :
  Hash [fileA] = Hash [fileA'] /\ List.length (fst (Hash [fileA; fileC])) = 16%nat.
Proof.
  split.
  - apply (proj2 (proj2 (proj2 (X15_Hash_never_fails (KExt := keyfilesExternals) [])))
             "a.priv" 227 t2024 (t2024 + 999999)).
    reflexivity.
  - apply (proj1 (proj2 (X15_Hash_never_fails (KExt := keyfilesExternals) [fileA; fileC]))).
Defined.

Ltac well_formed :=
  repeat (constructor;
          [split; [split; discriminate | repeat constructor; discriminate]|]);
  constructor.

(** X16, on examples: the two keys in the two orders, and a key touched
    within the same millisecond. *)
Lemma X16_witness :
  hashInput 0 [fileA; fileC] <> hashInput 0 [fileC; fileA] /\
  hashInput 0 [fileA; fileC] = hashInput 0 [fileA'; fileC].
Proof.
  split.
  - intros H.
    apply (proj1 (X16_hash_input_determines_listing (KExt := keyfilesExternals)
                    [fileA; fileC] [fileC; fileA]
                    ltac:(well_formed) ltac:(well_formed))) in H.
    discriminate H.
  - apply (proj1 (X16_hash_input_determines_listing (KExt := keyfilesExternals)
                    [fileA; fileC] [fileA'; fileC]
                    ltac:(well_formed) ltac:(well_formed))).
    reflexivity.
Defined.

Ltac in_list :=
  apply list_elem_of_In; vm_compute; repeat first [left; reflexivity | right].

(** X17, on an example: two keys, a hidden file, a directory and an
    ignored file. *)
Lemma X17_witness :
  fst (fst (GetFileMetadata keysDir "keys")) = [fileA; fileC] /\
  snd (GetFileMetadata keysDir "keys") = None /\
  snd (fst (GetFileMetadata keysDir "keys")) !! "old" = Some "directory" /\
  snd (fst (GetFileMetadata keysDir "keys")) !! "a.priv" = None.
Proof.
  destruct (X17_GetFileMetadata_partition keysDir "keys" keysListing eq_refl
              ltac:(repeat (constructor; [eexists; reflexivity|]); constructor))
    as (files & skipped & Hg & Hfiles & Hskipped & Hboth).
  rewrite Hg. cbn [fst snd].
  split; [rewrite Hfiles; reflexivity|]. split; [reflexivity|]. split.
  - apply Hskipped. split; [|reflexivity].
    in_list.
  - apply (Hboth "a.priv").
    + in_list.
    + rewrite Hfiles. in_list.
Defined.

(** X18, on examples: an entry that has gone before its Stat, and a
    directory that is not there. *)
Lemma X18_witness :
  fst (fst (GetFileMetadata racingDir "keys")) = [fileA] /\
  snd (GetFileMetadata racingDir "keys") = Some (ErrWrap "stat" noSuchFile) /\
  GetFileMetadata missingDir "keys" = ([], ∅, Some (ErrWrap "read dir" noSuchFile)).
Proof.
  destruct (X18_GetFileMetadata_partial_results (KExt := keyfilesExternals)
              racingDir "keys") as [Hstat _].
  destruct (Hstat ["a.priv"; ".hidden"; "old"; "b.priv.ignore"] "C.PRIV" [] noSuchFile
              eq_refl
              ltac:(repeat (constructor; [eexists; reflexivity|]); constructor)
              eq_refl) as (skipped & Hg & _).
  rewrite Hg. cbn [fst snd].
  split; [reflexivity|]. split; [reflexivity|].
  apply (proj2 (X18_GetFileMetadata_partial_results (KExt := keyfilesExternals)
                  missingDir "keys")).
  reflexivity.
Defined.

(** X19, on an example: three ticks, the directory losing a key before the
    second tick. *)
Lemma X19_witness :
  sentEvents (Watch [TickC; TickC; TickC; CtxDone] keyRemoved "keys" Second)
    = [eventAt keyRemoved "keys" 0; eventAt keyRemoved "keys" 2].
Proof.
  rewrite (proj1 (X19_Watch_sends_on_change [TickC; TickC; TickC; CtxDone]
                    keyRemoved "keys" Second eq_refl)).
  reflexivity.
Defined.

(** X20, on an example: a directory that is not there. *)
Lemma X20_witness :
  exists rest,
    sentEvents (Watch [TickC; CtxDone] (fun _ => missingDir) "keys" Second)
    = {| Files := []; Skipped := ∅; Error := None |} :: rest.
Proof.
  apply (proj2 (X20_Watch_events_carry_no_error [TickC; CtxDone]
                  (fun _ => missingDir) "keys" Second) noSuchFile);
    reflexivity.
Defined.

(** X21, on examples: an interval of 0, and a cancellation after a tick. *)
Lemma X21_witness :
  closed (Watch [CtxDone] (fun _ => keysDir) "keys" 0) = false /\
  outcome (Watch [TickC; CtxDone] (fun _ => keysDir) "keys" Second) = Returned None.
Proof.
  split.
  - rewrite (proj1 (X21_Watch_returns_on_cancel [CtxDone] (fun _ => keysDir) "keys" 0)).
    + reflexivity.
    + discriminate.
  - apply (proj2 (X21_Watch_returns_on_cancel [TickC; CtxDone] (fun _ => keysDir)
                    "keys" Second)).
    reflexivity.
Defined.

(** X22, on an example: a load of the two keys, then one that fails. *)
Lemma X22_witness :
  exists n,
    Private.GetKeys (fst (Private.loadedFrom [keysDir; badKeyDir]
                            (loader (loaderConfig Second true) false) outage))
    = (Some keysOfDir, clock outage n, None).
Proof.
  exact (proj2 (X22_GetKeys_last_successful_load [keysDir; badKeyDir]
                  (loader (loaderConfig Second true) false) outage)).
Defined.

(** X23, on an example: one event, the two keys of the directory. *)
Lemma X23_witness :
  snd (fst (Private.loadKeysWatchLoop [eventAt keyRemoved "keys" 0] true
              (fun _ => keysDir) 0 (loader (loaderConfig Second false) true) outage))
    = [keysOfDir; keysOfDir].
Proof.
  apply (proj1 (X23_LoadKeysWatch_callbacks (eventAt keyRemoved "keys" 0) [] true
                  (fun _ => keysDir) 0 (loader (loaderConfig Second false) true) outage
                  eq_refl eq_refl) keysOfDir).
  reflexivity.
Defined.

(** X24, on an example: the second key is not in PEM format. *)
Lemma X24_witness :
  Private.loadKeys badKeyDir "keys"
    = Err (ErrWrap "loading key from keys/C.PRIV"
             (ErrNew "EC private key not in PEM format")).
Proof.
  assert (Hmeta : GetFileMetadata badKeyDir "keys"
                  = ([fileA; fileC], snd (fst (GetFileMetadata badKeyDir "keys")), None))
    by (vm_compute; reflexivity).
  apply (proj1 (proj2 (X24_loadKeys_all_or_nothing badKeyDir "keys" _ _ _ Hmeta))
           [fileA] fileC []).
  - reflexivity.
  - reflexivity.
  - constructor; [|constructor]. eexists. vm_compute. reflexivity.
  - vm_compute. reflexivity.
Defined.

(** X25, on an example: FailOnError and a key that is not in PEM format. *)
Lemma X25_witness :
  exists j,
    Private.loadKeys (if (j <? 1)%nat then keysDir else badKeyDir) "keys"
    = Err (ErrWrap "loading key from keys/C.PRIV"
             (ErrNew "EC private key not in PEM format")).
Proof.
  apply (proj1 (X25_LoadKeysWatch_stops_on_load_error
                  [TickC; TickC; TickC; CtxDone] keyRemoved
                  (fun j => if (j <? 1)%nat then keysDir else badKeyDir) Second
                  (loader (loaderConfig Second true) false) outage)
           (ErrWrap "loading key from keys/C.PRIV"
              (ErrNew "EC private key not in PEM format"))).
  reflexivity.
Defined.

(** X26, on an example: a WatchInterval of 0 and a cancelled context. *)
Lemma X26_witness :
  Private.loadKeysWatchLoop
    (sentEvents (Watch [CtxDone] (fun _ => keysDir) "keys" 0))
    (closed (Watch [CtxDone] (fun _ => keysDir) "keys" 0))
    (fun _ => keysDir) 0 (loader (loaderConfig 0 true) true) outage
  = (loader (loaderConfig 0 true) true, Private.Receiving, [], outage).
Proof.
  exact (X26_LoadKeysWatch_waits_without_watcher [CtxDone] (fun _ => keysDir)
           (fun _ => keysDir) (loader (loaderConfig 0 true) true) outage eq_refl).
Defined.

(** X27, on examples: a first fetch that fails with FailOnError unset, and
    one that loads the two keys. *)
Lemma X27_witness :
  (exists kl,
     Private.NewKeyloader missingDir (loaderConfig Second false)
       [Private.WithRefreshCallback; Private.WithWaitFirstFetch] outage = (Ok kl, outage) /\
     Private.GetKeys kl = (None, zero, Some (ErrNew "keys not loaded"))) /\
  (exists kl,
     Private.NewKeyloader keysDir (loaderConfig Second true)
       [Private.WithWaitFirstFetch] outage = (Ok kl, tick outage) /\
     Private.GetKeys kl = (Some keysOfDir, t2024, None)).
Proof.
  split.
  - exact (X27_NewKeyloader_first_fetch missingDir (loaderConfig Second false)
             [Private.WithRefreshCallback; Private.WithWaitFirstFetch] outage
             ltac:(discriminate) (or_intror (or_introl eq_refl))).
  - exact (X27_NewKeyloader_first_fetch keysDir (loaderConfig Second true)
             [Private.WithWaitFirstFetch] outage
             ltac:(discriminate) (or_introl eq_refl)).
Defined.

End ClosedMore.
